(** * Tabular reinforcement-learning notebooks: a shallow embedding

    The notebooks of the repository (Monte Carlo, Q-learning, policy
    gradient, UCB, Thompson sampling) are short Python/numpy scripts.
    This development embeds the functions the specification talks about
    and proves (or refutes) the properties claimed for them.

    Conventions of the embedding
    - Python floats are modelled by exact rationals [Q] (by reals [R] in
      the UCB notebook, whose bonus needs a square root); numeric
      comparison [==] of numpy is [Qeq_bool].
    - numpy arrays are lists, two-dimensional arrays are lists of rows;
      an index out of range raises, as in Python.
    - A computation either completes, raises a Python exception, or is
      still running when the step budget given to a [while True] loop is
      used up: the three constructors of [outcome]. A [while True] loop
      is a function of that budget; it returns when some budget makes
      it complete, and does not return when none does.
    - The global numpy generator and the hidden state of a gym
      environment are threaded explicitly. *)

From Stdlib Require Import QArith Qabs Qround Lia Lqa Reals Lra.
From stdpp Require Import base tactics option list.

Set Default Proof Using "Type".

Local Open Scope Q_scope.

(** ** Outcomes of Python computations *)

Inductive outcome (A : Type) : Type :=
| Done (a : A)
| Raise
| OutOfFuel.
Arguments Done {A} a.
Arguments Raise {A}.
Arguments OutOfFuel {A}.

Global Instance outcome_ret : MRet outcome := fun A a => Done a.
Global Instance outcome_bind : MBind outcome := fun A B f m =>
  match m with
  | Done a => f a
  | Raise => Raise
  | OutOfFuel => OutOfFuel
  end.

Lemma bind_Done {A B} (m : outcome A) (f : A -> outcome B) (b : B) :
  m ≫= f = Done b -> exists a, m = Done a /\ f a = Done b.
Proof. destruct m as [a| |]; simpl; intros H; try discriminate. eauto. Qed.

Lemma bind_Done_l {A B} (a : A) (f : A -> outcome B) :
  Done a ≫= f = f a.
Proof. reflexivity. Qed.

(** Peel one [x ← m; k] off a hypothesis [m ≫= k = Done b]. *)
Ltac inv_bind H :=
  let a := fresh "v" in
  let Ha := fresh "E" in
  apply bind_Done in H; destruct H as (a & Ha & H).

(** [for i in idxs: body], threading the state that the body updates. *)
Fixpoint for_each {S} (body : S -> nat -> outcome S) (idxs : list nat) (st : S)
  : outcome S :=
  match idxs with
  | [] => Done st
  | i :: rest => st' ← body st i; for_each body rest st'
  end.

(** ** Numbers, arrays and tables *)

Definition state := nat.
Definition action := nat.
Abbreviation table := (list (list Q)).

(** [sum(l)], accumulated from the right end. *)
Definition Qsum (l : list Q) : Q := foldr Qplus 0 l.

(** [l[i]] of a Python list or a numpy vector. *)
Definition index {A} (l : list A) (i : nat) : outcome A :=
  match l !! i with
  | Some x => Done x
  | None => Raise
  end.

(** [l[i] = x]. *)
Definition assign {A} (l : list A) (i : nat) (x : A) : outcome (list A) :=
  if decide (i < length l)%nat then Done (<[i := x]> l) else Raise.

(** [T[s, a]] and [T[s, a] = x] of a numpy matrix. *)
Definition get2 (T : table) (s a : nat) : outcome Q :=
  row ← index T s; index row a.

Definition set2 (T : table) (s a : nat) (x : Q) : outcome table :=
  row ← index T s;
  row' ← assign row a x;
  assign T s row'.

(** [np.zeros((n, m))] and [np.full((n, m), x)]. *)
Definition np_full (n m : nat) (x : Q) : table := replicate n (replicate m x).
Definition np_zeros (n m : nat) : table := np_full n m 0.

(** A table of shape [(n, m)]. *)
Definition shape (T : table) (n m : nat) : Prop :=
  length T = n /\ Forall (fun row => length row = m) T.

(** Python's [x / y] on a float and an integer. *)
Definition py_div (x y : Q) : outcome Q :=
  if Qeq_bool y 0 then Raise else Done (x / y).

(** [x < y] as a boolean. *)
Definition Qlt_bool (x y : Q) : bool := negb (Qle_bool y x).

(** Python's [max(row)] and numpy's [np.max(row)]: the first largest entry. *)
Definition Qmax_list (x : Q) (l : list Q) : Q :=
  foldl (fun m y => if Qlt_le_dec m y then y else m) x l.

Definition np_max (row : list Q) : outcome Q :=
  match row with
  | [] => Raise
  | x :: l => Done (Qmax_list x l)
  end.

(** [np.argmax(row)]: the first position holding the largest entry.
    [argmax_from] scans the rest of the row, [bi] and [b] being the best
    position and value so far and [i] the position of the next entry. *)
Fixpoint argmax_from (bi : nat) (b : Q) (i : nat) (l : list Q) : nat :=
  match l with
  | [] => bi
  | y :: l' =>
      if Qlt_le_dec b y then argmax_from i y (S i) l'
      else argmax_from bi b (S i) l'
  end.

Definition np_argmax (row : list Q) : outcome nat :=
  match row with
  | [] => Raise
  | x :: l => Done (argmax_from 0 x 1 l)
  end.

(** [np.where(row == m)[0]]: the positions whose entry equals [m], in
    increasing order; [i] is the position of the head of [row]. *)
Fixpoint where_eq_from (i : nat) (row : list Q) (m : Q) : list nat :=
  match row with
  | [] => []
  | x :: l =>
      if Qeq_bool x m then i :: where_eq_from (S i) l m
      else where_eq_from (S i) l m
  end.

Definition np_where_eq (row : list Q) (m : Q) : list nat := where_eq_from 0 row m.

(** An operation applied entry by entry to two vectors, with numpy's
    broadcasting of a vector of length one. *)
Definition np_broadcast {A B C} (op : A -> B -> C) (x : list A) (y : list B)
  : outcome (list C) :=
  if decide (length x = length y) then Done (zip_with op x y)
  else match x, y with
       | [a], _ => Done (map (op a) y)
       | _, [b] => Done (map (fun v => op v b) x)
       | _, _ => Raise
       end.

(** [x + y] of a vector of shape [(n,)] and one of shape [(1, m)]. *)
Definition np_add_broadcast (x y : list Q) : outcome (list Q) :=
  np_broadcast Qplus x y.

(** [T[s, :] = x]. *)
Definition fill_row (T : table) (s : nat) (x : Q) : outcome table :=
  row ← index T s;
  assign T s (replicate (length row) x).

(** [T[rows, col] = x] with a list of row numbers. *)
Definition assign_rows (T : table) (rows : list nat) (col : nat) (x : Q)
  : outcome table :=
  for_each (fun T s => set2 T s col x) rows T.

(** ** The collaborators: a gym environment and numpy's generator *)

(** A transition [(s, a, r)] of an episode trace. *)
Definition transition : Type := state * action * Q.

(** The environment: [env.nS], [env.nA] (also [env.action_space.n]),
    [env.reset()] and [env.step(a)] (returning state, reward and the
    done flag), acting on the hidden state [E] of the simulator, which
    holds whatever randomness the simulator has. *)
Class Environment (E : Type) := {
  nS : nat;
  nA : nat;
  env_reset : E -> state * E;
  env_step : E -> action -> state * Q * bool * E
}.

(** The primitives of [np.random] that the notebooks call, acting on the
    generator's state [Gen]; the laws are numpy's contracts on the range
    and shape of what is drawn. [rng_choice n] draws a position below
    [n] uniformly; [rng_choice_p p] draws a position with the weights
    [p]; [rng_randn n] draws [n] standard normal numbers;
    [rng_beta ab] draws one Beta variate per position, with the pair
    of parameters at that position; [rng_rand] draws from [[0, 1)]. *)
Class NumpyRandom (Gen : Type) := {
  rng_choice : nat -> Gen -> nat * Gen;
  rng_choice_p : list Q -> Gen -> nat * Gen;
  rng_randn : nat -> Gen -> list Q * Gen;
  rng_beta : list (Q * Q) -> Gen -> list Q * Gen;
  rng_rand : Gen -> Q * Gen;
  rng_choice_lt n g : (0 < n)%nat -> ((rng_choice n g).1 < n)%nat;
  rng_choice_p_lt p g : (0 < length p)%nat -> ((rng_choice_p p g).1 < length p)%nat;
  rng_randn_length n g : length (rng_randn n g).1 = n;
  rng_beta_length ab g : length (rng_beta ab g).1 = length ab
}.

Section NumpyCalls.
Context {Gen : Type} `{NumpyRandom Gen}.

(** [np.random.choice(n)] for an integer [n]. *)
Definition np_random_choice (n : nat) (g : Gen) : outcome (nat * Gen) :=
  if decide (0 < n)%nat then Done (rng_choice n g) else Raise.

(** [np.random.choice(arr)] for a vector [arr]: the entry at a uniformly
    drawn position. *)
Definition np_random_choice_from (arr : list nat) (g : Gen) : outcome (nat * Gen) :=
  '(k, g') ← np_random_choice (length arr) g;
  x ← index arr k;
  Done (x, g').

(** [np.random.choice(range(n), p = p)]; numpy refuses weights of the
    wrong length, negative weights and weights that do not sum to one. *)
Definition np_random_choice_p (n : nat) (p : list Q) (g : Gen) : outcome (nat * Gen) :=
  if decide (0 < n)%nat then
    if decide (length p = n) then
      if forallb (Qle_bool 0) p && Qeq_bool (Qsum p) 1
      then Done (rng_choice_p p g) else Raise
    else Raise
  else Raise.

(** [np.random.beta(a, b)] on two vectors; numpy refuses a parameter
    that is not positive. *)
Definition np_random_beta (a b : list Q) (g : Gen) : outcome (list Q * Gen) :=
  ab ← np_broadcast pair a b;
  if forallb (fun p : Q * Q => Qlt_bool 0 p.1 && Qlt_bool 0 p.2) ab
  then Done (rng_beta ab g) else Raise.

End NumpyCalls.

(** ** Concrete collaborators

    A generator that replays a recorded tape of variates, a four-state
    corridor whose last state is terminal, and an environment that never
    signals [done]. They instantiate the general statements below. *)

Module Fixtures.

(** Inverse-CDF search, as [np.random.choice] does with weights [p]:
    the first position whose cumulated weight exceeds [u]. *)
Fixpoint cdf_search (u acc : Q) (i : nat) (p : list Q) : nat :=
  match p with
  | [] => i
  | w :: rest =>
      if Qlt_le_dec u (acc + w) then i else cdf_search u (acc + w) (S i) rest
  end.

Definition tape := list Q.

Definition tape_choice (n : nat) (g : tape) : nat * tape :=
  (Nat.modulo (Z.to_nat (Qfloor (Qabs (hd 0 g) * inject_Z (Z.of_nat n)))) n, tl g).

Definition tape_choice_p (p : list Q) (g : tape) : nat * tape :=
  (Nat.min (cdf_search (hd 0 g) 0 0 p) (length p - 1), tl g).

Definition tape_draw (n : nat) (g : tape) : list Q * tape :=
  (take n (g ++ replicate n 0), drop n g).

Lemma tape_choice_lt n g : (0 < n)%nat -> ((tape_choice n g).1 < n)%nat.
Proof. intros Hn. simpl. apply Nat.mod_upper_bound. lia. Qed.

Lemma tape_choice_p_lt p g :
  (0 < length p)%nat -> ((tape_choice_p p g).1 < length p)%nat.
Proof. intros Hp. simpl. lia. Qed.

Lemma tape_draw_length n g : length (tape_draw n g).1 = n.
Proof. simpl. rewrite length_take, length_app, length_replicate. lia. Qed.

Global Instance tape_random : NumpyRandom tape := {|
  rng_choice := tape_choice;
  rng_choice_p := tape_choice_p;
  rng_randn := tape_draw;
  rng_beta ab := tape_draw (length ab);
  rng_rand g := (hd 0 g, tl g);
  rng_choice_lt := tape_choice_lt;
  rng_choice_p_lt := tape_choice_p_lt;
  rng_randn_length := tape_draw_length;
  rng_beta_length ab := tape_draw_length (length ab)
|}.

(** A corridor [0 -> 1 -> 2 -> 3]: action 1 moves one cell to the right
    and pays 1, action 0 stays and pays nothing; reaching cell 3 ends
    the episode. *)
Definition corridor_step (pos : nat) (a : action) : state * Q * bool * nat :=
  let pos' := if (a =? 1)%nat then Nat.min (pos + 1) 3 else pos in
  (pos', if (pos' =? pos)%nat then 0 else 1, (pos' =? 3)%nat, pos').

Global Instance corridor : Environment nat := {|
  nS := 4;
  nA := 2;
  env_reset _ := (0%nat, 0%nat);
  env_step := corridor_step
|}.

(** One state, one action, and [done] is never signalled. *)
Definition treadmill_step (e : unit) (a : action) : state * Q * bool * unit :=
  (0%nat, 0, false, tt).

Global Instance treadmill : Environment unit := {|
  nS := 1;
  nA := 1;
  env_reset e := (0%nat, e);
  env_step := treadmill_step
|}.

(** A recorded tape: in the corridor its first draws move right, stay,
    and move right twice. *)
Definition demo_tape : tape := [7 # 10; 1 # 10; 7 # 10; 7 # 10; 7 # 10; 7 # 10; 7 # 10].

End Fixtures.

(** *** Facts about arrays *)

Lemma index_Done {A} (l : list A) i x : index l i = Done x <-> l !! i = Some x.
Proof. unfold index. destruct (l !! i); split; intros H; try discriminate; congruence. Qed.

Lemma index_lt {A} (l : list A) i :
  (i < length l)%nat -> exists x, index l i = Done x /\ l !! i = Some x.
Proof.
  intros Hi. destruct (lookup_lt_is_Some_2 l i Hi) as [x Hx].
  exists x. split; [by apply index_Done | done].
Qed.

Lemma assign_Done {A} (l : list A) i x l' :
  assign l i x = Done l' <-> (i < length l)%nat /\ l' = <[i := x]> l.
Proof.
  unfold assign. destruct (decide (i < length l)%nat); split.
  - intros [= <-]. done.
  - intros [_ ->]. done.
  - discriminate.
  - intros [? _]. lia.
Qed.

Lemma get2_Done T s a x :
  get2 T s a = Done x <-> exists row, T !! s = Some row /\ row !! a = Some x.
Proof.
  unfold get2. split.
  - intros Hg. inv_bind Hg. apply index_Done in E, Hg. eauto.
  - intros (row & Hs & Ha). apply index_Done in Hs. rewrite Hs. simpl.
    by apply index_Done.
Qed.

Lemma set2_Done T s a x T' :
  set2 T s a x = Done T' <->
  exists row, T !! s = Some row /\ (a < length row)%nat /\ T' = <[s := <[a := x]> row]> T.
Proof.
  unfold set2. split.
  - intros Hs. inv_bind Hs. inv_bind Hs.
    apply index_Done in E. apply assign_Done in E0 as [Ha ->].
    apply assign_Done in Hs as [_ ->]. eauto.
  - intros (row & Hs & Ha & ->). pose proof (lookup_lt_Some _ _ _ Hs) as Hlt.
    apply index_Done in Hs. rewrite Hs. simpl.
    unfold assign. rewrite decide_True by done. simpl.
    by rewrite decide_True.
Qed.

Lemma get2_set2_eq T s a x T' : set2 T s a x = Done T' -> get2 T' s a = Done x.
Proof.
  intros (row & Hs & Ha & ->)%set2_Done. apply get2_Done.
  exists (<[a := x]> row). split.
  - apply list_lookup_insert_eq. by eapply lookup_lt_Some.
  - by apply list_lookup_insert_eq.
Qed.

Lemma get2_set2_ne T s a x T' s' a' :
  set2 T s a x = Done T' -> (s', a') <> (s, a) -> get2 T' s' a' = get2 T s' a'.
Proof.
  intros (row & Hs & Ha & ->)%set2_Done Hne. unfold get2, index.
  destruct (decide (s' = s)) as [->|Hs'].
  - rewrite list_lookup_insert_eq by (by eapply lookup_lt_Some). rewrite Hs. simpl.
    rewrite list_lookup_insert_ne; [done | congruence].
  - by rewrite list_lookup_insert_ne.
Qed.

Lemma set2_row_lengths T s a x T' :
  set2 T s a x = Done T' -> map length T' = map length T.
Proof.
  intros (row & Hs & Ha & ->)%set2_Done.
  rewrite list_fmap_insert, length_insert.
  apply list_insert_id. by rewrite list_lookup_fmap, Hs.
Qed.

Lemma shape_lookup T n m s :
  shape T n m -> (s < n)%nat -> exists row, T !! s = Some row /\ length row = m.
Proof.
  intros [Hlen Hrows] Hs. destruct (lookup_lt_is_Some_2 T s) as [row Hrow]; [lia |].
  exists row. split; [done |]. by eapply (Forall_lookup_1 _ _ _ _ Hrows).
Qed.

Lemma shape_row_lengths T T' n m :
  map length T' = map length T -> shape T n m -> shape T' n m.
Proof.
  intros Heq [Hlen Hrows]. split.
  - rewrite <- Hlen, <- (length_map length T'), Heq. apply length_map.
  - apply Forall_lookup_2. intros i row' Hi.
    assert (Hl : map length T !! i = Some (length row')).
    { rewrite <- Heq, list_lookup_fmap, Hi. done. }
    rewrite list_lookup_fmap in Hl.
    destruct (T !! i) as [row|] eqn:Hrow; simpl in Hl; [|discriminate].
    injection Hl as Hl. rewrite <- Hl.
    by eapply (Forall_lookup_1 _ _ _ _ Hrows).
Qed.

Lemma shape_np_full n m x : shape (np_full n m x) n m.
Proof.
  split; [apply length_replicate |].
  apply Forall_replicate. apply length_replicate.
Qed.

(** The running maximum is an entry and bounds every entry. *)
Lemma Qmax_list_spec x l :
  Qmax_list x l ∈ x :: l /\ forall y, y ∈ x :: l -> y <= Qmax_list x l.
Proof.
  unfold Qmax_list. revert x. induction l as [|z l IH]; intros x; simpl.
  - split; [apply elem_of_cons; by left |].
    intros y ->%list_elem_of_singleton. apply Qle_refl.
  - destruct (Qlt_le_dec x z) as [Hlt|Hle].
    + destruct (IH z) as [Hin Hub]. split; [apply elem_of_cons; by right |].
      intros y [->|Hy]%elem_of_cons.
      * apply Qle_trans with z; [by apply Qlt_le_weak |].
        apply Hub, elem_of_cons. by left.
      * by apply Hub.
    + destruct (IH x) as [Hin Hub]. split.
      * apply elem_of_cons in Hin as [Hin|Hin]; apply elem_of_cons; [by left |].
        right. apply elem_of_cons. by right.
      * intros y [->|[->|Hy]%elem_of_cons]%elem_of_cons.
        -- apply Hub, elem_of_cons. by left.
        -- apply Qle_trans with x; [done |]. apply Hub, elem_of_cons. by left.
        -- apply Hub, elem_of_cons. by right.
Qed.

Lemma np_max_Done row m :
  np_max row = Done m -> m ∈ row /\ forall y, y ∈ row -> y <= m.
Proof.
  destruct row as [|x l]; simpl; [discriminate |].
  intros [= <-]. apply Qmax_list_spec.
Qed.

Lemma np_max_nonempty row :
  (0 < length row)%nat -> exists m, np_max row = Done m.
Proof. destruct row; simpl; [lia | eauto]. Qed.

(** [argmax_from] returns a position of the scanned row (or the best so
    far) whose entry bounds all the others, and strictly bounds the
    entries before it: the first largest. *)
Lemma argmax_from_spec l : forall bi b i row,
  (bi < i)%nat -> row !! bi = Some b -> length row = i ->
  (forall j w, (j < i)%nat -> row !! j = Some w -> w <= b) ->
  (forall j w, (j < bi)%nat -> row !! j = Some w -> w < b) ->
  let a := argmax_from bi b i l in
  (a < i + length l)%nat /\
  exists v, (row ++ l) !! a = Some v /\
    (forall j w, (row ++ l) !! j = Some w -> w <= v) /\
    (forall j w, (j < a)%nat -> (row ++ l) !! j = Some w -> w < v).
Proof.
  induction l as [|y l IH]; intros bi b i row Hbi Hb Hlen Hub Hfirst; simpl.
  - rewrite app_nil_r. split; [lia |]. exists b. split; [done |]. split; [|done].
    intros j w Hj. apply (Hub j); [|done]. apply lookup_lt_Some in Hj. lia.
  - destruct (Qlt_le_dec b y) as [Hlt|Hle].
    + specialize (IH i y (S i) (row ++ [y])).
      rewrite <- app_assoc in IH. simpl in IH.
      replace (i + S (length l))%nat with (S i + length l)%nat by lia.
      apply IH.
      * lia.
      * rewrite lookup_app_r by lia. by rewrite Hlen, Nat.sub_diag.
      * rewrite length_app. simpl. lia.
      * intros j w Hj Hw. destruct (decide (j < i)%nat) as [Hji|Hji].
        -- rewrite lookup_app_l in Hw by lia.
           apply Qle_trans with b; [by eapply Hub | by apply Qlt_le_weak].
        -- rewrite lookup_app_r in Hw by lia.
           replace (j - length row)%nat with 0%nat in Hw by lia.
           simpl in Hw. injection Hw as <-. apply Qle_refl.
      * intros j w Hj Hw. rewrite lookup_app_l in Hw by lia.
        apply Qle_lt_trans with b; [by eapply Hub | done].
    + specialize (IH bi b (S i) (row ++ [y])).
      rewrite <- app_assoc in IH. simpl in IH.
      replace (i + S (length l))%nat with (S i + length l)%nat by lia.
      apply IH.
      * lia.
      * rewrite lookup_app_l by lia. done.
      * rewrite length_app. simpl. lia.
      * intros j w Hj Hw. destruct (decide (j < i)%nat) as [Hji|Hji].
        -- rewrite lookup_app_l in Hw by lia. by eapply Hub.
        -- rewrite lookup_app_r in Hw by lia.
           replace (j - length row)%nat with 0%nat in Hw by lia.
           simpl in Hw. by injection Hw as <-.
      * intros j w Hj Hw. rewrite lookup_app_l in Hw by lia. by eapply Hfirst.
Qed.

Lemma np_argmax_Done row a :
  np_argmax row = Done a ->
  (a < length row)%nat /\
  exists v, row !! a = Some v /\
    (forall j w, row !! j = Some w -> w <= v) /\
    (forall j w, (j < a)%nat -> row !! j = Some w -> w < v).
Proof.
  destruct row as [|x l]; simpl; [discriminate |]. intros [= <-].
  pose proof (argmax_from_spec l 0 x 1 [x]) as Hspec. simpl in Hspec.
  apply Hspec; [lia | done | done | | intros j w Hj; lia].
  intros [|j] w Hj Hw; [|lia]. simpl in Hw. injection Hw as <-. apply Qle_refl.
Qed.

Lemma np_argmax_nonempty row :
  (0 < length row)%nat -> exists a, np_argmax row = Done a.
Proof. destruct row; simpl; [lia | eauto]. Qed.


(** The positions returned by [np.where(row == m)]. *)
Lemma where_eq_from_spec row m : forall i j,
  j ∈ where_eq_from i row m <->
  exists k v, j = (i + k)%nat /\ row !! k = Some v /\ v == m.
Proof.
  induction row as [|x l IH]; intros i j; simpl.
  - split; [by intros ?%not_elem_of_nil | by intros (k & v & _ & ? & _)].
  - assert (Htail : j ∈ where_eq_from (S i) l m <->
                    exists k v, j = (i + S k)%nat /\ l !! k = Some v /\ v == m).
    { rewrite IH. split; intros (k & v & -> & Hk & Hv); exists k, v;
        (split; [lia | done]). }
    destruct (Qeq_bool x m) eqn:Hx.
    + rewrite elem_of_cons, Htail. apply Qeq_bool_iff in Hx. split.
      * intros [->|(k & v & -> & Hk & Hv)].
        -- exists 0%nat, x. split; [lia | done].
        -- exists (S k), v. done.
      * intros ([|k] & v & -> & Hk & Hv); simpl in Hk.
        -- left. lia.
        -- right. eauto.
    + rewrite Htail. split.
      * intros (k & v & -> & Hk & Hv). exists (S k), v. done.
      * intros ([|k] & v & -> & Hk & Hv); simpl in Hk.
        -- injection Hk as <-. apply Qeq_bool_iff in Hv. congruence.
        -- eauto.
Qed.

Lemma where_eq_from_NoDup row m : forall i, NoDup (where_eq_from i row m).
Proof.
  induction row as [|x l IH]; intros i; simpl; [constructor |].
  destruct (Qeq_bool x m); [|apply IH].
  constructor; [|apply IH].
  intros (k & v & Hk & _)%where_eq_from_spec. lia.
Qed.

Lemma np_where_eq_spec row m j :
  j ∈ np_where_eq row m <-> exists v, row !! j = Some v /\ v == m.
Proof.
  unfold np_where_eq. rewrite where_eq_from_spec. split.
  - intros (k & v & -> & Hk & Hv). eauto.
  - intros (v & Hj & Hv). exists j, v. done.
Qed.

(** A draw position below the length selects exactly one entry, and an
    entry of a duplicate-free list is selected by exactly one position. *)
Lemma NoDup_position {A} (l : list A) x :
  NoDup l -> x ∈ l -> exists k, l !! k = Some x /\ forall k', l !! k' = Some x -> k' = k.
Proof.
  intros Hnd [k Hk]%list_elem_of_lookup_1. exists k. split; [done |].
  intros k' Hk'. by eapply NoDup_lookup.
Qed.

(** A property kept by every pass of a loop holds when the loop ends. *)
Lemma for_each_invariant {S} (P : S -> Prop) (body : S -> nat -> outcome S) idxs :
  (forall st i st', P st -> body st i = Done st' -> P st') ->
  forall st st', P st -> for_each body idxs st = Done st' -> P st'.
Proof.
  intros Hbody. induction idxs as [|i idxs IH]; intros st st' HP Hrun; simpl in Hrun.
  - by injection Hrun as <-.
  - inv_bind Hrun. eapply IH; [|exact Hrun]. by eapply Hbody.
Qed.

Lemma inject_nat_nonzero n : ~ inject_Z (Z.of_nat n) == 0 <-> (0 < n)%nat.
Proof. unfold Qeq. simpl. lia. Qed.

Lemma Qsum_replicate n x : Qsum (replicate n x) == inject_Z (Z.of_nat n) * x.
Proof.
  induction n as [|n IH].
  - simpl. ring.
  - rewrite Nat2Z.inj_succ. unfold Z.succ. rewrite inject_Z_plus.
    change (Qsum (replicate (S n) x)) with (x + Qsum (replicate n x)).
    rewrite IH. ring.
Qed.

Lemma Qsum_insert l : forall i v w,
  l !! i = Some v -> Qsum (<[i := w]> l) == Qsum l - v + w.
Proof.
  induction l as [|y l IH]; intros [|i] v w Hi; simpl in Hi; try discriminate.
  - injection Hi as ->. change (w + Qsum l == v + Qsum l - v + w). ring.
  - change (y + Qsum (<[i := w]> l) == y + Qsum l - v + w).
    rewrite (IH i v w Hi). ring.
Qed.

(** *** Computations that come to an end *)

(** [halts m]: [m] completes or raises; it is not a loop cut short. *)
Definition halts {A} (m : outcome A) : Prop := m <> OutOfFuel.

Lemma halts_bind {A B} (m : outcome A) (f : A -> outcome B) :
  halts m -> (forall a, halts (f a)) -> halts (m ≫= f).
Proof. destruct m; simpl; intros Hm Hf; [apply Hf | done | done]. Qed.

Lemma halts_index {A} (l : list A) i : halts (index l i).
Proof. unfold index. by destruct (l !! i). Qed.

Lemma halts_assign {A} (l : list A) i x : halts (assign l i x).
Proof. unfold assign. by destruct (decide _). Qed.

Lemma halts_get2 T s a : halts (get2 T s a).
Proof. apply halts_bind; [apply halts_index | intros; apply halts_index]. Qed.

Lemma halts_set2 T s a x : halts (set2 T s a x).
Proof.
  apply halts_bind; [apply halts_index | intros row].
  apply halts_bind; intros; apply halts_assign.
Qed.

Lemma halts_np_max row : halts (np_max row).
Proof. by destruct row. Qed.

Lemma halts_np_argmax row : halts (np_argmax row).
Proof. by destruct row. Qed.

Lemma halts_np_add_broadcast x y : halts (np_add_broadcast x y).
Proof.
  unfold np_add_broadcast, np_broadcast. destruct (decide _); [done |].
  destruct x as [|a [|? ?]]; destruct y as [|b [|? ?]]; done.
Qed.

(** ** Reward to go (policy-gradient notebook) *)

Module RewardToGo.

(** One pass of the loop body
    [rtgs[i] = episode_rs[i] + (rtgs[i+1] if i+1 < n else 0)]. *)
Definition rtg_body (episode_rs : list Q) (n : nat) (rtgs : list Q) (i : nat)
  : outcome (list Q) :=
  r ← index episode_rs i;
  nxt ← (if decide (i + 1 < n)%nat then index rtgs (i + 1) else Done 0);
  assign rtgs i (r + nxt).

Definition rtg (episode_rs : list Q) : outcome (list Q) :=
  let n := length episode_rs in
  let rtgs := replicate n 0 in
  for_each (rtg_body episode_rs n) (reverse (seq 0 n)) rtgs.

(** *** Correctness of [rtg] *)

Lemma Qsum_drop (rs : list Q) i r :
  rs !! i = Some r -> Qsum (drop i rs) = r + Qsum (drop (S i) rs).
Proof. intros H. by rewrite (drop_S _ _ _ H). Qed.

(** The entries at positions [>= k] already hold their suffix sums. *)
Definition filled_from (rs rtgs : list Q) (k : nat) : Prop :=
  length rtgs = length rs /\
  forall j, (k <= j < length rs)%nat -> rtgs !! j = Some (Qsum (drop j rs)).

Lemma rtg_body_filled rs rtgs k :
  (k < length rs)%nat -> filled_from rs rtgs (S k) ->
  exists rtgs', rtg_body rs (length rs) rtgs k = Done rtgs' /\ filled_from rs rtgs' k.
Proof.
  intros Hk [Hlen Hfill]. unfold rtg_body.
  destruct (index_lt rs k Hk) as (r & -> & Hr). simpl.
  assert (Hnxt : (if decide (k + 1 < length rs)%nat then index rtgs (k + 1) else Done 0)
                 = Done (Qsum (drop (S k) rs))).
  { destruct (decide (k + 1 < length rs)%nat) as [Hlt|Hge].
    - apply index_Done. rewrite Nat.add_1_r. apply Hfill. lia.
    - rewrite drop_ge by lia. done. }
  rewrite Hnxt. simpl.
  exists (<[k := r + Qsum (drop (S k) rs)]> rtgs). split.
  - apply assign_Done. split; [lia | done].
  - split; [by rewrite length_insert |].
    intros j Hj. destruct (decide (j = k)) as [->|Hne].
    + rewrite list_lookup_insert_eq by lia. by rewrite (Qsum_drop _ _ _ Hr).
    + rewrite list_lookup_insert_ne by done. apply Hfill. lia.
Qed.

Lemma rtg_loop_filled rs k rtgs :
  (k <= length rs)%nat -> filled_from rs rtgs k ->
  exists rtgs', for_each (rtg_body rs (length rs)) (reverse (seq 0 k)) rtgs = Done rtgs'
                /\ filled_from rs rtgs' 0.
Proof.
  revert rtgs. induction k as [|k IH]; intros rtgs Hk Hfill.
  - exists rtgs. done.
  - rewrite seq_S, reverse_app. simpl.
    destruct (rtg_body_filled rs rtgs k) as (rtgs1 & -> & Hfill1); [lia | done |].
    simpl. apply IH; [lia | done].
Qed.

Lemma rtg_filled rs :
  exists G, rtg rs = Done G /\ filled_from rs G 0.
Proof.
  unfold rtg. apply rtg_loop_filled; [done |].
  split; [by rewrite length_replicate |]. intros j Hj. lia.
Qed.

(** C1. For every list of rewards [rs], [rtg rs] returns a list [G] of the
    same length that obeys the backward recurrence with terminal value
    zero and discount one, [G[t] = rs[t] + 1 * G[t+1]] with [G[n] = 0];
    hence [G[i]] is the sum of [rs[i], ..., rs[n-1]] for every position. *)
Theorem rtg_backward_recurrence (rs : list Q) :
  exists G : list Q,
    rtg rs = Done G /\
    length G = length rs /\
    (forall t r, rs !! t = Some r ->
       exists g, G !! t = Some g /\ g == r + 1 * default 0 (G !! S t)) /\
    (forall i, (i < length rs)%nat -> G !! i = Some (Qsum (drop i rs))).
Proof.
  destruct (rtg_filled rs) as (G & HG & Hlen & Hfill).
  exists G. repeat split; try done.
  - intros t r Ht. pose proof (lookup_lt_Some _ _ _ Ht) as Hlt.
    exists (Qsum (drop t rs)). split; [apply Hfill; lia |].
    rewrite (Qsum_drop _ _ _ Ht), Qmult_1_l.
    destruct (decide (S t < length rs)%nat) as [Hs|Hs].
    + rewrite Hfill by lia. reflexivity.
    + rewrite (lookup_ge_None_2 G) by lia. rewrite drop_ge by lia. reflexivity.
  - intros i Hi. apply Hfill. lia.
Qed.

Example rtg_three : rtg [1; 2; 3] = Done [1 + (2 + (3 + 0)); 2 + (3 + 0); 3 + 0].
Proof. reflexivity. Qed.

End RewardToGo.

(** ** Monte Carlo notebook *)

Module MonteCarlo.

Section WithWorld.
Context {E Gen : Type} `{Environment E} `{NumpyRandom Gen}.

(** *** Value estimation: [episode] and the loop that records it *)

(** The [while True] loop of [episode]: a uniformly drawn action, one
    step, the new state appended and the reward added, until [d]. *)
Fixpoint episode_loop (fuel : nat) (e : E) (g : Gen)
    (state_trace : list state) (R : Q)
  : outcome (list state * Q * E * Gen) :=
  match fuel with
  | O => OutOfFuel
  | S fuel' =>
      '(a, g1) ← np_random_choice nA g;
      let '(s, r, d, e1) := env_step e a in
      let state_trace := state_trace ++ [s] in
      let R := R + r in
      if d then Done (state_trace, R, e1, g1)
      else episode_loop fuel' e1 g1 state_trace R
  end.

Definition episode (fuel : nat) (e : E) (g : Gen)
  : outcome (list state * Q * E * Gen) :=
  let R := 0 in
  let '(s, e0) := env_reset e in
  episode_loop fuel e0 g [s] R.

(** [for i in range(neps)]: one episode, then
    [rewards[state_trace, i] = R] and [visits[state_trace, i] = 1]. *)
Fixpoint mc_loop (fuel : nat) (episodes : list nat) (rewards visits : table)
    (e : E) (g : Gen) : outcome (table * table * E * Gen) :=
  match episodes with
  | [] => Done (rewards, visits, e, g)
  | i :: rest =>
      '(state_trace, R, e1, g1) ← episode fuel e g;
      rewards1 ← assign_rows rewards state_trace i R;
      visits1 ← assign_rows visits state_trace i 1;
      mc_loop fuel rest rewards1 visits1 e1 g1
  end.

Definition mc_estimate (fuel neps : nat) (e : E) (g : Gen)
  : outcome (table * table * E * Gen) :=
  let rewards := np_zeros nS neps in
  let visits := np_zeros nS neps in
  mc_loop fuel (seq 0 neps) rewards visits e g.

(** *** Sampling an episode under a policy: [run_game] *)

(** One pass of the loop body of [run_game]: the action drawn with the
    weights [policy[s, :]], one step, and the transition to record. *)
Definition game_step (policy : table) (e : E) (g : Gen) (s : state)
  : outcome (transition * state * bool * E * Gen) :=
  p ← index policy s;
  '(a, g1) ← np_random_choice_p nA p g;
  let '(ss, r, d, e1) := env_step e a in
  Done ((s, a, r), ss, d, e1, g1).

Fixpoint run_game_loop (fuel : nat) (policy : table) (e : E) (g : Gen)
    (s : state) (trace : list transition)
  : outcome (list transition * E * Gen) :=
  match fuel with
  | O => OutOfFuel
  | S fuel' =>
      '(tr, ss, d, e1, g1) ← game_step policy e g s;
      let trace := trace ++ [tr] in
      if (d : bool) then Done (trace, e1, g1)
      else run_game_loop fuel' policy e1 g1 ss trace
  end.

Definition run_game (fuel : nat) (policy : table) (e : E) (g : Gen)
  : outcome (list transition * E * Gen) :=
  let '(s, e0) := env_reset e in
  run_game_loop fuel policy e0 g s [].

(** *** Fitting an epsilon-soft policy: [monte_carlo_e_soft] *)

Record tables := {
  policy : table;
  Qtab : table;
  rewards : table;
  visits : table
}.

(** The greedy action of the policy update,
    [np.random.choice(np.where(Q[s, :] == max(Q[s, :]))[0])]. *)
Definition esoft_max_idx (Qt : table) (s : state) (g : Gen) : outcome (nat * Gen) :=
  row ← index Qt s;
  m ← np_max row;
  np_random_choice_from (np_where_eq row m) g.

(** The body of the first-visit test: the running averages, the
    tie-broken greedy action and the new row of the policy. *)
Definition esoft_improve (eps : Q) (t : tables) (s a : nat) (G : Q) (g : Gen)
  : outcome (tables * Gen) :=
  rw ← get2 (rewards t) s a;
  rewards1 ← set2 (rewards t) s a (rw + G);
  vs ← get2 (visits t) s a;
  visits1 ← set2 (visits t) s a (vs + 1);
  rw1 ← get2 rewards1 s a;
  vs1 ← get2 visits1 s a;
  Q1 ← set2 (Qtab t) s a (rw1 / vs1);
  '(max_idx, g1) ← esoft_max_idx Q1 s g;
  x ← py_div eps (inject_Z (Z.of_nat nA));
  policy1 ← fill_row (policy t) s x;
  p ← get2 policy1 s max_idx;
  policy2 ← set2 policy1 s max_idx (p + (1 - eps));
  Done ({| policy := policy2; Qtab := Q1; rewards := rewards1; visits := visits1 |}, g1).

(** [(s, a) in [(x[0], x[1]) for x in episode[:i]]]. *)
Definition seen_before (episode : list transition) (i : nat) (s : state) (a : action)
  : bool :=
  bool_decide ((s, a) ∈ map (fun x : transition => (x.1.1, x.1.2)) (take i episode)).

(** One pass of [for i in reversed(range(len(episode)))]. *)
Definition esoft_visit (eps : Q) (episode : list transition)
    (acc : tables * Q * Gen) (i : nat) : outcome (tables * Q * Gen) :=
  let '(t, G, g) := acc in
  '(s, a, r) ← index episode i;
  let G := G + r in
  if seen_before episode i s a then Done (t, G, g)
  else '(t1, g1) ← esoft_improve eps t s a G g; Done (t1, G, g1).

(** One pass of [for _ in range(neps)]. *)
Definition esoft_episode (fuel : nat) (eps : Q) (t : tables) (e : E) (g : Gen)
  : outcome (tables * E * Gen) :=
  let G := 0 in
  '(episode, e1, g1) ← run_game fuel (policy t) e g;
  '(t1, _, g2) ← for_each (esoft_visit eps episode)
                   (reverse (seq 0 (length episode))) (t, G, g1);
  Done (t1, e1, g2).

Fixpoint esoft_loop (fuel : nat) (neps : nat) (eps : Q) (t : tables) (e : E) (g : Gen)
  : outcome (tables * E * Gen) :=
  match neps with
  | O => Done (t, e, g)
  | S n =>
      '(t1, e1, g1) ← esoft_episode fuel eps t e g;
      esoft_loop fuel n eps t1 e1 g1
  end.

Definition esoft_init : outcome tables :=
  x ← py_div 1 (inject_Z (Z.of_nat nA));
  Done {| policy := np_full nS nA x;
          Qtab := np_zeros nS nA;
          rewards := np_zeros nS nA;
          visits := np_zeros nS nA |}.

Definition monte_carlo_e_soft (fuel neps : nat) (eps : Q) (e : E) (g : Gen)
  : outcome (table * E * Gen) :=
  t0 ← esoft_init;
  '(t, e1, g1) ← esoft_loop fuel neps eps t0 e g;
  Done (policy t, e1, g1).

End WithWorld.

(** *** What the value-estimation loop records *)

Section EstimationFacts.
Context {E Gen : Type} `{Environment E} `{NumpyRandom Gen}.

(** The steps of one episode under uniformly drawn actions, up to and
    including the first step that signals [done]: the states entered and
    the rewards received. *)
Inductive rollout : E -> Gen -> list (state * Q) -> E -> Gen -> Prop :=
| rollout_done e g a g1 s r e1 :
    np_random_choice nA g = Done (a, g1) ->
    env_step e a = (s, r, true, e1) ->
    rollout e g [(s, r)] e1 g1
| rollout_more e g a g1 s r e1 steps e2 g2 :
    np_random_choice nA g = Done (a, g1) ->
    env_step e a = (s, r, false, e1) ->
    rollout e1 g1 steps e2 g2 ->
    rollout e g ((s, r) :: steps) e2 g2.

(** [R] after the rewards [rs] have been added to it one by one. *)
Definition accumulate (R : Q) (rs : list Q) : Q := foldl Qplus R rs.

Lemma accumulate_Qsum rs : forall R, accumulate R rs == R + Qsum rs.
Proof.
  induction rs as [|r rs IH]; intros R; simpl.
  - ring.
  - rewrite IH. unfold Qsum. simpl. ring.
Qed.

Lemma episode_loop_Done fuel : forall e g tr R tr' R' e' g',
  episode_loop fuel e g tr R = Done (tr', R', e', g') ->
  exists steps,
    rollout e g steps e' g' /\
    tr' = tr ++ map fst steps /\
    R' = accumulate R (map snd steps).
Proof.
  induction fuel as [|fuel IH]; intros e g tr R tr' R' e' g' Hrun; simpl in Hrun.
  - discriminate.
  - inv_bind Hrun. destruct v as [a g1].
    destruct (env_step e a) as [[[s r] d] e1] eqn:Hstep. destruct d.
    + injection Hrun as <- <- <- <-. exists [(s, r)].
      split; [by eapply rollout_done | done].
    + apply IH in Hrun as (steps & Hroll & -> & ->).
      exists ((s, r) :: steps). split; [by eapply rollout_more |].
      simpl. by rewrite <- app_assoc.
Qed.

Lemma episode_Done fuel e g tr R e' g' :
  episode fuel e g = Done (tr, R, e', g') ->
  exists s0 e0 steps,
    env_reset e = (s0, e0) /\
    rollout e0 g steps e' g' /\
    tr = s0 :: map fst steps /\
    R = accumulate 0 (map snd steps).
Proof.
  unfold episode. destruct (env_reset e) as [s0 e0]. intros Hrun.
  apply episode_loop_Done in Hrun as (steps & Hroll & -> & ->). eauto 10.
Qed.

(** [T[rows, col] = x]: the listed rows hold [x] in column [col], and
    the other columns are as before. *)
Lemma assign_rows_keeps rows col x : forall T T' s,
  assign_rows T rows col x = Done T' ->
  get2 T s col = Done x -> get2 T' s col = Done x.
Proof.
  unfold assign_rows.
  induction rows as [|s0 rows IH]; intros T T' s Hrun Hget; simpl in Hrun.
  - by injection Hrun as <-.
  - inv_bind Hrun. eapply IH; [exact Hrun |].
    destruct (decide (s = s0)) as [->|Hne].
    + by eapply get2_set2_eq.
    + erewrite get2_set2_ne; [done | exact E0 | congruence].
Qed.

Lemma assign_rows_written rows col x : forall T T' s,
  assign_rows T rows col x = Done T' -> s ∈ rows -> get2 T' s col = Done x.
Proof.
  induction rows as [|s0 rows IH]; intros T T' s Hrun Hs.
  - by apply not_elem_of_nil in Hs.
  - unfold assign_rows in Hrun. simpl in Hrun. inv_bind Hrun.
    apply elem_of_cons in Hs as [->|Hs].
    + eapply assign_rows_keeps; [exact Hrun |]. by eapply get2_set2_eq.
    + eapply IH; [exact Hrun | done].
Qed.

Lemma assign_rows_other_column rows col x : forall T T' s c,
  assign_rows T rows col x = Done T' -> c <> col -> get2 T' s c = get2 T s c.
Proof.
  unfold assign_rows.
  induction rows as [|s0 rows IH]; intros T T' s c Hrun Hc; simpl in Hrun.
  - by injection Hrun as <-.
  - inv_bind Hrun. erewrite IH; [|exact Hrun | done].
    erewrite get2_set2_ne; [done | exact E0 | congruence].
Qed.

Lemma mc_loop_app fuel l1 : forall l2 rw vs e g,
  mc_loop fuel (l1 ++ l2) rw vs e g =
  mc_loop fuel l1 rw vs e g ≫= fun '(rw1, vs1, e1, g1) => mc_loop fuel l2 rw1 vs1 e1 g1.
Proof.
  induction l1 as [|i l1 IH]; intros l2 rw vs e g; simpl; [done |].
  destruct (episode fuel e g) as [[[[tr R] e1] g1]| |]; simpl; try done.
  destruct (assign_rows rw tr i R) as [rw1| |]; simpl; try done.
  destruct (assign_rows vs tr i 1) as [vs1| |]; simpl; try done.
Qed.

(** Episodes other than [i] leave column [i] alone. *)
Lemma mc_loop_other_column fuel i l : forall rw vs e g rw' vs' e' g',
  mc_loop fuel l rw vs e g = Done (rw', vs', e', g') -> i ∉ l ->
  forall s, get2 rw' s i = get2 rw s i /\ get2 vs' s i = get2 vs s i.
Proof.
  induction l as [|j l IH]; intros rw vs e g rw' vs' e' g' Hrun Hi s; simpl in Hrun.
  - by injection Hrun as <- <- <- <-.
  - apply not_elem_of_cons in Hi as [Hij Hi].
    inv_bind Hrun. destruct v as [[[tr R] e1] g1].
    inv_bind Hrun. inv_bind Hrun.
    destruct (IH _ _ _ _ _ _ _ _ Hrun Hi s) as [-> ->].
    split; eapply assign_rows_other_column; eauto.
Qed.

(** C2. When the value-estimation loop over [neps] episodes returns the
    tables [rewards] and [visits], then for every episode [i < neps],
    run from the environment and generator that the first [i] episodes
    left behind and returning the visited states [state_trace] and the
    total [R]: [R] is the rewards of all the steps of that episode added
    up, and for every state [s] of [state_trace] the entry
    [rewards[s, i]] is that total [R] (and [visits[s, i]] is 1),
    whatever the position of [s] in the episode. *)
Theorem mc_records_total_reward (fuel neps : nat) (e : E) (g : Gen)
    (rewards visits : table) (e' : E) (g' : Gen) :
  mc_estimate fuel neps e g = Done (rewards, visits, e', g') ->
  forall i, (i < neps)%nat ->
  exists rw vs ei gi state_trace R e1 g1 s0 e0 steps,
    mc_loop fuel (seq 0 i) (np_zeros nS neps) (np_zeros nS neps) e g
      = Done (rw, vs, ei, gi) /\
    episode fuel ei gi = Done (state_trace, R, e1, g1) /\
    env_reset ei = (s0, e0) /\
    rollout e0 gi steps e1 g1 /\
    state_trace = s0 :: map fst steps /\
    R = accumulate 0 (map snd steps) /\
    R == Qsum (map snd steps) /\
    forall s, s ∈ state_trace ->
      get2 rewards s i = Done R /\ get2 visits s i = Done 1.
Proof.
  unfold mc_estimate. intros Hrun i Hi.
  replace (seq 0 neps) with (seq 0 i ++ i :: seq (S i) (neps - S i)) in Hrun.
  2:{ change (i :: seq (S i) (neps - S i)) with (seq (0 + i) (S (neps - S i))).
      rewrite <- seq_app. f_equal. lia. }
  rewrite mc_loop_app in Hrun. inv_bind Hrun. destruct v as [[[rw vs] ei] gi].
  simpl in Hrun. inv_bind Hrun. destruct v as [[[tr R] e1] g1].
  inv_bind Hrun. inv_bind Hrun.
  destruct (episode_Done _ _ _ _ _ _ _ E1) as (s0 & e0 & steps & Hreset & Hroll & Htr & HR).
  exists rw, vs, ei, gi, tr, R, e1, g1, s0, e0, steps.
  repeat (split; [done |]).
  split.
  { rewrite HR, accumulate_Qsum. ring. }
  intros s Hs.
  assert (Hnot : i ∉ seq (S i) (neps - S i)).
  { intros Hin%elem_of_seq. lia. }
  destruct (mc_loop_other_column _ _ _ _ _ _ _ _ _ _ _ Hrun Hnot s) as [-> ->].
  split; eapply assign_rows_written; eauto.
Qed.

End EstimationFacts.

(** *** The rows of the epsilon-soft policy *)

Section PolicyFacts.
Context {E Gen : Type} `{Environment E} `{NumpyRandom Gen}.

(** A policy table with one row per state and one weight per action,
    every row summing to one. *)
Definition normalized (pol : table) : Prop :=
  shape pol nS nA /\ Forall (fun row => Qsum row == 1) pol.

(** The row written by a policy update: [eps / nA] everywhere and
    [1 - eps] more on [max_idx]. *)
Definition soft_row (eps : Q) (max_idx : nat) : list Q :=
  <[max_idx := eps / inject_Z (Z.of_nat nA) + (1 - eps)]>
    (replicate nA (eps / inject_Z (Z.of_nat nA))).

Lemma soft_row_sum eps max_idx :
  (0 < nA)%nat -> (max_idx < nA)%nat -> Qsum (soft_row eps max_idx) == 1.
Proof.
  intros HA Hidx. unfold soft_row.
  rewrite (Qsum_insert _ max_idx (eps / inject_Z (Z.of_nat nA))).
  2:{ apply lookup_replicate_2. done. }
  rewrite Qsum_replicate. field. by apply inject_nat_nonzero.
Qed.

Lemma py_div_Done x y q : py_div x y = Done q -> ~ y == 0 /\ q = x / y.
Proof.
  unfold py_div. destruct (Qeq_bool y 0) eqn:Hy; [discriminate |].
  intros [= <-]. split; [|done]. by apply Qeq_bool_neq.
Qed.

Lemma nA_positive q x : py_div x (inject_Z (Z.of_nat nA)) = Done q -> (0 < nA)%nat.
Proof.
  intros [Hne _]%py_div_Done. by apply inject_nat_nonzero.
Qed.

Lemma esoft_init_normalized t : esoft_init = Done t -> normalized (policy t).
Proof.
  unfold esoft_init. intros Hinit. inv_bind Hinit. injection Hinit as <-. simpl.
  pose proof (nA_positive _ _ E0) as HA. apply py_div_Done in E0 as [Hne ->].
  split; [apply shape_np_full |].
  apply Forall_replicate. rewrite Qsum_replicate. by field.
Qed.

Lemma esoft_max_idx_lt Qt s g a g1 :
  shape Qt nS nA -> MonteCarlo.esoft_max_idx Qt s g = Done (a, g1) -> (a < nA)%nat.
Proof.
  intros [_ Hrows] Hsel. unfold esoft_max_idx in Hsel.
  inv_bind Hsel. inv_bind Hsel. apply index_Done in E0.
  unfold np_random_choice_from in Hsel. inv_bind Hsel. destruct v1 as [k g'].
  inv_bind Hsel. injection Hsel as -> ->. apply index_Done in E3.
  apply list_elem_of_lookup_2, np_where_eq_spec in E3 as (w & Hw & _).
  apply lookup_lt_Some in Hw.
  rewrite (Forall_lookup_1 _ _ _ _ Hrows E0) in Hw. done.
Qed.

(** What one policy update writes: row [s] becomes the soft row of the
    drawn greedy action, the other rows stay. *)
Lemma esoft_improve_policy eps t s a G g t' g' :
  shape (policy t) nS nA -> shape (Qtab t) nS nA ->
  esoft_improve eps t s a G g = Done (t', g') ->
  exists max_idx,
    esoft_max_idx (Qtab t') s g = Done (max_idx, g') /\
    (0 < nA)%nat /\ (max_idx < nA)%nat /\ (s < nS)%nat /\
    shape (Qtab t') nS nA /\
    policy t' = <[s := soft_row eps max_idx]> (policy t).
Proof.
  intros Hpol HQ Hrun. unfold esoft_improve in Hrun.
  do 7 inv_bind Hrun. inv_bind Hrun. destruct v6 as [max_idx g1].
  do 4 inv_bind Hrun. injection Hrun as <- <-. simpl.
  assert (HQ1 : shape v5 nS nA).
  { eapply shape_row_lengths; [by eapply set2_row_lengths | done]. }
  pose proof (esoft_max_idx_lt _ _ _ _ _ HQ1 E7) as Hidx.
  pose proof (nA_positive _ _ E8) as HA. apply py_div_Done in E8 as [_ ->].
  unfold fill_row in E9. inv_bind E9. apply index_Done in E8.
  apply assign_Done in E9 as [Hs ->].
  assert (Hlen : length v6 = nA).
  { destruct Hpol as [_ Hrows]. by eapply (Forall_lookup_1 _ _ _ _ Hrows). }
  rewrite Hlen in *.
  apply get2_Done in E10 as (row1 & Hrow1 & Hp).
  rewrite list_lookup_insert_eq in Hrow1 by done. injection Hrow1 as <-.
  apply lookup_replicate in Hp as [-> _].
  apply set2_Done in E11 as (row2 & Hrow2 & _ & ->).
  rewrite list_lookup_insert_eq in Hrow2 by done. injection Hrow2 as <-.
  rewrite list_insert_insert_eq.
  exists max_idx. destruct Hpol as [Hn _].
  split; [done |]. split; [done |]. split; [done |]. split; [lia |]. done.
Qed.

Lemma normalized_insert pol s row :
  normalized pol -> length row = nA -> Qsum row == 1 -> normalized (<[s := row]> pol).
Proof.
  intros [[Hlen Hrows] Hsum] Hrow Hone. split; [split |].
  - by rewrite length_insert.
  - by apply Forall_insert.
  - by apply Forall_insert.
Qed.

(** The tables of a training run: a normalized policy and a [Q] table of
    the same shape. *)
Definition sound (t : tables) : Prop :=
  normalized (policy t) /\ shape (Qtab t) nS nA.

Lemma esoft_improve_sound eps t s a G g t' g' :
  sound t -> esoft_improve eps t s a G g = Done (t', g') -> sound t'.
Proof.
  intros [Hnorm HQ] Hrun.
  destruct (esoft_improve_policy _ _ _ _ _ _ _ _ (proj1 Hnorm) HQ Hrun)
    as (max_idx & _ & HA & Hidx & _ & HQ' & Hpol').
  split; [|done]. rewrite Hpol'.
  apply normalized_insert; [done | |by apply soft_row_sum].
  unfold soft_row. by rewrite length_insert, length_replicate.
Qed.

Lemma esoft_visit_sound eps episode acc i acc' :
  sound acc.1.1 -> esoft_visit eps episode acc i = Done acc' -> sound acc'.1.1.
Proof.
  destruct acc as [[t G] g]. simpl. intros Hs Hrun. unfold esoft_visit in Hrun.
  inv_bind Hrun. destruct v as [[s a] r].
  destruct (seen_before episode i s a).
  - by injection Hrun as <-.
  - inv_bind Hrun. destruct v as [t1 g1]. injection Hrun as <-. simpl.
    by eapply esoft_improve_sound.
Qed.

Lemma esoft_episode_sound fuel eps t e g t' e' g' :
  sound t -> esoft_episode fuel eps t e g = Done (t', e', g') -> sound t'.
Proof.
  intros Hs Hrun. unfold esoft_episode in Hrun.
  inv_bind Hrun. destruct v as [[episode e1] g1].
  inv_bind Hrun. destruct v as [[t1 G1] g2]. injection Hrun as <- <- <-.
  apply (for_each_invariant (fun acc => sound acc.1.1)
           (esoft_visit eps episode) _ (esoft_visit_sound eps episode)
           (t, 0, g1) (t1, G1, g2) Hs E1).
Qed.

Lemma esoft_loop_sound fuel neps eps : forall t e g t' e' g',
  sound t -> esoft_loop fuel neps eps t e g = Done (t', e', g') -> sound t'.
Proof.
  induction neps as [|n IH]; intros t e g t' e' g' Hs Hrun; simpl in Hrun.
  - by injection Hrun as <- <- <-.
  - inv_bind Hrun. destruct v as [[t1 e1] g1].
    eapply IH; [|exact Hrun]. by eapply esoft_episode_sound.
Qed.

Lemma esoft_init_sound t : esoft_init = Done t -> sound t.
Proof.
  intros Hinit. split; [by apply esoft_init_normalized |].
  unfold esoft_init in Hinit. inv_bind Hinit. injection Hinit as <-. simpl.
  apply shape_np_full.
Qed.

(** C4. With at least one action, the initial policy of
    [monte_carlo_e_soft] exists and each of its rows sums to one; every
    policy update keeps all rows summing to one, the row it writes
    holding [eps / nA] for every action and [1 - eps] more on the
    tie-broken greedy action; hence the policy that the training
    returns has all rows summing to one. *)
Theorem esoft_rows_sum_to_one (eps : Q) :
  (0 < nA)%nat ->
  (exists t0, esoft_init = Done t0 /\ normalized (policy t0)) /\
  (forall t s a G g t' g',
     normalized (policy t) -> shape (Qtab t) nS nA ->
     esoft_improve eps t s a G g = Done (t', g') ->
     normalized (policy t') /\
     exists max_idx,
       esoft_max_idx (Qtab t') s g = Done (max_idx, g') /\
       policy t' !! s = Some (soft_row eps max_idx) /\
       forall s', s' <> s -> policy t' !! s' = policy t !! s') /\
  (forall fuel neps e g pol e' g',
     monte_carlo_e_soft fuel neps eps e g = Done (pol, e', g') ->
     normalized pol).
Proof.
  intros HA. split; [|split].
  - unfold esoft_init, py_div.
    destruct (Qeq_bool (inject_Z (Z.of_nat nA)) 0) eqn:Hz.
    { apply Qeq_bool_iff in Hz. by apply inject_nat_nonzero in HA. }
    simpl. eexists. split; [done |].
    apply (esoft_init_normalized _). unfold esoft_init, py_div. by rewrite Hz.
  - intros t s a G g t' g' Hnorm HQ Hrun. split.
    + by apply (esoft_improve_sound eps t s a G g t' g').
    + destruct (esoft_improve_policy _ _ _ _ _ _ _ _ (proj1 Hnorm) HQ Hrun)
        as (max_idx & Hsel & _ & Hidx & Hs & _ & ->).
      exists max_idx. split; [done |]. split.
      * apply list_lookup_insert_eq. destruct Hnorm as [[-> _] _]. done.
      * intros s' Hne. by apply list_lookup_insert_ne.
  - intros fuel neps e g pol e' g' Hrun. unfold monte_carlo_e_soft in Hrun.
    inv_bind Hrun. inv_bind Hrun. destruct v0 as [[t e1] g1].
    injection Hrun as <- <- <-.
    apply esoft_init_sound in E0.
    by apply (esoft_loop_sound _ _ _ _ _ _ _ _ _ E0 E1).
Qed.

End PolicyFacts.

(** *** When [run_game] stops *)

Section SamplerFacts.
Context {E Gen : Type} `{Environment E} `{NumpyRandom Gen}.

(** [plays policy e g s pre e1 g1 s1]: from state [s], environment [e]
    and generator [g], the loop body of [run_game] runs [length pre]
    times without [done] being signalled, recording the transitions
    [pre] and reaching [s1], [e1], [g1]. *)
Inductive plays (policy : table)
  : E -> Gen -> state -> list transition -> E -> Gen -> state -> Prop :=
| plays_nil e g s : plays policy e g s [] e g s
| plays_cons e g s tr ss e1 g1 pre e2 g2 s2 :
    game_step policy e g s = Done (tr, ss, false, e1, g1) ->
    plays policy e1 g1 ss pre e2 g2 s2 ->
    plays policy e g s (tr :: pre) e2 g2 s2.

(** The episode started by [env.reset()] reaches, after the steps [pre],
    a step that signals [done] and records [tr]. *)
Definition done_after (policy : table) (e : E) (g : Gen)
    (pre : list transition) (tr : transition) (e' : E) (g' : Gen) : Prop :=
  exists e1 g1 s1 ss,
    plays policy (env_reset e).2 g (env_reset e).1 pre e1 g1 s1 /\
    game_step policy e1 g1 s1 = Done (tr, ss, true, e', g').

Definition eventually_done (policy : table) (e : E) (g : Gen) : Prop :=
  exists pre tr e' g', done_after policy e g pre tr e' g'.

(** No step of the episode started by [env.reset()] ever signals
    [done]. *)
Definition never_done (policy : table) (e : E) (g : Gen) : Prop :=
  forall pre e1 g1 s1,
    plays policy (env_reset e).2 g (env_reset e).1 pre e1 g1 s1 ->
    exists tr ss e2 g2, game_step policy e1 g1 s1 = Done (tr, ss, false, e2, g2).

Lemma run_game_loop_Done policy fuel : forall e g s trace trace' e' g',
  run_game_loop fuel policy e g s trace = Done (trace', e', g') ->
  exists pre tr e1 g1 s1 ss,
    plays policy e g s pre e1 g1 s1 /\
    game_step policy e1 g1 s1 = Done (tr, ss, true, e', g') /\
    trace' = trace ++ pre ++ [tr] /\ (length pre < fuel)%nat.
Proof.
  induction fuel as [|fuel IH]; intros e g s trace trace' e' g' Hrun; simpl in Hrun.
  - discriminate.
  - inv_bind Hrun. destruct v as [[[[tr ss] d] e1] g1]. destruct d.
    + injection Hrun as <- <- <-. exists [], tr, e, g, s, ss.
      split; [constructor |]. split; [done |]. split; [done | simpl; lia].
    + apply IH in Hrun as (pre & tr' & e2 & g2 & s2 & ss' & Hplays & Hlast & -> & Hlen).
      exists (tr :: pre), tr', e2, g2, s2, ss'.
      split; [by eapply plays_cons |]. split; [done |].
      split; [by rewrite <- app_assoc | simpl; lia].
Qed.

Lemma run_game_loop_complete policy e g s pre e1 g1 s1 :
  plays policy e g s pre e1 g1 s1 ->
  forall tr ss e' g' fuel trace,
    game_step policy e1 g1 s1 = Done (tr, ss, true, e', g') ->
    (length pre < fuel)%nat ->
    run_game_loop fuel policy e g s trace = Done (trace ++ pre ++ [tr], e', g').
Proof.
  induction 1 as [e g s|e g s tr0 ss0 e1 g1 pre e2 g2 s2 Hstep Hplays IH];
    intros tr ss e' g' fuel trace Hlast Hfuel.
  - destruct fuel as [|fuel]; [lia |]. simpl. by rewrite Hlast.
  - destruct fuel as [|fuel]; [simpl in Hfuel; lia |]. simpl. rewrite Hstep. simpl.
    rewrite (IH tr ss e' g' fuel (trace ++ [tr0]) Hlast) by (simpl in Hfuel; lia).
    by rewrite <- app_assoc.
Qed.

Lemma run_game_loop_never policy fuel : forall e g s trace,
  (forall pre e1 g1 s1, plays policy e g s pre e1 g1 s1 ->
     exists tr ss e2 g2, game_step policy e1 g1 s1 = Done (tr, ss, false, e2, g2)) ->
  run_game_loop fuel policy e g s trace = OutOfFuel.
Proof.
  induction fuel as [|fuel IH]; intros e g s trace Hnever; simpl; [done |].
  destruct (Hnever [] e g s (plays_nil _ _ _ _)) as (tr & ss & e2 & g2 & Hstep).
  rewrite Hstep. simpl. apply IH.
  intros pre e1 g1 s1 Hplays. apply Hnever with (tr :: pre).
  by eapply plays_cons.
Qed.

Lemma run_game_Done policy fuel e g trace e' g' :
  run_game fuel policy e g = Done (trace, e', g') ->
  exists pre tr,
    done_after policy e g pre tr e' g' /\
    trace = pre ++ [tr] /\ (length pre < fuel)%nat.
Proof.
  unfold run_game, done_after. destruct (env_reset e) as [s0 e0]. simpl.
  intros (pre & tr & e1 & g1 & s1 & ss & Hplays & Hlast & -> & Hlen)%run_game_loop_Done.
  exists pre, tr. eauto 10.
Qed.

Lemma run_game_complete policy e g pre tr e' g' fuel :
  done_after policy e g pre tr e' g' -> (length pre < fuel)%nat ->
  run_game fuel policy e g = Done (pre ++ [tr], e', g').
Proof.
  unfold run_game, done_after. destruct (env_reset e) as [s0 e0]. simpl.
  intros (e1 & g1 & s1 & ss & Hplays & Hlast) Hfuel.
  by apply (run_game_loop_complete _ _ _ _ _ _ _ _ Hplays tr ss e' g' fuel []).
Qed.

Lemma run_game_never policy e g fuel :
  never_done policy e g -> run_game fuel policy e g = OutOfFuel.
Proof.
  unfold run_game, never_done. destruct (env_reset e) as [s0 e0]. simpl.
  apply run_game_loop_never.
Qed.

(** The same episode as the environment and the generator see it,
    without reference to the loop body. [advance policy s e g pre s1 e1 g1]:
    from state [s] the transitions [pre] are made one after the other,
    each [(s, a, r)] with [a] drawn by [np.random.choice] with the
    weights [policy[s, :]] and [env.step(a)] answering reward [r], the
    next state and [done = False]; they lead to [s1], [e1], [g1]. *)
Inductive advance (policy : table)
  : state -> E -> Gen -> list transition -> state -> E -> Gen -> Prop :=
| advance_nil s e g : advance policy s e g [] s e g
| advance_cons s e g p a g1 ss r e1 pre s2 e2 g2 :
    policy !! s = Some p ->
    np_random_choice_p nA p g = Done (a, g1) ->
    env_step e a = (ss, r, false, e1) ->
    advance policy ss e1 g1 pre s2 e2 g2 ->
    advance policy s e g ((s, a, r) :: pre) s2 e2 g2.

(** After [env.reset()] and the transitions [pre], none of which ended
    the episode, action [a] is drawn in state [s] and [env.step(a)]
    answers reward [r] and [done = True], leaving [e'] and [g']. *)
Definition ends_episode (policy : table) (e : E) (g : Gen)
    (pre : list transition) (s : state) (a : action) (r : Q) (e' : E) (g' : Gen)
  : Prop :=
  exists e1 g1 p ss,
    advance policy (env_reset e).1 (env_reset e).2 g pre s e1 g1 /\
    policy !! s = Some p /\
    np_random_choice_p nA p g1 = Done (a, g') /\
    env_step e1 a = (ss, r, true, e').

(** What one pass of the loop body records. *)
Lemma game_step_Done policy e g s tr ss d e1 g1 :
  game_step policy e g s = Done (tr, ss, d, e1, g1) <->
  exists p a r,
    policy !! s = Some p /\ np_random_choice_p nA p g = Done (a, g1) /\
    env_step e a = (ss, r, d, e1) /\ tr = (s, a, r).
Proof.
  unfold game_step. split.
  - intros Hrun. inv_bind Hrun. apply index_Done in E0.
    inv_bind Hrun. destruct v0 as [a g'].
    destruct (env_step e a) as [[[ss' r] d'] e'] eqn:Hstep.
    injection Hrun as <- <- <- <- <-. by exists v, a, r.
  - intros (p & a & r & Hp & Ha & Hstep & ->).
    apply index_Done in Hp. rewrite Hp. simpl. rewrite Ha. simpl. by rewrite Hstep.
Qed.

Lemma plays_advance policy e g s pre e1 g1 s1 :
  plays policy e g s pre e1 g1 s1 <-> advance policy s e g pre s1 e1 g1.
Proof.
  split.
  - induction 1 as [e g s|e g s tr ss e1 g1 pre e2 g2 s2 Hstep _ IH]; [constructor |].
    apply game_step_Done in Hstep as (p & a & r & Hp & Ha & Hstep & ->).
    by eapply advance_cons.
  - induction 1 as [s e g|s e g p a g1 ss r e1 pre s2 e2 g2 Hp Ha Hstep _ IH];
      [constructor |].
    eapply plays_cons; [|exact IH]. apply game_step_Done. by exists p, a, r.
Qed.

Lemma done_after_ends policy e g pre tr e' g' :
  done_after policy e g pre tr e' g' <->
  ends_episode policy e g pre tr.1.1 tr.1.2 tr.2 e' g'.
Proof.
  unfold done_after, ends_episode. split.
  - intros (e1 & g1 & s1 & ss & Hplays & Hlast).
    apply game_step_Done in Hlast as (p & a & r & Hp & Ha & Hstep & ->). simpl.
    exists e1, g1, p, ss. split; [by apply plays_advance | done].
  - intros (e1 & g1 & p & ss & Hadv & Hp & Ha & Hstep).
    exists e1, g1, tr.1.1, ss. split; [by apply plays_advance |].
    apply game_step_Done. exists p, tr.1.2, tr.2. by destruct tr as [[s a] r].
Qed.

(** A trace that [run_game] returns is made of such an episode. *)
Lemma run_game_ends policy fuel e g trace e' g' :
  run_game fuel policy e g = Done (trace, e', g') ->
  exists pre s a r,
    ends_episode policy e g pre s a r e' g' /\
    trace = pre ++ [(s, a, r)] /\ (length pre < fuel)%nat.
Proof.
  intros (pre & tr & Hdone & -> & Hlen)%run_game_Done.
  apply done_after_ends in Hdone. destruct tr as [[s a] r].
  by exists pre, s, a, r.
Qed.

(** C9. Suppose the episode that [run_game] starts reaches, after the
    transitions [pre], a state [s] in which the action [a] drawn from
    [policy[s, :]] makes [env.step(a)] answer a reward [r] and
    [done = True]. Then [run_game] returns the trace
    [pre ++ [(s, a, r)]] (as soon as it may run [length pre + 1] steps),
    and every trace it returns is that one: finite, not empty, its last
    element the transition [(s, a, r)] of the step on which the
    environment signalled [done], every element before it the
    transition of a step that did not, nothing appended after it, and
    the environment handed back as that step left it. *)
Theorem run_game_ends_at_done (policy : table) (e : E) (g : Gen) :
  (exists pre s a r e' g', ends_episode policy e g pre s a r e' g') ->
  exists pre s a r e' g' e1 g1 p ss,
    advance policy (env_reset e).1 (env_reset e).2 g pre s e1 g1 /\
    policy !! s = Some p /\
    np_random_choice_p nA p g1 = Done (a, g') /\
    env_step e1 a = (ss, r, true, e') /\
    (forall fuel, (length pre < fuel)%nat ->
       run_game fuel policy e g = Done (pre ++ [(s, a, r)], e', g')) /\
    (forall fuel trace e'' g'',
       run_game fuel policy e g = Done (trace, e'', g'') ->
       trace = pre ++ [(s, a, r)] /\ trace <> [] /\ last trace = Some (s, a, r) /\
       e'' = e' /\ g'' = g').
Proof.
  intros (pre & s & a & r & e' & g' & Hends).
  pose proof Hends as (e1 & g1 & p & ss & Hadv & Hp & Ha & Hstep).
  assert (Hdone : done_after policy e g pre (s, a, r) e' g') by (by apply done_after_ends).
  exists pre, s, a, r, e', g', e1, g1, p, ss.
  split; [done |]. split; [done |]. split; [done |]. split; [done |]. split.
  - intros fuel Hfuel. by apply run_game_complete.
  - intros fuel trace e'' g'' Hrun.
    destruct (run_game_Done _ _ _ _ _ _ _ Hrun) as (pre' & tr' & Hdone' & Htrace & Hlen).
    pose proof (run_game_complete _ _ _ _ _ _ _ (S (length pre + length pre')) Hdone)
      as Hbig.
    pose proof (run_game_complete _ _ _ _ _ _ _ (S (length pre + length pre')) Hdone')
      as Hbig'.
    rewrite Hbig in Hbig' by lia.
    assert (Heq : Done (pre ++ [(s, a, r)], e', g') = Done (pre' ++ [tr'], e'', g''))
      by (apply Hbig'; lia).
    injection Heq as Heq -> ->. rewrite Htrace, <- Heq.
    split; [done |]. split; [by destruct pre |].
    split; [apply last_snoc | done].
Qed.

End SamplerFacts.

(** *** The corridor, run on the recorded tape *)

Lemma mc_records_total_reward_witness :
  exists rw vs ei gi state_trace R e1 g1 s0 e0 steps,
    mc_loop (E := nat) 10 (seq 0 0) (np_zeros 4 2) (np_zeros 4 2) 0%nat Fixtures.demo_tape
      = Done (rw, vs, ei, gi) /\
    episode 10 ei gi = Done (state_trace, R, e1, g1) /\
    env_reset ei = (s0, e0) /\
    rollout e0 gi steps e1 g1 /\
    state_trace = s0 :: map fst steps /\
    R = accumulate 0 (map snd steps) /\
    R == Qsum (map snd steps) /\
    forall s, s ∈ state_trace ->
      get2 [[3; 3]; [3; 3]; [3; 3]; [3; 3]] s 0 = Done R /\
      get2 [[1; 1]; [1; 1]; [1; 1]; [1; 1]] s 0 = Done 1.
Proof.
  refine (mc_records_total_reward (E := nat) 10 2 0%nat Fixtures.demo_tape
            [[3; 3]; [3; 3]; [3; 3]; [3; 3]] [[1; 1]; [1; 1]; [1; 1]; [1; 1]]
            3%nat [] _ 0%nat _).
  - vm_compute. reflexivity.
  - lia.
Defined.

(** In that run the first episode enters cell 2 on its third step and
    collects 1 from there on, while the whole episode collects 3: the
    entry recorded for cell 2 is the total, not the reward to go. *)
Example mc_total_is_not_reward_to_go :
  exists rewards visits e' g' rs,
    mc_estimate (E := nat) 10 2 0%nat Fixtures.demo_tape = Done (rewards, visits, e', g') /\
    episode (E := nat) 10 0%nat Fixtures.demo_tape
      = Done ([0; 1; 1; 2; 3]%nat, accumulate 0 rs, 3%nat, [7 # 10; 7 # 10; 7 # 10]) /\
    rs = [1; 0; 1; 1] /\
    get2 rewards 2 0 = Done (accumulate 0 rs) /\
    accumulate 0 rs == 3 /\
    Qsum (drop 3 rs) == 1.
Proof.
  exists [[3; 3]; [3; 3]; [3; 3]; [3; 3]], [[1; 1]; [1; 1]; [1; 1]; [1; 1]],
    3%nat, [], [1; 0; 1; 1].
  vm_compute. repeat split.
Qed.

Lemma esoft_rows_sum_to_one_witness :
  exists pol e' g',
    monte_carlo_e_soft (E := nat) 10 1 (1 # 100) 0%nat Fixtures.demo_tape
      = Done (pol, e', g') /\
    normalized (E := nat) pol.
Proof.
  exists [[1 # 200; 19900 # 20000]; [1 # 200; 19900 # 20000];
          [1 # 200; 19900 # 20000]; [1 # 2; 1 # 2]], 3%nat, [].
  split; [vm_compute; reflexivity |].
  assert (HA : (0 < nA (E := nat))%nat) by (simpl; lia).
  apply (proj2 (proj2 (esoft_rows_sum_to_one (E := nat) (Gen := Fixtures.tape) (1 # 100) HA))
           10%nat 1%nat 0%nat Fixtures.demo_tape _ 3%nat []).
  vm_compute. reflexivity.
Defined.

Lemma run_game_ends_at_done_witness :
  exists pre s a r e' g' e1 g1 p ss,
    advance (E := nat) (np_full 4 2 (1 # 2)) 0%nat 0%nat Fixtures.demo_tape
      pre s e1 g1 /\
    np_full 4 2 (1 # 2) !! s = Some p /\
    np_random_choice_p 2 p g1 = Done (a, g') /\
    Fixtures.corridor_step e1 a = (ss, r, true, e') /\
    (forall fuel, (length pre < fuel)%nat ->
       run_game fuel (np_full 4 2 (1 # 2)) 0%nat Fixtures.demo_tape
       = Done (pre ++ [(s, a, r)], e', g')) /\
    (forall fuel trace e'' g'',
       run_game fuel (np_full 4 2 (1 # 2)) 0%nat Fixtures.demo_tape
       = Done (trace, e'', g'') ->
       trace = pre ++ [(s, a, r)] /\ trace <> [] /\ last trace = Some (s, a, r) /\
       e'' = e' /\ g'' = g').
Proof.
  refine (run_game_ends_at_done (E := nat) (Gen := Fixtures.tape)
            (np_full 4 2 (1 # 2)) 0%nat Fixtures.demo_tape _).
  destruct (run_game_ends (E := nat) (np_full 4 2 (1 # 2)) 10 0%nat Fixtures.demo_tape
              [(0%nat, 1%nat, 1); (1%nat, 0%nat, 0); (1%nat, 1%nat, 1); (2%nat, 1%nat, 1)]
              3%nat
              [7 # 10; 7 # 10; 7 # 10])
    as (pre & s & a & r & Hends & _).
  - vm_compute. reflexivity.
  - by exists pre, s, a, r, 3%nat, [7 # 10; 7 # 10; 7 # 10].
Defined.

End MonteCarlo.

(** ** Q-learning notebook *)

Module QLearning.

(** The module-level learning rate and discount, [lr = 0.8] and
    [gamma = .95]. *)
Definition lr : Q := 8 # 10.
Definition gamma : Q := 95 # 100.

Section WithWorld.
Context {E Gen : Type} `{Environment E} `{NumpyRandom Gen}.

(** The action of [q_step]:
    [np.argmax(Q[s, :] + np.random.randn(1, env.nA) * sigma)]. *)
Definition q_action (Qt : table) (sigma : Q) (s : state) (g : Gen)
  : outcome (action * Gen) :=
  row ← index Qt s;
  let '(noise, g1) := rng_randn nA g in
  fuzzy ← np_add_broadcast row (map (fun z => z * sigma) noise);
  a ← np_argmax fuzzy;
  Done (a, g1).

(** [q_step(Q, env, sigma, s)], returning [Q, ss, r, d] together with
    the environment and the generator it has advanced. *)
Definition q_step (Qt : table) (e : E) (sigma : Q) (s : state) (g : Gen)
  : outcome (table * state * Q * bool * E * Gen) :=
  '(a, g1) ← q_action Qt sigma s g;
  let '(ss, r, d, e1) := env_step e a in
  row_ss ← index Qt ss;
  m ← np_max row_ss;
  q ← get2 Qt s a;
  let delta := r + gamma * m - q in
  q' ← get2 Qt s a;
  Qt1 ← set2 Qt s a (q' + lr * delta);
  Done (Qt1, ss, r, d, e1, g1).

(** The inner loop [for _ in range(nsteps)] of the training cell. *)
Fixpoint q_episode (nsteps : nat) (sigma : Q) (Qt : table) (s : state) (rTot : Q)
    (e : E) (g : Gen) : outcome (table * state * Q * E * Gen) :=
  match nsteps with
  | O => Done (Qt, s, rTot, e, g)
  | S n =>
      '(Qt1, s1, r, d, e1, g1) ← q_step Qt e sigma s g;
      let rTot := rTot + r in
      if (d : bool) then Done (Qt1, s1, rTot, e1, g1)
      else q_episode n sigma Qt1 s1 rTot e1 g1
  end.



End WithWorld.

(** *** What one call of [q_step] does *)

Section Facts.
Context {E Gen : Type} `{Environment E} `{NumpyRandom Gen}.

(** Every step of the environment lands on a row of the table. *)
Definition steps_in_range (e : E) : Prop :=
  forall a, (a < nA)%nat -> ((env_step e a).1.1.1 < nS)%nat.

Lemma q_action_Done Qt sigma s g a g1 :
  q_action Qt sigma s g = Done (a, g1) ->
  exists row fuzzy,
    Qt !! s = Some row /\
    g1 = (rng_randn nA g).2 /\
    np_add_broadcast row (map (fun z => z * sigma) (rng_randn nA g).1) = Done fuzzy /\
    np_argmax fuzzy = Done a.
Proof.
  unfold q_action. intros Hq. inv_bind Hq. apply index_Done in E0.
  destruct (rng_randn nA g) as [noise g'] eqn:Hn. simpl.
  inv_bind Hq. inv_bind Hq. injection Hq as -> ->. eauto 10.
Qed.

Lemma q_action_total Qt sigma s g :
  shape Qt nS nA -> (0 < nA)%nat -> (s < nS)%nat ->
  exists a, q_action Qt sigma s g = Done (a, (rng_randn nA g).2) /\ (a < nA)%nat.
Proof.
  intros HQ HA Hs. destruct (shape_lookup _ _ _ _ HQ Hs) as (row & Hrow & Hlen).
  unfold q_action. apply index_Done in Hrow. rewrite Hrow. simpl.
  pose proof (rng_randn_length nA g) as Hnoise.
  destruct (rng_randn nA g) as [noise g']. simpl in *.
  unfold np_add_broadcast, np_broadcast. rewrite decide_True by (rewrite length_map; lia). simpl.
  set (fuzzy := zip_with Qplus row (map (fun z => z * sigma) noise)).
  assert (Hf : length fuzzy = nA).
  { unfold fuzzy. rewrite length_zip_with, length_map. lia. }
  destruct (np_argmax_nonempty fuzzy) as [a Ha]; [lia |].
  rewrite Ha. simpl. exists a. split; [done |].
  apply np_argmax_Done in Ha as [Ha _]. lia.
Qed.

Lemma q_step_Done Qt e sigma s g Qt1 ss r d e1 g1 :
  q_step Qt e sigma s g = Done (Qt1, ss, r, d, e1, g1) ->
  exists a row_ss m q,
    q_action Qt sigma s g = Done (a, g1) /\
    env_step e a = (ss, r, d, e1) /\
    Qt !! ss = Some row_ss /\
    np_max row_ss = Done m /\
    get2 Qt s a = Done q /\
    set2 Qt s a (q + lr * (r + gamma * m - q)) = Done Qt1.
Proof.
  unfold q_step. intros Hq. inv_bind Hq. destruct v as [a g'].
  destruct (env_step e a) as [[[ss' r'] d'] e'] eqn:Hstep.
  inv_bind Hq. inv_bind Hq. inv_bind Hq. inv_bind Hq. inv_bind Hq.
  injection Hq as -> -> -> -> -> ->.
  rewrite E3 in E4. injection E4 as ->.
  apply index_Done in E1. eauto 12.
Qed.

Lemma q_step_total Qt e sigma s g :
  shape Qt nS nA -> (0 < nA)%nat -> (s < nS)%nat -> steps_in_range e ->
  exists Qt1 ss r d e1 g1, q_step Qt e sigma s g = Done (Qt1, ss, r, d, e1, g1).
Proof.
  intros HQ HA Hs Hrange.
  destruct (q_action_total Qt sigma s g HQ HA Hs) as (a & Ha & Hlt).
  unfold q_step. rewrite Ha. simpl.
  specialize (Hrange a Hlt).
  destruct (env_step e a) as [[[ss r] d] e1]. simpl in Hrange.
  destruct (shape_lookup _ _ _ _ HQ Hrange) as (row_ss & Hss & Hlss).
  apply index_Done in Hss. rewrite Hss. simpl.
  destruct (np_max_nonempty row_ss) as [m ->]; [lia |]. simpl.
  destruct (shape_lookup _ _ _ _ HQ Hs) as (row & Hrow & Hlen).
  assert (exists q, row !! a = Some q) as [q Hq].
  { apply lookup_lt_is_Some_2. lia. }
  assert (Hget : get2 Qt s a = Done q) by (apply get2_Done; eauto).
  rewrite Hget. simpl.
  assert (Hset : set2 Qt s a (q + lr * (r + gamma * m - q))
                 = Done (<[s := <[a := q + lr * (r + gamma * m - q)]> row]> Qt)).
  { apply set2_Done. exists row. split; [done |]. split; [lia | done]. }
  rewrite Hset. simpl. eauto 10.
Qed.

(** C3. On a table of shape [(nS, nA)], for a state [s] of the table
    and an environment whose successor states are rows of the table,
    [q_step] returns; with [a] the action it chose and [(ss, r, d)] the
    observation of [env.step(a)], the new entry [Q[s, a]] is
    [Q[s, a] + lr * (r + gamma * m - Q[s, a])], where [m] is an entry of
    row [ss] that bounds [Q[ss, a']] for every action [a' < nA]. *)
Theorem q_step_update (Qt : table) (e : E) (sigma : Q) (s : state) (g : Gen) :
  shape Qt nS nA -> (0 < nA)%nat -> (s < nS)%nat -> steps_in_range e ->
  exists Qt1 ss r d e1 g1 a q m,
    q_step Qt e sigma s g = Done (Qt1, ss, r, d, e1, g1) /\
    q_action Qt sigma s g = Done (a, g1) /\ (a < nA)%nat /\
    env_step e a = (ss, r, d, e1) /\
    get2 Qt s a = Done q /\
    (exists a', (a' < nA)%nat /\ get2 Qt ss a' = Done m) /\
    (forall a', (a' < nA)%nat -> exists v, get2 Qt ss a' = Done v /\ v <= m) /\
    get2 Qt1 s a = Done (q + lr * (r + gamma * m - q)).
Proof.
  intros HQ HA Hs Hrange.
  destruct (q_step_total Qt e sigma s g HQ HA Hs Hrange)
    as (Qt1 & ss & r & d & e1 & g1 & Hstep).
  destruct (q_step_Done _ _ _ _ _ _ _ _ _ _ _ Hstep)
    as (a & row_ss & m & q & Hact & Henv & Hss & Hm & Hq & Hset).
  destruct (q_action_total Qt sigma s g HQ HA Hs) as (a0 & Ha0 & Hlt).
  rewrite Hact in Ha0. injection Ha0 as <- _.
  assert (Hlss : length row_ss = nA).
  { destruct HQ as [_ Hrows]. by eapply (Forall_lookup_1 _ _ _ _ Hrows). }
  apply np_max_Done in Hm as [Hin Hub].
  exists Qt1, ss, r, d, e1, g1, a, q, m. repeat split; try done.
  - apply list_elem_of_lookup_1 in Hin as [a' Ha'].
    exists a'. split; [apply lookup_lt_Some in Ha'; lia |].
    apply get2_Done. eauto.
  - intros a' Ha'. destruct (lookup_lt_is_Some_2 row_ss a') as [v Hv]; [lia |].
    exists v. split; [apply get2_Done; eauto |].
    apply Hub. by eapply list_elem_of_lookup_2.
  - by eapply get2_set2_eq.
Qed.

(** C10. When [q_step(Q, env, sigma, s)] returns [(Q', ss, r, d)], with
    [a] the action it chose: [(ss, r, d)] and the new state of the
    environment are those of the one call [env.step(a)]; [Q'] has the
    shape of [Q]; and [Q'] agrees with [Q] at every entry other than
    [(s, a)]. *)
Theorem q_step_frame (Qt : table) (e : E) (sigma : Q) (s : state) (g : Gen)
    (Qt1 : table) (ss : state) (r : Q) (d : bool) (e1 : E) (g1 : Gen) :
  q_step Qt e sigma s g = Done (Qt1, ss, r, d, e1, g1) ->
  exists a,
    q_action Qt sigma s g = Done (a, g1) /\
    env_step e a = (ss, r, d, e1) /\
    map length Qt1 = map length Qt /\
    (forall s' a', (s', a') <> (s, a) -> get2 Qt1 s' a' = get2 Qt s' a').
Proof.
  intros Hstep.
  destruct (q_step_Done _ _ _ _ _ _ _ _ _ _ _ Hstep)
    as (a & row_ss & m & q & Hact & Henv & Hss & Hm & Hq & Hset).
  exists a. repeat split; try done.
  - by eapply set2_row_lengths.
  - intros s' a' Hne. by eapply get2_set2_ne.
Qed.

End Facts.

(** *** Which action is selected *)

Section Selection.
Context {E Gen : Type} `{Environment E} `{NumpyRandom Gen}.

(** The positions of [np.where(row == max(row))] are exactly those whose
    entry bounds the whole row. *)
Lemma np_where_max row m :
  np_max row = Done m ->
  forall i, i ∈ np_where_eq row m <->
            exists v, row !! i = Some v /\ forall w, w ∈ row -> w <= v.
Proof.
  intros [Hin Hub]%np_max_Done i. rewrite np_where_eq_spec.
  split; intros (v & Hi & Hv); exists v; (split; [done |]).
  - intros w Hw. rewrite Hv. by apply Hub.
  - apply Qle_antisym; [apply Hub; by eapply list_elem_of_lookup_2 | by apply Hv].
Qed.

Lemma np_where_max_nonempty row m :
  np_max row = Done m -> (0 < length (np_where_eq row m))%nat.
Proof.
  intros [Hin Hub]%np_max_Done.
  apply list_elem_of_lookup_1 in Hin as [i Hi].
  assert (Hmem : i ∈ np_where_eq row m).
  { apply np_where_eq_spec. exists m. split; [done | reflexivity]. }
  destruct (np_where_eq row m); [by apply not_elem_of_nil in Hmem | simpl; lia].
Qed.

Lemma esoft_max_idx_draw Qt s row m g :
  Qt !! s = Some row -> np_max row = Done m ->
  let M := np_where_eq row m in
  let k := (rng_choice (length M) g).1 in
  (k < length M)%nat /\
  exists a, M !! k = Some a /\
    MonteCarlo.esoft_max_idx Qt s g = Done (a, (rng_choice (length M) g).2).
Proof.
  intros Hrow Hm M k. pose proof (np_where_max_nonempty row m Hm) as Hpos.
  fold M in Hpos. pose proof (rng_choice_lt (length M) g Hpos) as Hk. fold k in Hk.
  split; [done |]. destruct (lookup_lt_is_Some_2 M k Hk) as [a Ha].
  exists a. split; [done |].
  unfold MonteCarlo.esoft_max_idx. apply index_Done in Hrow. rewrite Hrow. simpl.
  rewrite Hm. simpl. fold M. unfold np_random_choice_from, np_random_choice.
  rewrite decide_True by done. simpl.
  destruct (rng_choice (length M) g) as [k0 g0] eqn:Hdraw. simpl in *. subst k.
  apply index_Done in Ha. rewrite Ha. done.
Qed.

(** C5, as the code has it. In [monte_carlo_e_soft] the greedy action is
    the entry, at a uniformly drawn position, of the duplicate-free
    list [M] of all positions whose entry is the maximum of [Q[s, :]]:
    it attains the maximum, and every maximiser is selected by exactly
    one of the [|M|] equally likely positions. In [q_step] the action is
    the first position that maximises the perturbed row
    [Q[s, :] + noise * sigma]. *)
Theorem greedy_selection (Qt : table) (s : state) (row : list Q) (sigma : Q) :
  Qt !! s = Some row -> length row = nA -> (0 < nA)%nat ->
  (exists m M,
     np_max row = Done m /\ M = np_where_eq row m /\ NoDup M /\
     (forall i, i ∈ M <->
                exists v, row !! i = Some v /\ forall w, w ∈ row -> w <= v) /\
     (forall i, i ∈ M ->
                exists k, M !! k = Some i /\ forall k', M !! k' = Some i -> k' = k) /\
     (forall g, let k := (rng_choice (length M) g).1 in
                (k < length M)%nat /\
                exists a, M !! k = Some a /\
                  MonteCarlo.esoft_max_idx Qt s g
                  = Done (a, (rng_choice (length M) g).2))) /\
  (forall g,
     let fuzzy := zip_with Qplus row (map (fun z => z * sigma) (rng_randn nA g).1) in
     exists a v,
       q_action Qt sigma s g = Done (a, (rng_randn nA g).2) /\
       fuzzy !! a = Some v /\
       (forall j w, fuzzy !! j = Some w -> w <= v) /\
       (forall j w, (j < a)%nat -> fuzzy !! j = Some w -> w < v)).
Proof.
  intros Hrow Hlen HA. split.
  - destruct (np_max_nonempty row) as [m Hm]; [lia |].
    exists m, (np_where_eq row m). split; [done |]. split; [done |].
    split; [apply where_eq_from_NoDup |].
    split; [by apply np_where_max |].
    split.
    + intros i Hi. apply NoDup_position; [apply where_eq_from_NoDup | done].
    + intros g. by apply esoft_max_idx_draw.
  - intros g fuzzy. unfold q_action.
    pose proof Hrow as Hidx. apply index_Done in Hidx. rewrite Hidx. simpl.
    pose proof (rng_randn_length nA g) as Hnoise.
    destruct (rng_randn nA g) as [noise g'] eqn:Hdraw. simpl in *.
    unfold np_add_broadcast, np_broadcast. rewrite decide_True by (rewrite length_map; lia).
    simpl. fold fuzzy.
    assert (Hf : length fuzzy = nA).
    { unfold fuzzy. rewrite length_zip_with, length_map. lia. }
    destruct (np_argmax_nonempty fuzzy) as [a Ha]; [lia |].
    rewrite Ha. simpl.
    apply np_argmax_Done in Ha as (_ & v & Hv & Hub & Hfirst).
    exists a, v. done.
Qed.

End Selection.

(** *** When the episode loops stop *)

Section LoopFacts.
Context {E Gen : Type} `{Environment E} `{NumpyRandom Gen}.

(** The variables of the inner training loop: [Q], [s], [rTot], and the
    environment and generator. *)
Definition q_vars : Type := table * state * Q * E * Gen.

(** [q_plays sigma st k st']: [k] calls of [q_step] in a row, none of
    which signals [done], take the loop variables from [st] to [st']. *)
Inductive q_plays (sigma : Q) : q_vars -> nat -> q_vars -> Prop :=
| q_plays_0 st : q_plays sigma st 0 st
| q_plays_S Qt s rTot e g Qt1 s1 r e1 g1 k st' :
    q_step Qt e sigma s g = Done (Qt1, s1, r, false, e1, g1) ->
    q_plays sigma (Qt1, s1, rTot + r, e1, g1) k st' ->
    q_plays sigma (Qt, s, rTot, e, g) (S k) st'.

(** The call of [q_step] on the loop variables [st] signals [done] and
    leaves the loop variables [st']. *)
Definition q_last (sigma : Q) (st st' : q_vars) : Prop :=
  let '(Qt, s, rTot, e, g) := st in
  exists Qt1 s1 r e1 g1,
    q_step Qt e sigma s g = Done (Qt1, s1, r, true, e1, g1) /\
    st' = (Qt1, s1, rTot + r, e1, g1).

Lemma halts_q_action Qt sigma s g : halts (q_action Qt sigma s g).
Proof.
  unfold q_action. apply halts_bind; [apply halts_index | intros row].
  destruct (rng_randn nA g) as [noise g1].
  apply halts_bind; [apply halts_np_add_broadcast | intros fuzzy].
  apply halts_bind; [apply halts_np_argmax | done].
Qed.

Lemma halts_q_step Qt e sigma s g : halts (q_step Qt e sigma s g).
Proof.
  unfold q_step. apply halts_bind; [apply halts_q_action | intros [a g1]].
  destruct (env_step e a) as [[[ss r] d] e1].
  apply halts_bind; [apply halts_index | intros row_ss].
  apply halts_bind; [apply halts_np_max | intros m].
  apply halts_bind; [apply halts_get2 | intros q].
  apply halts_bind; [apply halts_get2 | intros q'].
  apply halts_bind; [apply halts_set2 | done].
Qed.

Lemma halts_q_episode nsteps sigma : forall Qt s rTot e g,
  halts (q_episode nsteps sigma Qt s rTot e g).
Proof.
  induction nsteps as [|n IH]; intros Qt s rTot e g; simpl; [done |].
  apply halts_bind; [apply halts_q_step |].
  intros [[[[[Qt1 s1] r] d] e1] g1]. destruct d; [done | apply IH].
Qed.

Lemma q_episode_Done nsteps sigma : forall Qt s rTot e g st',
  q_episode nsteps sigma Qt s rTot e g = Done st' ->
  q_plays sigma (Qt, s, rTot, e, g) nsteps st' \/
  exists k mid, (S k <= nsteps)%nat /\
    q_plays sigma (Qt, s, rTot, e, g) k mid /\ q_last sigma mid st'.
Proof.
  induction nsteps as [|n IH]; intros Qt s rTot e g st' Hrun; simpl in Hrun.
  - injection Hrun as <-. left. constructor.
  - inv_bind Hrun. destruct v as [[[[[Qt1 s1] r] d] e1] g1]. destruct d.
    + injection Hrun as <-. right. exists 0%nat, (Qt, s, rTot, e, g).
      split; [lia |]. split; [constructor |]. simpl. eauto 10.
    + apply IH in Hrun as [Hcap|(k & mid & Hk & Hplays & Hlast)].
      * left. by eapply q_plays_S.
      * right. exists (S k), mid. split; [lia |].
        split; [by eapply q_plays_S | done].
Qed.

(** C8, as the code has it. The inner loop of the Q-learning training
    cell always comes to an end, and when it completes it has made
    either [nsteps] calls of [q_step], none signalling [done], or
    [k + 1 <= nsteps] calls, the last of which signalled [done]: never
    more than [nsteps] steps. [run_game] takes no step cap: a trace it
    returns ends with the first step that signalled [done], and on an
    episode in which no step signals [done] it is still running
    whatever number of steps it is allowed. *)
Theorem episode_loops_stop :
  (forall nsteps sigma Qt s rTot (e : E) (g : Gen),
     halts (q_episode nsteps sigma Qt s rTot e g) /\
     forall st', q_episode nsteps sigma Qt s rTot e g = Done st' ->
       q_plays sigma (Qt, s, rTot, e, g) nsteps st' \/
       exists k mid, (S k <= nsteps)%nat /\
         q_plays sigma (Qt, s, rTot, e, g) k mid /\ q_last sigma mid st') /\
  (forall policy (e : E) (g : Gen),
     (forall fuel trace e' g',
        MonteCarlo.run_game fuel policy e g = Done (trace, e', g') ->
        exists pre tr,
          MonteCarlo.done_after policy e g pre tr e' g' /\
          trace = pre ++ [tr] /\ (length pre < fuel)%nat) /\
     (forall pre tr e' g' fuel,
        MonteCarlo.done_after policy e g pre tr e' g' ->
        (length pre < fuel)%nat ->
        MonteCarlo.run_game fuel policy e g = Done (pre ++ [tr], e', g')) /\
     (MonteCarlo.never_done policy e g ->
      forall fuel, MonteCarlo.run_game fuel policy e g = OutOfFuel)).
Proof.
  split.
  - intros nsteps sigma Qt s rTot e g. split; [apply halts_q_episode |].
    apply q_episode_Done.
  - intros policy e g. split; [|split].
    + intros fuel trace e' g'. apply MonteCarlo.run_game_Done.
    + intros pre tr e' g' fuel. apply MonteCarlo.run_game_complete.
    + intros Hnever fuel. by apply MonteCarlo.run_game_never.
Qed.

End LoopFacts.

(** On the treadmill no step of [run_game] signals [done]. *)
Lemma treadmill_never_done (g : Fixtures.tape) :
  MonteCarlo.never_done (H := Fixtures.treadmill) [[1]] tt g.
Proof.
  unfold MonteCarlo.never_done. simpl.
  assert (Hstay : forall e0 g0 s0 pre e1 g1 s1,
            MonteCarlo.plays (H := Fixtures.treadmill) [[1]] e0 g0 s0 pre e1 g1 s1 ->
            s0 = 0%nat -> s1 = 0%nat).
  { induction 1 as [|e0 g0 s0 tr ss e1 g1 pre e2 g2 s2 Hstep _ IH]; [done |].
    intros ->. apply IH. unfold MonteCarlo.game_step in Hstep.
    simpl in Hstep. by injection Hstep as _ <- _ _. }
  intros pre e1 g1 s1 Hplays. rewrite (Hstay _ _ _ _ _ _ _ Hplays eq_refl).
  destruct e1. by eexists _, _, _, _.
Qed.

(** C8 fails as stated: on the treadmill, [run_game] returns for no
    number of steps. *)
Lemma run_game_treadmill_runs_forever :
  ~ exists fuel trace e' g',
      MonteCarlo.run_game (H := Fixtures.treadmill) fuel [[1]] tt ([] : Fixtures.tape)
      = Done (trace, e', g').
Proof.
  intros (fuel & trace & e' & g' & Hrun).
  rewrite (MonteCarlo.run_game_never _ _ _ fuel (treadmill_never_done [])) in Hrun.
  discriminate.
Qed.

(** In the corridor, with no noise on the tape, the greedy action of an
    all-zero table is to stay: the inner loop stops at its cap of two
    steps, in cell 0, [done] not having been signalled. *)
Example q_episode_stops_at_cap :
  exists Qt rTot,
    q_episode (E := nat) 2 1 (np_zeros 4 2) 0%nat 0 0%nat ([] : Fixtures.tape)
    = Done (Qt, 0%nat, rTot, 0%nat, []) /\
    q_plays (E := nat) 1 (np_zeros 4 2, 0%nat, 0, 0%nat, ([] : Fixtures.tape)) 2
      (Qt, 0%nat, rTot, 0%nat, []).
Proof.
  eexists _, _. split; [vm_compute; reflexivity |].
  eapply q_plays_S; [vm_compute; reflexivity |].
  eapply q_plays_S; [vm_compute; reflexivity |].
  apply q_plays_0.
Qed.

(** *** The corridor, one step of Q-learning *)

Lemma q_step_update_witness :
  exists Qt1 ss r d e1 g1 a q m,
    q_step (E := nat) [[0; 0]; [0; 0]; [0; 3]; [0; 0]] 1%nat 1 1%nat ([0; 2] : Fixtures.tape)
      = Done (Qt1, ss, r, d, e1, g1) /\
    q_action (E := nat) [[0; 0]; [0; 0]; [0; 3]; [0; 0]] 1 1%nat ([0; 2] : Fixtures.tape)
      = Done (a, g1) /\
    (a < 2)%nat /\
    env_step 1%nat a = (ss, r, d, e1) /\
    get2 [[0; 0]; [0; 0]; [0; 3]; [0; 0]] 1 a = Done q /\
    (exists a', (a' < 2)%nat /\ get2 [[0; 0]; [0; 0]; [0; 3]; [0; 0]] ss a' = Done m) /\
    (forall a', (a' < 2)%nat ->
       exists v, get2 [[0; 0]; [0; 0]; [0; 3]; [0; 0]] ss a' = Done v /\ v <= m) /\
    get2 Qt1 1 a = Done (q + lr * (r + gamma * m - q)).
Proof.
  refine (q_step_update (E := nat) (Gen := Fixtures.tape)
            [[0; 0]; [0; 0]; [0; 3]; [0; 0]] 1%nat 1 1%nat [0; 2] _ _ _ _).
  - split; [reflexivity | repeat constructor].
  - simpl. lia.
  - simpl. lia.
  - intros [|[|a]] Ha; simpl in *; lia.
Defined.

Lemma q_step_frame_witness :
  exists a,
    q_action (E := nat) [[0; 0]; [0; 0]; [0; 3]; [0; 0]] 1 1%nat ([0; 2] : Fixtures.tape)
      = Done (a, []) /\
    env_step 1%nat a = (2%nat, 1, false, 2%nat) /\
    map length [[0; 0]; [0; 3080 # 1000]; [0; 3]; [0; 0]]
      = map length [[0; 0]; [0; 0]; [0; 3]; [0; 0]] /\
    (forall s' a', (s', a') <> (1%nat, a) ->
       get2 [[0; 0]; [0; 3080 # 1000]; [0; 3]; [0; 0]] s' a'
       = get2 [[0; 0]; [0; 0]; [0; 3]; [0; 0]] s' a').
Proof.
  apply (q_step_frame (E := nat) (Gen := Fixtures.tape) _ 1%nat 1 1%nat [0; 2]).
  vm_compute. reflexivity.
Defined.

Lemma greedy_selection_witness :
  exists m M,
    np_max [1; 1] = Done m /\ M = np_where_eq [1; 1] m /\ NoDup M /\
    (forall i, i ∈ M -> exists k, M !! k = Some i /\ forall k', M !! k' = Some i -> k' = k) /\
    (forall g : Fixtures.tape,
       exists a, M !! (rng_choice (length M) g).1 = Some a /\
         MonteCarlo.esoft_max_idx [[1; 1]; [0; 0]; [0; 0]; [0; 0]] 0%nat g
         = Done (a, (rng_choice (length M) g).2)).
Proof.
  destruct (greedy_selection (E := nat) (Gen := Fixtures.tape)
              [[1; 1]; [0; 0]; [0; 0]; [0; 0]] 0%nat [1; 1] 1)
    as [(m & M & Hm & HM & Hnd & _ & Hpos & Hdraw) _].
  - reflexivity.
  - reflexivity.
  - simpl. lia.
  - exists m, M. repeat (split; [done |]). intros g. apply Hdraw.
Defined.

(** C5 fails as stated: with [Q[0, :] = [1, 0]], [sigma = 1] and the
    noise [(0, 2)], [q_step] selects action 1, whose value 0 is below
    the maximum 1 of the row. *)
Lemma q_action_not_greedy :
  exists a g1 q m,
    q_action (E := nat) [[1; 0]; [0; 0]; [0; 0]; [0; 0]] 1 0%nat ([0; 2] : Fixtures.tape)
      = Done (a, g1) /\
    get2 [[1; 0]; [0; 0]; [0; 0]; [0; 0]] 0 a = Done q /\
    np_max [1; 0] = Done m /\
    q < m.
Proof. exists 1%nat, [], 0, 1. vm_compute. repeat split. Qed.

End QLearning.

(** ** Upper confidence bound notebook *)

Module UCB.

Local Open Scope R_scope.

(** In this notebook the floats are real numbers, the bonus being a
    square root of a logarithm. A division by zero, for which numpy
    gives [inf] or [nan], has no value there and is reported as
    [Raise]. *)

(** [x / y] of two vectors of the same shape. *)
Fixpoint np_divide (x y : list R) : outcome (list R) :=
  match x, y with
  | [], [] => Done []
  | a :: x', b :: y' =>
      if Req_dec_T b 0 then Raise
      else rest ← np_divide x' y'; Done (a / b :: rest)
  | _, _ => Raise
  end.

(** [c / y] of a number and a vector. *)
Fixpoint np_divide_scalar (c : R) (y : list R) : outcome (list R) :=
  match y with
  | [] => Done []
  | b :: y' =>
      if Req_dec_T b 0 then Raise
      else rest ← np_divide_scalar c y'; Done (c / b :: rest)
  end.

(** [np.argmax] of a vector of reals: the first largest entry. *)
Fixpoint Rargmax_from (bi : nat) (b : R) (i : nat) (l : list R) : nat :=
  match l with
  | [] => bi
  | y :: l' =>
      if Rlt_dec b y then Rargmax_from i y (S i) l'
      else Rargmax_from bi b (S i) l'
  end.

Definition np_argmax_real (row : list R) : outcome nat :=
  match row with
  | [] => Raise
  | x :: l => Done (Rargmax_from 0 x 1 l)
  end.

(** The default of [delta], [1 / np.exp(4)]. *)
Definition delta_default : R := 1 / exp 4.

(** [expl_bonus(visits, delta)]. *)
Definition expl_bonus (visits : list R) (delta : R) : outcome (list R) :=
  q ← np_divide_scalar (2 * ln (1 / delta)) visits;
  Done (map sqrt q).

(** The means of the two arms. *)
Definition mus : list R := [1; 11 / 10].

Section WithGenerator.
(** [normal g mu] is [np.random.normal(mu)]. *)
Context {Gen : Type} (normal : Gen -> R -> R * Gen).

Record ucb_state := {
  visits : list R;
  rewards : list R;
  trace_a : list nat
}.

(** [visits = np.ones(2)], [rewards = np.zeros(2)], [trace_a = []]. *)
Definition ucb_init : ucb_state :=
  {| visits := [1; 1]; rewards := [0; 0]; trace_a := [] |}.

(** One pass of the loop body. *)
Definition ucb_round (b : ucb_state) (g : Gen) : outcome (ucb_state * Gen) :=
  means ← np_divide (rewards b) (visits b);
  bonus ← expl_bonus (visits b) delta_default;
  let kpi := zip_with Rplus means bonus in
  a ← np_argmax_real kpi;
  mu ← index mus a;
  let '(r, g1) := normal g mu in
  v ← index (visits b) a;
  visits1 ← assign (visits b) a (v + 1);
  w ← index (rewards b) a;
  rewards1 ← assign (rewards b) a (w + r);
  Done ({| visits := visits1; rewards := rewards1; trace_a := trace_a b ++ [a] |}, g1).

(** [for _ in range(N)]. *)
Fixpoint ucb_loop (N : nat) (b : ucb_state) (g : Gen) : outcome (ucb_state * Gen) :=
  match N with
  | O => Done (b, g)
  | S n => '(b1, g1) ← ucb_round b g; ucb_loop n b1 g1
  end.

Definition ucb_run (N : nat) (g : Gen) : outcome (ucb_state * Gen) :=
  ucb_loop N ucb_init g.

(** *** The counts never vanish *)

(** One count and one reward total per arm, and every count at least
    one. *)
Definition counted (b : ucb_state) : Prop :=
  length (visits b) = length mus /\
  length (rewards b) = length mus /\
  Forall (fun v => 1 <= v) (visits b).

Lemma np_divide_total x : forall y,
  length x = length y -> Forall (fun v => 1 <= v) y ->
  exists q, np_divide x y = Done q /\ length q = length y.
Proof.
  induction x as [|a x IH]; intros [|b y] Hlen Hpos; simpl in *; try discriminate.
  - by exists [].
  - apply Forall_cons in Hpos as [Hb Hpos].
    destruct (Req_dec_T b 0) as [->|_]; [lra |].
    destruct (IH y) as (q & -> & Hq); [lia | done |].
    simpl. exists (a / b :: q). split; [done | simpl; lia].
Qed.

Lemma np_divide_scalar_total c y :
  Forall (fun v => 1 <= v) y ->
  exists q, np_divide_scalar c y = Done q /\ length q = length y.
Proof.
  induction y as [|b y IH]; intros Hpos; simpl.
  - by exists [].
  - apply Forall_cons in Hpos as [Hb Hpos].
    destruct (Req_dec_T b 0) as [->|_]; [lra |].
    destruct (IH Hpos) as (q & -> & Hq).
    simpl. exists (c / b :: q). split; [done | simpl; lia].
Qed.

Lemma Rargmax_from_lt l : forall bi b i,
  (bi < i)%nat -> (Rargmax_from bi b i l < i + length l)%nat.
Proof.
  induction l as [|y l IH]; intros bi b i Hbi; simpl; [lia |].
  destruct (Rlt_dec b y).
  - specialize (IH i y (S i)). lia.
  - specialize (IH bi b (S i)). lia.
Qed.

Lemma np_argmax_total row :
  (0 < length row)%nat -> exists a, np_argmax_real row = Done a /\ (a < length row)%nat.
Proof.
  destruct row as [|x l]; simpl; [lia |]. intros _. eexists. split; [done |].
  pose proof (Rargmax_from_lt l 0 x 1). lia.
Qed.

Lemma ucb_round_counted b g :
  counted b ->
  exists b' g' a v,
    ucb_round b g = Done (b', g') /\ counted b' /\
    visits b !! a = Some v /\
    visits b' = <[a := v + 1]> (visits b) /\
    trace_a b' = trace_a b ++ [a].
Proof.
  intros (Hv & Hr & Hpos). unfold ucb_round.
  destruct (np_divide_total (rewards b) (visits b)) as (means & -> & Hm);
    [lia | done |]. simpl.
  unfold expl_bonus.
  destruct (np_divide_scalar_total (2 * ln (1 / delta_default)) (visits b) Hpos)
    as (q & -> & Hq). simpl.
  destruct (np_argmax_total (zip_with Rplus means (map sqrt q))) as (a & -> & Ha).
  { rewrite length_zip_with, length_map, Hm, Hq, Hv. simpl. lia. }
  rewrite length_zip_with, length_map, Hm, Hq in Ha. simpl.
  destruct (index_lt mus a) as (mu & -> & _); [lia |]. simpl.
  destruct (normal g mu) as [r g1].
  destruct (index_lt (visits b) a) as (v & -> & Hva); [lia |]. simpl.
  unfold assign. rewrite decide_True by lia. simpl.
  destruct (index_lt (rewards b) a) as (w & -> & _); [lia |]. simpl.
  rewrite decide_True by lia. simpl.
  eexists _, g1, a, v. split; [done |]. split; [|done].
  split; [|split]; simpl.
  - by rewrite length_insert.
  - by rewrite length_insert.
  - apply Forall_insert; [done |].
    pose proof (Forall_lookup_1 _ _ _ _ Hpos Hva) as Hone. simpl in Hone. lra.
Qed.

Lemma ucb_init_counted : counted ucb_init.
Proof.
  split; [done |]. split; [done |]. simpl.
  repeat constructor; lra.
Qed.

Lemma ucb_loop_counted N : forall b g,
  counted b ->
  exists b' g', ucb_loop N b g = Done (b', g') /\ counted b' /\
                length (trace_a b') = (length (trace_a b) + N)%nat.
Proof.
  induction N as [|N IH]; intros b g Hb; simpl.
  - exists b, g. split; [done |]. split; [done | lia].
  - destruct (ucb_round_counted b g Hb) as (b1 & g1 & a & v & -> & Hb1 & _ & _ & Htr).
    simpl. destruct (IH b1 g1 Hb1) as (b' & g' & -> & Hb' & Hlen).
    exists b', g'. split; [done |]. split; [done |].
    rewrite Hlen, Htr, length_app. simpl. lia.
Qed.

(** C6, as the code has it. The counts start at one, not zero. Whatever
    rewards are drawn, every round of the loop completes without a
    division by zero, pulls one arm and adds one to the count of that
    arm only; so a run of [N] rounds completes with [N] pulls recorded
    and every count at least one. *)
Theorem ucb_counts_start_at_one :
  visits ucb_init = [1; 1] /\
  (forall b g, counted b ->
     exists b' g' a v,
       ucb_round b g = Done (b', g') /\ counted b' /\
       visits b !! a = Some v /\
       visits b' = <[a := v + 1]> (visits b) /\
       trace_a b' = trace_a b ++ [a]) /\
  (forall N g,
     exists b' g',
       ucb_run N g = Done (b', g') /\
       Forall (fun v => 1 <= v) (visits b') /\
       length (trace_a b') = N).
Proof.
  split; [done |]. split; [apply ucb_round_counted |].
  intros N g. destruct (ucb_loop_counted N ucb_init g ucb_init_counted)
    as (b' & g' & Hrun & (_ & _ & Hpos) & Hlen).
  exists b', g'. split; [done |]. split; [done |]. by rewrite Hlen.
Qed.

End WithGenerator.

(** *** An arm left unpulled *)

(** A generator whose normal draw is always one above the mean. *)
Definition lucky (g : unit) (mu : R) : R * unit := (mu + 1, g).

Lemma np_divide_pair a1 a2 b1 b2 :
  b1 <> 0 -> b2 <> 0 -> np_divide [a1; a2] [b1; b2] = Done [a1 / b1; a2 / b2].
Proof.
  intros H1 H2. simpl.
  destruct (Req_dec_T b1 0); [done |]. destruct (Req_dec_T b2 0); [done |]. done.
Qed.

Lemma np_divide_scalar_pair c b1 b2 :
  b1 <> 0 -> b2 <> 0 -> np_divide_scalar c [b1; b2] = Done [c / b1; c / b2].
Proof.
  intros H1 H2. simpl.
  destruct (Req_dec_T b1 0); [done |]. destruct (Req_dec_T b2 0); [done |]. done.
Qed.

Lemma np_argmax_pair_first x y : y <= x -> np_argmax_real [x; y] = Done 0%nat.
Proof. intros Hle. simpl. destruct (Rlt_dec x y); [lra | done]. Qed.

Lemma bonus_numerator : 2 * ln (1 / delta_default) = 8.
Proof.
  unfold delta_default.
  replace (1 / (1 / exp 4)) with (exp 4).
  - rewrite ln_exp. lra.
  - field. pose proof (exp_pos 4). lra.
Qed.

Lemma sqrt_4 : sqrt 4 = 2.
Proof. replace 4 with (2 * 2) by lra. apply sqrt_square. lra. Qed.

Lemma sqrt_8_lt_3 : sqrt 8 < 3.
Proof.
  replace 3 with (sqrt (3 * 3)) by (apply sqrt_square; lra).
  apply sqrt_lt_1; lra.
Qed.

Lemma lucky_round_1 :
  ucb_round lucky ucb_init tt
  = Done ({| visits := [1 + 1; 1]; rewards := [0 + (1 + 1); 0]; trace_a := [0%nat] |}, tt).
Proof.
  unfold ucb_round, expl_bonus, ucb_init, visits, rewards, trace_a.
  rewrite np_divide_pair by lra. rewrite bind_Done_l.
  rewrite np_divide_scalar_pair by lra. rewrite !bind_Done_l.
  unfold map, zip_with. rewrite np_argmax_pair_first by lra.
  reflexivity.
Qed.

Lemma lucky_round_2 :
  ucb_round lucky
    {| visits := [1 + 1; 1]; rewards := [0 + (1 + 1); 0]; trace_a := [0%nat] |} tt
  = Done ({| visits := [1 + 1 + 1; 1]; rewards := [0 + (1 + 1) + (1 + 1); 0];
             trace_a := [0%nat; 0%nat] |}, tt).
Proof.
  unfold ucb_round, expl_bonus, visits, rewards, trace_a.
  rewrite np_divide_pair by lra. rewrite bind_Done_l.
  rewrite np_divide_scalar_pair by lra. rewrite !bind_Done_l.
  unfold map, zip_with. rewrite np_argmax_pair_first; [reflexivity |].
  rewrite bonus_numerator.
  replace (8 / (1 + 1)) with 4 by lra. replace (8 / 1) with 8 by lra.
  rewrite sqrt_4. pose proof sqrt_8_lt_3. lra.
Qed.

(** C6 fails as stated: after two rounds on the two arms, with first
    rewards one above the mean, arm 1 has not been pulled once, its
    count still being the initial one. *)
Lemma ucb_second_arm_unpulled :
  exists b',
    ucb_run lucky 2 tt = Done (b', tt) /\
    trace_a b' = [0%nat; 0%nat] /\ (1%nat ∉ trace_a b') /\
    visits b' !! 1%nat = Some 1.
Proof.
  eexists. unfold ucb_run, ucb_loop.
  rewrite lucky_round_1, bind_Done_l. cbv beta iota.
  rewrite lucky_round_2, bind_Done_l. cbv beta iota.
  split; [reflexivity |]. split; [reflexivity |]. split; [|reflexivity].
  simpl. intros [Hx|Hx%list_elem_of_singleton]%elem_of_cons; discriminate.
Qed.

End UCB.


(** ** Thompson sampling notebook *)

Module Thompson.

(** The success probabilities of the two arms, [mus = [.5, .55]]. *)
Definition mus : list Q := [5 # 10; 55 # 100].

Record thompson_state := {
  alphas : list Q;
  betas : list Q;
  ks : list Q;
  ss : list Q;
  trace_a : list nat
}.

(** [alphas = betas = np.ones(2)], [ks = ss = np.zeros(2)]. *)
Definition thompson_init : thompson_state :=
  {| alphas := [1; 1]; betas := [1; 1]; ks := [0; 0]; ss := [0; 0]; trace_a := [] |}.

Section WithGenerator.
Context {Gen : Type} `{NumpyRandom Gen}.

(** One pass of the loop body. *)
Definition thompson_round (b : thompson_state) (g : Gen) : outcome (thompson_state * Gen) :=
  a_par ← np_broadcast Qplus (alphas b) (ss b);
  bk ← np_broadcast Qplus (betas b) (ks b);
  b_par ← np_broadcast Qminus bk (ss b);
  '(succ_probs, g1) ← np_random_beta a_par b_par g;
  a ← np_argmax succ_probs;
  let '(u, g2) := rng_rand g1 in
  mu ← index mus a;
  let r := Qlt_bool u mu in
  k ← index (ks b) a;
  ks1 ← assign (ks b) a (k + 1);
  s ← index (ss b) a;
  ss1 ← assign (ss b) a (s + (if r then 1 else 0));
  Done ({| alphas := alphas b; betas := betas b; ks := ks1; ss := ss1;
           trace_a := trace_a b ++ [a] |}, g2).

(** [for _ in range(N)]. *)
Fixpoint thompson_loop (N : nat) (b : thompson_state) (g : Gen) : outcome (thompson_state * Gen) :=
  match N with
  | O => Done (b, g)
  | S n => '(b1, g1) ← thompson_round b g; thompson_loop n b1 g1
  end.

(** *** What one round does *)

(** One entry per arm in every vector, positive priors, and no more
    successes than trials. *)
Definition posterior (b : thompson_state) : Prop :=
  length (alphas b) = length mus /\ length (betas b) = length mus /\
  length (ks b) = length mus /\ length (ss b) = length mus /\
  Forall (fun x => 0 < x) (alphas b) /\ Forall (fun x => 0 < x) (betas b) /\
  Forall2 (fun s k => 0 <= s /\ s <= k) (ss b) (ks b).

(** The parameters handed to the Beta sampler. *)
Definition beta_params (b : thompson_state) : list (Q * Q) :=
  zip_with pair (zip_with Qplus (alphas b) (ss b))
                (zip_with Qminus (zip_with Qplus (betas b) (ks b)) (ss b)).

Lemma np_broadcast_same {A B C} (op : A -> B -> C) x y :
  length x = length y -> np_broadcast op x y = Done (zip_with op x y).
Proof. intros Hlen. unfold np_broadcast. by rewrite decide_True. Qed.

Lemma Qlt_bool_iff x y : Qlt_bool x y = true <-> x < y.
Proof.
  unfold Qlt_bool. rewrite negb_true_iff. split.
  - intros Hle. apply Qnot_le_lt. intros Hyx%Qle_bool_iff. congruence.
  - intros Hlt. destruct (Qle_bool y x) eqn:Hle; [|done].
    apply Qle_bool_iff in Hle. by apply Qlt_not_le in Hlt.
Qed.

Lemma beta_params_lookup b i al be k s :
  alphas b !! i = Some al -> betas b !! i = Some be ->
  ks b !! i = Some k -> ss b !! i = Some s ->
  beta_params b !! i = Some (al + s, be + k - s).
Proof.
  intros Ha Hb Hk Hs. unfold beta_params.
  rewrite !lookup_zip_with, Ha, Hb, Hk, Hs. done.
Qed.

Lemma beta_params_length b : posterior b -> length (beta_params b) = length mus.
Proof.
  intros (Ha & Hb & Hk & Hs & _). unfold beta_params.
  rewrite !length_zip_with. lia.
Qed.

Lemma beta_params_positive b :
  posterior b ->
  forallb (fun p : Q * Q => Qlt_bool 0 p.1 && Qlt_bool 0 p.2) (beta_params b) = true.
Proof.
  intros Hpost. pose proof (beta_params_length b Hpost) as Hlen.
  destruct Hpost as (Ha & Hb & Hk & Hs & Hal & Hbe & Hsk).
  apply forallb_forall. intros p [i Hi]%list_elem_of_In%list_elem_of_lookup_1.
  pose proof (lookup_lt_Some _ _ _ Hi) as Hlt. rewrite Hlen in Hlt.
  destruct (lookup_lt_is_Some_2 (alphas b) i) as [al Hial]; [lia |].
  destruct (lookup_lt_is_Some_2 (betas b) i) as [be Hibe]; [lia |].
  destruct (lookup_lt_is_Some_2 (ks b) i) as [k Hik]; [lia |].
  destruct (lookup_lt_is_Some_2 (ss b) i) as [s His]; [lia |].
  rewrite (beta_params_lookup b i al be k s) in Hi by done. injection Hi as <-.
  pose proof (Forall_lookup_1 _ _ _ _ Hal Hial) as Hal0.
  pose proof (Forall_lookup_1 _ _ _ _ Hbe Hibe) as Hbe0.
  destruct (Forall2_lookup_lr _ _ _ _ _ _ Hsk His Hik) as [Hs0 Hsle].
  simpl in *. apply andb_true_iff. split; apply Qlt_bool_iff; Lqa.lra.
Qed.

(** The counts after arm [a] was pulled with outcome [r]. *)
Definition pulled (b : thompson_state) (a : nat) (k s : Q) (r : bool) : thompson_state :=
  {| alphas := alphas b; betas := betas b;
     ks := <[a := k + 1]> (ks b);
     ss := <[a := s + (if r then 1 else 0)]> (ss b);
     trace_a := trace_a b ++ [a] |}.

(** What one round computes, from a well-formed start. *)
Lemma thompson_round_Done (b : thompson_state) (g : Gen) :
  posterior b ->
  exists a mu k s,
    np_argmax (rng_beta (beta_params b) g).1 = Done a /\
    mus !! a = Some mu /\ ks b !! a = Some k /\ ss b !! a = Some s /\
    thompson_round b g =
    Done (pulled b a k s (Qlt_bool (rng_rand (rng_beta (beta_params b) g).2).1 mu),
          (rng_rand (rng_beta (beta_params b) g).2).2).
Proof.
  intros Hpost. pose proof (beta_params_length b Hpost) as Hplen.
  pose proof (beta_params_positive b Hpost) as Hppos.
  destruct Hpost as (Ha & Hb & Hk & Hs & _).
  unfold thompson_round.
  rewrite (np_broadcast_same Qplus (alphas b) (ss b)) by lia. rewrite bind_Done_l.
  rewrite (np_broadcast_same Qplus (betas b) (ks b)) by lia. rewrite bind_Done_l.
  rewrite (np_broadcast_same Qminus) by (rewrite length_zip_with; lia).
  rewrite bind_Done_l. unfold np_random_beta.
  rewrite (np_broadcast_same pair) by (rewrite !length_zip_with; lia).
  rewrite bind_Done_l. fold (beta_params b). rewrite Hppos.
  pose proof (rng_beta_length (beta_params b) g) as Htheta.
  destruct (rng_beta (beta_params b) g) as [theta g1]. simpl in Htheta.
  rewrite bind_Done_l. cbn [fst snd].
  destruct (np_argmax_nonempty theta) as [a Harg]; [rewrite Htheta, Hplen; simpl; lia |].
  rewrite Harg, bind_Done_l.
  pose proof Harg as (Halt & _)%np_argmax_Done. rewrite Htheta, Hplen in Halt.
  destruct (rng_rand g1) as [u g2]. cbn [fst snd].
  destruct (index_lt mus a Halt) as (mu & -> & Hmu). rewrite bind_Done_l.
  destruct (index_lt (ks b) a) as (k & -> & Hka); [lia |]. rewrite bind_Done_l.
  unfold assign. rewrite decide_True by lia. rewrite bind_Done_l.
  destruct (index_lt (ss b) a) as (s & -> & Hsa); [lia |]. rewrite bind_Done_l.
  rewrite decide_True by lia. rewrite bind_Done_l.
  by exists a, mu, k, s.
Qed.

(** A pull keeps the counts well formed. *)
Lemma posterior_pulled b a k s r :
  posterior b -> ks b !! a = Some k -> ss b !! a = Some s ->
  posterior (pulled b a k s r).
Proof.
  intros (Ha & Hb & Hk & Hs & Hal & Hbe & Hsk) Hka Hsa. unfold pulled.
  split; [done |]. split; [done |]. simpl.
  split; [by rewrite length_insert |]. split; [by rewrite length_insert |].
  split; [done |]. split; [done |].
  apply Forall2_insert; [done |].
  destruct (Forall2_lookup_lr _ _ _ _ _ _ Hsk Hsa Hka) as [Hs0 Hsle].
  destruct r; Lqa.lra.
Qed.

(** C7. In a round started with one entry per arm, positive priors and
    no more successes than trials: the Beta sampler is called once, on
    the parameter pairs [(alphas[i] + ss[i], betas[i] + ks[i] - ss[i])],
    one per arm; the arm [a] pulled is the first one with the largest
    of the values [theta] drawn; the pair of arm [a] alone is updated,
    once, [ks[a]] by one and [ss[a]] by the outcome of the pull; the
    other entries, the priors and the earlier trace are as before; and
    the next round starts under the same conditions. *)
Theorem thompson_round_posterior (b : thompson_state) (g : Gen) :
  posterior b ->
  exists a b' g',
    thompson_round b g = Done (b', g') /\ posterior b' /\
    length (beta_params b) = length mus /\
    (forall i al be k s,
       alphas b !! i = Some al -> betas b !! i = Some be ->
       ks b !! i = Some k -> ss b !! i = Some s ->
       beta_params b !! i = Some (al + s, be + k - s)) /\
    (let theta := (rng_beta (beta_params b) g).1 in
     exists v, theta !! a = Some v /\
       (forall j w, theta !! j = Some w -> w <= v) /\
       (forall j w, (j < a)%nat -> theta !! j = Some w -> w < v)) /\
    (let g1 := (rng_beta (beta_params b) g).2 in
     let u := (rng_rand g1).1 in
     g' = (rng_rand g1).2 /\
     exists mu k s,
       mus !! a = Some mu /\ ks b !! a = Some k /\ ss b !! a = Some s /\
       ks b' = <[a := k + 1]> (ks b) /\
       ss b' = <[a := s + (if Qlt_bool u mu then 1 else 0)]> (ss b)) /\
    (forall i, i <> a -> ks b' !! i = ks b !! i /\ ss b' !! i = ss b !! i) /\
    alphas b' = alphas b /\ betas b' = betas b /\
    trace_a b' = trace_a b ++ [a].
Proof.
  intros Hpost.
  destruct (thompson_round_Done b g Hpost) as (a & mu & k & s & Harg & Hmu & Hk & Hs & Hrun).
  eexists a, _, _. split; [exact Hrun |].
  split; [by apply posterior_pulled |].
  split; [by apply beta_params_length |].
  split; [apply beta_params_lookup |].
  split.
  { apply np_argmax_Done in Harg as (_ & v & Hv & Hub & Hfirst). by exists v. }
  split; [split; [done | by exists mu, k, s] |].
  split; [|done]. intros i Hne. simpl. by rewrite !list_lookup_insert_ne.
Qed.

(** Hence a run of any number of rounds from the initial counts
    completes. *)
Lemma thompson_init_posterior : posterior thompson_init.
Proof.
  repeat (split; [done |]). simpl.
  split; [repeat constructor |]. split; [repeat constructor |].
  repeat constructor; Lqa.lra.
Qed.

Lemma thompson_loop_total N : forall b g,
  posterior b ->
  exists b' g', thompson_loop N b g = Done (b', g') /\ posterior b' /\
                length (trace_a b') = (length (trace_a b) + N)%nat.
Proof.
  induction N as [|N IH]; intros b g Hb; simpl.
  - exists b, g. split; [done |]. split; [done | lia].
  - destruct (thompson_round_Done b g Hb) as (a & mu & k & s & _ & _ & Hk & Hs & ->).
    simpl. edestruct IH as (b' & g' & -> & Hb' & Hlen);
      [by apply (posterior_pulled b a k s) |].
    exists b', g'. split; [done |]. split; [done |].
    rewrite Hlen. simpl. rewrite length_app. simpl. lia.
Qed.

End WithGenerator.

Lemma thompson_round_posterior_witness :
  exists a b' g',
    thompson_round thompson_init ([3 # 10; 6 # 10; 4 # 10] : Fixtures.tape) = Done (b', g') /\
    posterior b' /\
    trace_a b' = trace_a thompson_init ++ [a].
Proof.
  destruct (thompson_round_posterior thompson_init
              ([3 # 10; 6 # 10; 4 # 10] : Fixtures.tape) thompson_init_posterior)
    as (a & b' & g' & Hrun & Hpost & _ & _ & _ & _ & _ & _ & _ & Htrace).
  by exists a, b', g'.
Defined.

End Thompson.


(** ** Policy-gradient notebook: the two weightings and [play_mdp] *)

Module PolicyGradient.

(** In [play_mdp] the rewards of an episode are the Python ints
    [episode_rs += [1]]. Python adds ints exactly; numpy reads a list of
    ints that fit its default integer as an [int64] array and adds with
    wrap-around. *)
Definition int64 (z : Z) : Prop := (- 2 ^ 63 <= z < 2 ^ 63)%Z.

Definition int64_wrap (z : Z) : Z := ((z + 2 ^ 63) mod 2 ^ 64 - 2 ^ 63)%Z.

(** The exact sum of a list of ints. *)
Definition Zsum (l : list Z) : Z := foldr Z.add 0%Z l.

(** [np.sum(l)] of a list of ints within [int64]: the reduction of the
    [int64] array, every addition wrapping around. *)
Definition np_sum (l : list Z) : Z := foldl (fun acc x => int64_wrap (acc + x)) 0%Z l.

(** [np.mean(l)] of a list of [int64] numbers: numpy adds them as
    floats, which are exact rationals here, and divides by their
    number. *)
Definition np_mean (l : list Z) : Q := inject_Z (Zsum l) / inject_Z (Z.of_nat (length l)).

(** [vanilla_pg(episode_rs)]: [[np.sum(episode_rs)] * len(episode_rs)]. *)
Definition vanilla_pg (episode_rs : list Z) : list Z :=
  replicate (length episode_rs) (np_sum episode_rs).

Lemma Qsum_app l1 l2 : Qsum (l1 ++ l2) == Qsum l1 + Qsum l2.
Proof.
  induction l1 as [|x l1 IH]; simpl.
  - change (Qsum l2 == 0 + Qsum l2). ring.
  - change (x + Qsum (l1 ++ l2) == x + Qsum l1 + Qsum l2). rewrite IH. ring.
Qed.

Lemma Qsum_nonneg l : Forall (fun r => 0 <= r) l -> 0 <= Qsum l.
Proof.
  induction 1 as [|x l Hx _ IH]; [apply Qle_refl |].
  change (0 <= x + Qsum l). Lqa.lra.
Qed.

Lemma int64_wrap_id z : int64 z -> int64_wrap z = z.
Proof.
  unfold int64, int64_wrap. intros Hz. rewrite Z.mod_small by lia. lia.
Qed.

Lemma int64_wrap_add a b : int64_wrap (int64_wrap a + b) = int64_wrap (a + b).
Proof.
  unfold int64_wrap. f_equal.
  replace ((a + 2 ^ 63) mod 2 ^ 64 - 2 ^ 63 + b + 2 ^ 63)%Z
    with ((a + 2 ^ 63) mod 2 ^ 64 + b)%Z by lia.
  rewrite Zplus_mod_idemp_l. f_equal. lia.
Qed.

Lemma np_sum_wrap l : np_sum l = int64_wrap (Zsum l).
Proof.
  unfold np_sum. change 0%Z with (int64_wrap 0) at 1.
  replace (Zsum l) with (0 + Zsum l)%Z by lia. generalize 0%Z.
  induction l as [|x l IH]; intros acc; simpl.
  - by rewrite Z.add_0_r.
  - rewrite int64_wrap_add, IH. f_equal. unfold Zsum. simpl. lia.
Qed.

Lemma Zsum_app l1 l2 : Zsum (l1 ++ l2) = (Zsum l1 + Zsum l2)%Z.
Proof.
  induction l1 as [|x l1 IH]; [done |]. unfold Zsum in *. simpl. rewrite IH. lia.
Qed.

Lemma Zsum_nonneg l : Forall (fun r => (0 <= r)%Z) l -> (0 <= Zsum l)%Z.
Proof.
  induction 1 as [|x l Hx _ IH]; [done |]. unfold Zsum in *. simpl. lia.
Qed.

Lemma Qsum_inject l : Qsum (map inject_Z l) == inject_Z (Zsum l).
Proof.
  induction l as [|x l IH]; [reflexivity |].
  change (inject_Z x + Qsum (map inject_Z l) == inject_Z (x + Zsum l)).
  rewrite IH, inject_Z_plus. reflexivity.
Qed.

(** What [rtg] returns on a list of ints: the exact sums of the
    rewards still to come. *)
Lemma rtg_ints (rs : list Z) :
  exists G : list Q,
    RewardToGo.rtg (map inject_Z rs) = Done G /\ length G = length rs /\
    forall i g, G !! i = Some g -> g == inject_Z (Zsum (drop i rs)).
Proof.
  destruct (RewardToGo.rtg_filled (map inject_Z rs)) as (G & HG & Hlen & Hfill).
  rewrite length_map in Hlen, Hfill.
  exists G. split; [done |]. split; [done |]. intros i g Hg.
  pose proof (lookup_lt_Some _ _ _ Hg) as Hi.
  rewrite Hfill in Hg by lia. injection Hg as <-.
  rewrite <- fmap_drop. apply Qsum_inject.
Qed.

(** On rewards that are ints within [int64]: [rtg] returns the exact
    sums of the rewards to come, while the weight of [vanilla_pg] is
    the sum of all the rewards wrapped around to 64 bits. As long as
    the total fits in 64 bits, the reward to go is the total less the
    rewards already received: at every position [i] the weight of
    [vanilla_pg] is the sum of the first [i] rewards plus the weight of
    [rtg], and the two weightings agree at position 0. *)
Theorem rtg_is_total_less_past (rs : list Z) :
  Forall int64 rs ->
  exists G : list Q,
    RewardToGo.rtg (map inject_Z rs) = Done G /\
    length G = length (vanilla_pg rs) /\
    (forall i g w, G !! i = Some g -> vanilla_pg rs !! i = Some w ->
       g == inject_Z (Zsum (drop i rs)) /\
       w = int64_wrap (Zsum (take i rs) + Zsum (drop i rs))) /\
    (int64 (Zsum rs) ->
       (forall i g w, G !! i = Some g -> vanilla_pg rs !! i = Some w ->
          inject_Z w == inject_Z (Zsum (take i rs)) + g) /\
       (forall g w, G !! 0%nat = Some g -> vanilla_pg rs !! 0%nat = Some w ->
          g == inject_Z w)).
Proof.
  intros _. destruct (rtg_ints rs) as (G & HG & Hlen & Hfill).
  assert (Hw : forall (i : nat) w, vanilla_pg rs !! i = Some w ->
                 w = int64_wrap (Zsum (take i rs) + Zsum (drop i rs))).
  { intros i w Hi. apply lookup_replicate in Hi as [-> _].
    by rewrite np_sum_wrap, <- Zsum_app, take_drop. }
  exists G. split; [done |].
  split; [unfold vanilla_pg; by rewrite length_replicate |]. split.
  - intros i g w Hg Hi. split; [by apply Hfill | by apply Hw].
  - intros Hfit.
    assert (Hrel : forall (i : nat) g w, G !! i = Some g -> vanilla_pg rs !! i = Some w ->
                     inject_Z w == inject_Z (Zsum (take i rs)) + g).
    { intros i g w Hg Hi. rewrite (Hfill i g Hg), (Hw i w Hi).
      rewrite <- Zsum_app, take_drop, (int64_wrap_id _ Hfit).
      rewrite <- inject_Z_plus, <- Zsum_app, take_drop. reflexivity. }
    split; [done |]. intros g w Hg Hi.
    rewrite (Hrel 0%nat g w Hg Hi). unfold Zsum. simpl. ring.
Qed.

Lemma rtg_is_total_less_past_witness :
  exists G : list Q,
    RewardToGo.rtg (map inject_Z [1; 0; 2]%Z) = Done G /\
    length G = length (vanilla_pg [1; 0; 2]%Z).
Proof.
  destruct (rtg_is_total_less_past [1; 0; 2]%Z) as (G & HG & Hlen & _).
  - repeat constructor; unfold int64; lia.
  - by exists G.
Defined.

(** With int rewards that are not negative and whose total fits in 64
    bits, the rewards to go lie between 0 and the weight of
    [vanilla_pg], and do not increase along the episode. *)
Theorem rtg_decreases (rs : list Z) :
  Forall (fun r => (0 <= r)%Z) rs -> (Zsum rs < 2 ^ 63)%Z ->
  exists G : list Q,
    RewardToGo.rtg (map inject_Z rs) = Done G /\
    (forall i g, G !! i = Some g -> 0 <= g /\ g <= inject_Z (np_sum rs)) /\
    (forall i g g', G !! i = Some g -> G !! S i = Some g' -> g' <= g).
Proof.
  intros Hpos Hfit. destruct (rtg_ints rs) as (G & HG & Hlen & Hfill).
  pose proof (Zsum_nonneg rs Hpos) as Htot.
  exists G. split; [done |]. split.
  - intros i g Hg. rewrite (Hfill i g Hg).
    pose proof (Zsum_nonneg _ (Forall_drop _ i _ Hpos)) as Hd.
    pose proof (Zsum_nonneg _ (Forall_take _ i _ Hpos)) as Ht.
    pose proof (Zsum_app (take i rs) (drop i rs)) as Happ. rewrite take_drop in Happ.
    rewrite np_sum_wrap, int64_wrap_id by (unfold int64; lia).
    split.
    + change 0 with (inject_Z 0). rewrite <- Zle_Qle. done.
    + rewrite <- Zle_Qle. lia.
  - intros i g g' Hg Hg'. pose proof (lookup_lt_Some _ _ _ Hg') as Hi.
    rewrite (Hfill i g Hg), (Hfill (S i) g' Hg'). rewrite <- Zle_Qle.
    destruct (lookup_lt_is_Some_2 rs i) as [r Hr]; [lia |].
    rewrite (drop_S _ _ _ Hr).
    pose proof (Forall_lookup_1 _ _ _ _ Hpos Hr) as Hr0. simpl in Hr0.
    unfold Zsum. simpl. lia.
Qed.

Lemma rtg_decreases_witness :
  exists G : list Q,
    RewardToGo.rtg (map inject_Z [1; 0; 2]%Z) = Done G /\
    (forall i g, G !! i = Some g -> 0 <= g /\ g <= inject_Z (np_sum [1; 0; 2]%Z)) /\
    (forall i g g', G !! i = Some g -> G !! S i = Some g' -> g' <= g).
Proof.
  refine (rtg_decreases [1; 0; 2]%Z _ _).
  - repeat constructor; lia.
  - vm_compute. reflexivity.
Defined.

(** *** Collecting a batch: [play_mdp] *)

Section PlayMdp.
Context {Obs E Gen : Type}.
(** [env.reset()] and [env.step(a)] on observations of any kind, the
    sampling [sess.run(policy_net, {placeholder: s.reshape(1, -1)})[0]]
    of the policy network, and the weight function. *)
Variable env_reset : E -> Obs * E.
Variable env_step : E -> action -> Obs * Q * bool * E.
Variable policy_net : Gen -> Obs -> action * Gen.
Variable weights : list Z -> outcome (list Q).

(** The [while True] loop. Every step counts 1 in [episode_rs]; when an
    episode ends its weights are appended, and the loop is left once
    more than [batch_size] state-action pairs are stored. The result is
    the printed mean of [trace_episode_rs] and the three lists. *)
Fixpoint play_loop (fuel : nat) (batch_size : nat)
    (episode_rs trace_episode_rs : list Z)
    (batch_ss : list Obs) (batch_as : list action) (batch_ws : list Q)
    (s : Obs) (e : E) (g : Gen)
  : outcome (Q * (list Obs * list action * list Q) * E * Gen) :=
  match fuel with
  | O => OutOfFuel
  | S fuel' =>
      let '(a, g1) := policy_net g s in
      let batch_ss := batch_ss ++ [s] in
      let batch_as := batch_as ++ [a] in
      let '(s1, _, done, e1) := env_step e a in
      let episode_rs := episode_rs ++ [1%Z] in
      if done then
        let trace_episode_rs := trace_episode_rs ++ [np_sum episode_rs] in
        ws ← weights episode_rs;
        let batch_ws := batch_ws ++ ws in
        let '(s2, e2) := env_reset e1 in
        let episode_rs := [] in
        if decide (batch_size < length batch_ss)%nat then
          Done (np_mean trace_episode_rs, (batch_ss, batch_as, batch_ws), e2, g1)
        else play_loop fuel' batch_size episode_rs trace_episode_rs
               batch_ss batch_as batch_ws s2 e2 g1
      else play_loop fuel' batch_size episode_rs trace_episode_rs
             batch_ss batch_as batch_ws s1 e1 g1
  end.

Definition play_mdp (fuel : nat) (batch_size : nat) (e : E) (g : Gen)
  : outcome (Q * (list Obs * list action * list Q) * E * Gen) :=
  let '(s, e0) := env_reset e in
  play_loop fuel batch_size [] [] [] [] [] s e0 g.

(** The weight function gives one weight per reward. *)
Definition one_weight_each : Prop :=
  forall rs ws, weights rs = Done ws -> length ws = length rs.

(** The episodes of a batch as the environment and the network see
    them, without reference to the loop. With [n] pairs stored so far
    and the observation [s] at hand, [collects batch_size n s e g eps e' g']
    lists the episodes played from here on, each as its pairs of
    observation and action, the first being what is left of the episode
    under way: every pair is the observation at hand with the action the
    network draws for it; a step that does not signal [done] continues
    the episode; a step that signals [done] ends it and is followed by
    [env.reset()], and it is the last of the batch exactly when more than
    [batch_size] pairs are then stored. *)
Inductive collects (batch_size : nat)
  : nat -> Obs -> E -> Gen -> list (list (Obs * action)) -> E -> Gen -> Prop :=
| collects_step n s e g a g1 s1 r e1 steps eps e' g' :
    policy_net g s = (a, g1) -> env_step e a = (s1, r, false, e1) ->
    collects batch_size (S n) s1 e1 g1 (steps :: eps) e' g' ->
    collects batch_size n s e g (((s, a) :: steps) :: eps) e' g'
| collects_next n s e g a g1 s1 r e1 eps e' g' :
    policy_net g s = (a, g1) -> env_step e a = (s1, r, true, e1) ->
    (S n <= batch_size)%nat ->
    collects batch_size (S n) (env_reset e1).1 (env_reset e1).2 g1 eps e' g' ->
    collects batch_size n s e g ([(s, a)] :: eps) e' g'
| collects_last n s e g a g1 s1 r e1 :
    policy_net g s = (a, g1) -> env_step e a = (s1, r, true, e1) ->
    (batch_size < S n)%nat ->
    collects batch_size n s e g [[(s, a)]] (env_reset e1).2 g1.

(** The rewards [[1, ..., 1]] of an episode, what [np.sum] makes of
    them, and its weights. *)
Definition ones (steps : list (Obs * action)) : list Z := replicate (length steps) 1%Z.

Definition episode_total (steps : list (Obs * action)) : Z := np_sum (ones steps).

Definition weighted (steps : list (Obs * action)) (ws : list Q) : Prop :=
  weights (ones steps) = Done ws.

Lemma ones_snoc steps x : ones (steps ++ [x]) = ones steps ++ [1%Z].
Proof. unfold ones. rewrite length_app. simpl. by rewrite Nat.add_1_r, replicate_S_end. Qed.

Lemma concat_snoc {A} (ls : list (list A)) (l : list A) : concat (ls ++ [l]) = concat ls ++ l.
Proof. rewrite concat_app. simpl. by rewrite app_nil_r. Qed.

(** The loop variables between two passes, [deps] being the episodes
    played and [cur] the pairs of the episode under way. *)
Definition loop_state (deps : list (list (Obs * action))) (cur : list (Obs * action))
    (wsd : list (list Q)) (episode_rs trace_episode_rs : list Z)
    (batch_ss : list Obs) (batch_as : list action) (batch_ws : list Q) : Prop :=
  episode_rs = ones cur /\
  trace_episode_rs = map episode_total deps /\
  batch_ss = map fst (concat deps ++ cur) /\
  batch_as = map snd (concat deps ++ cur) /\
  batch_ws = concat wsd /\
  Forall2 weighted deps wsd.

Lemma play_loop_collects fuel batch_size :
  forall deps cur wsd episode_rs trace_episode_rs batch_ss batch_as batch_ws s e g
         mean ss acts ws e' g',
    loop_state deps cur wsd episode_rs trace_episode_rs batch_ss batch_as batch_ws ->
    play_loop fuel batch_size episode_rs trace_episode_rs
      batch_ss batch_as batch_ws s e g = Done (mean, (ss, acts, ws), e', g') ->
    exists steps eps wss,
      collects batch_size (length batch_ss) s e g (steps :: eps) e' g' /\
      ss = map fst (concat (deps ++ (cur ++ steps) :: eps)) /\
      acts = map snd (concat (deps ++ (cur ++ steps) :: eps)) /\
      Forall2 weighted (deps ++ (cur ++ steps) :: eps) wss /\
      ws = concat wss /\
      mean = np_mean (map episode_total (deps ++ (cur ++ steps) :: eps)).
Proof.
  induction fuel as [|fuel IH];
    intros deps cur wsd episode_rs trace_episode_rs batch_ss batch_as batch_ws s e g
           mean ss acts ws e' g' (Hrs & Htrace & Hss & Has & Hws & Hwsd) Hrun;
    simpl in Hrun; [discriminate |].
  destruct (policy_net g s) as [a g1] eqn:Hnet.
  destruct (env_step e a) as [[[s1 r] done] e1] eqn:Hstep.
  assert (Hss1 : batch_ss ++ [s] = map fst (concat deps ++ cur ++ [(s, a)])).
  { rewrite Hss, !map_app. by rewrite <- (assoc_L (++)). }
  assert (Has1 : batch_as ++ [a] = map snd (concat deps ++ cur ++ [(s, a)])).
  { rewrite Has, !map_app. by rewrite <- (assoc_L (++)). }
  assert (Hrs1 : episode_rs ++ [1%Z] = ones (cur ++ [(s, a)])).
  { by rewrite Hrs, ones_snoc. }
  destruct done.
  - inv_bind Hrun. rename v into ws1. rewrite Hrs1 in E0.
    destruct (env_reset e1) as [s2 e2] eqn:Hreset.
    assert (Hst : loop_state (deps ++ [cur ++ [(s, a)]]) [] (wsd ++ [ws1]) []
                    (trace_episode_rs ++ [np_sum (episode_rs ++ [1%Z])])
                    (batch_ss ++ [s]) (batch_as ++ [a]) (batch_ws ++ ws1)).
    { split; [done |]. split; [by rewrite Htrace, map_app, Hrs1 |].
      rewrite concat_snoc, app_nil_r.
      split; [done |]. split; [done |]. split; [by rewrite Hws, concat_snoc |].
      apply Forall2_app; [done |]. by constructor. }
    destruct (decide (batch_size < length (batch_ss ++ [s]))%nat) as [Hbig|Hsmall].
    + injection Hrun as <- <- <- <- <- <-.
      destruct Hst as (_ & Htrace' & Hss' & Has' & Hws' & Hwsd').
      rewrite app_nil_r in Hss', Has'.
      exists [(s, a)], [], (wsd ++ [ws1]).
      split.
      { replace e2 with (env_reset e1).2 by (by rewrite Hreset).
        eapply collects_last; [done | done |].
        rewrite length_app in Hbig. simpl in Hbig. lia. }
      split; [done |]. split; [done |]. split; [done |]. split; [done |].
      by rewrite Htrace'.
    + destruct (IH _ _ _ _ _ _ _ _ _ _ _ _ _ _ _ _ _ Hst Hrun)
        as (steps & eps & wss & Hcol & -> & -> & Hw & -> & ->).
      exists [(s, a)], (steps :: eps), wss.
      rewrite <- !app_assoc in *. simpl in *.
      split; [|done].
      eapply collects_next; [done | done | |].
      * rewrite length_app in Hsmall. simpl in Hsmall. lia.
      * rewrite Hreset. simpl. rewrite length_app in Hcol. simpl in Hcol.
        by rewrite Nat.add_1_r in Hcol.
  - assert (Hst : loop_state deps (cur ++ [(s, a)]) wsd (episode_rs ++ [1%Z])
                    trace_episode_rs (batch_ss ++ [s]) (batch_as ++ [a]) batch_ws).
    { done. }
    destruct (IH _ _ _ _ _ _ _ _ _ _ _ _ _ _ _ _ _ Hst Hrun)
      as (steps & eps & wss & Hcol & -> & -> & Hw & -> & ->).
    exists ((s, a) :: steps), eps, wss.
    rewrite <- !app_assoc in *. simpl in *.
    split; [|done].
    eapply collects_step; [done | done |].
    rewrite length_app in Hcol. simpl in Hcol. by rewrite Nat.add_1_r in Hcol.
Qed.

(** A batch ends on the first episode that brings the number of stored
    pairs above [batch_size]. *)
Lemma collects_full batch_size n s e g eps e' g' :
  collects batch_size n s e g eps e' g' ->
  (batch_size < n + length (concat eps))%nat /\ (0 < length eps)%nat /\
  Forall (fun steps => (0 < length steps)%nat) eps.
Proof.
  induction 1 as [n s e g a g1 s1 r e1 steps eps e' g' _ _ _ (IH1 & IH2 & IH3)
                 |n s e g a g1 s1 r e1 eps e' g' _ _ _ _ (IH1 & IH2 & IH3)
                 |n s e g a g1 s1 r e1 _ _ Hbig]; simpl in *.
  - split; [lia |]. split; [lia |].
    apply Forall_cons in IH3 as [_ IH3]. constructor; [simpl; lia | done].
  - split; [lia |]. split; [lia |]. constructor; [simpl; lia | done].
  - split; [lia |]. split; [lia |]. repeat constructor.
Qed.

Lemma episode_total_small steps :
  (Z.of_nat (length steps) < 2 ^ 63)%Z -> episode_total steps = Z.of_nat (length steps).
Proof.
  intros Hlen. unfold episode_total, ones. rewrite np_sum_wrap.
  assert (Hsum : forall n, Zsum (replicate n 1%Z) = Z.of_nat n).
  { induction n as [|n IHn]; [done |].
    change (Zsum (replicate (S n) 1%Z)) with (1 + Zsum (replicate n 1%Z))%Z. lia. }
  rewrite Hsum. apply int64_wrap_id. unfold int64. lia.
Qed.

Lemma Zsum_totals (eps : list (list (Obs * action))) :
  (Z.of_nat (length (concat eps)) < 2 ^ 63)%Z ->
  Zsum (map episode_total eps) = Z.of_nat (length (concat eps)).
Proof.
  induction eps as [|steps eps IH]; [done |]. simpl. rewrite length_app. intros Hlen.
  change (Zsum (episode_total steps :: map episode_total eps))
    with (episode_total steps + Zsum (map episode_total eps))%Z.
  rewrite IH by lia. rewrite episode_total_small by lia. lia.
Qed.

Lemma weights_cover :
  one_weight_each ->
  forall eps wss, Forall2 weighted eps wss -> length (concat wss) = length (concat eps).
Proof.
  intros Hone eps wss Hw. induction Hw as [|st w eps0 wss0 Hst _ IH]; [done |].
  simpl. rewrite !length_app, IH. f_equal.
  rewrite (Hone _ _ Hst). unfold ones. by rewrite length_replicate.
Qed.

(** A batch that [play_mdp] returns is made of whole episodes
    [episodes], played one after the other from [env.reset()] with the
    actions of the network, the last being the first that brings the
    number of stored pairs above [batch_size]: [batch_ss] and [batch_as]
    are their observations and actions in order, [batch_ws] the weights
    of [[1] * len(episode)] episode after episode, the environment is
    handed back after the last [env.reset()], and the printed mean is
    the mean of the episodes' totals [np.sum([1] * len(episode))]. So
    actions and observations are as many, more than [batch_size]; with
    fewer than [2 ^ 63] pairs the mean is their number over the number of
    episodes; and with one weight per reward the weights are as many as
    the observations. *)
Theorem play_mdp_batch_aligned (fuel batch_size : nat) (e : E) (g : Gen)
    (mean : Q) (ss : list Obs) (acts : list action) (ws : list Q)
    (e' : E) (g' : Gen) :
  play_mdp fuel batch_size e g = Done (mean, (ss, acts, ws), e', g') ->
  exists (episodes : list (list (Obs * action))) (wss : list (list Q)),
    collects batch_size 0 (env_reset e).1 (env_reset e).2 g episodes e' g' /\
    ss = map fst (concat episodes) /\ acts = map snd (concat episodes) /\
    Forall2 (fun steps w => weights (replicate (length steps) 1%Z) = Done w)
      episodes wss /\
    ws = concat wss /\
    mean = np_mean (map (fun steps => np_sum (replicate (length steps) 1%Z)) episodes) /\
    length acts = length ss /\ (batch_size < length ss)%nat /\
    (0 < length episodes)%nat /\
    ((Z.of_nat (length ss) < 2 ^ 63)%Z ->
     mean == inject_Z (Z.of_nat (length ss)) / inject_Z (Z.of_nat (length episodes))) /\
    (one_weight_each -> length ws = length ss).
Proof.
  intros Hrun. unfold play_mdp in Hrun. destruct (env_reset e) as [s e0]. simpl.
  destruct (play_loop_collects fuel batch_size [] [] [] [] [] [] [] [] s e0 g
              mean ss acts ws e' g')
    as (steps & eps & wss & Hcol & -> & -> & Hw & -> & ->); [|done |].
  { repeat split; done || constructor. }
  simpl in *. destruct (collects_full _ _ _ _ _ _ _ _ Hcol) as (Hfull & Hpos & _).
  exists (steps :: eps), wss. split; [done |]. split; [done |]. split; [done |].
  split; [done |]. split; [done |]. split; [done |].
  split; [by rewrite !length_map |].
  split; [rewrite length_map; simpl in Hfull; lia |].
  split; [simpl; lia |]. split.
  - rewrite length_map. intros Hlen. unfold np_mean.
    change (fun st : list (Obs * action) => np_sum (replicate (length st) 1%Z))
      with episode_total.
    assert (Hz : Zsum (episode_total steps :: map episode_total eps)
                 = Z.of_nat (length (steps ++ concat eps)))
      by exact (Zsum_totals (steps :: eps) Hlen).
    rewrite Hz.
    simpl. by rewrite length_map.
  - intros Hone. rewrite length_map. by apply (weights_cover Hone (steps :: eps)).
Qed.

End PlayMdp.

(** Both weightings of the notebook give one weight per reward. *)
Lemma rtg_one_weight_each :
  one_weight_each (fun rs => RewardToGo.rtg (map inject_Z rs)).
Proof.
  intros rs ws Hrun. destruct (rtg_ints rs) as (G & HG & Hlen & _).
  rewrite Hrun in HG. by injection HG as ->.
Qed.

Lemma vanilla_one_weight_each :
  one_weight_each (fun rs => Done (map inject_Z (vanilla_pg rs))).
Proof. intros rs ws [= <-]. rewrite length_map. apply length_replicate. Qed.

(** Two episodes in the corridor, always moving right, weighted by the
    reward to go. *)
Lemma play_mdp_batch_aligned_witness :
  exists mean ss acts ws e' episodes,
    play_mdp (fun _ : nat => (0%nat, 0%nat)) Fixtures.corridor_step
      (fun (g : unit) (s : nat) => (1%nat, g))
      (fun rs => RewardToGo.rtg (map inject_Z rs)) 10 4 0%nat tt
    = Done (mean, (ss, acts, ws), e', tt) /\
    ss = map fst (concat episodes) /\ acts = map snd (concat episodes) /\
    (4 < length ss)%nat /\
    mean == inject_Z (Z.of_nat (length ss)) / inject_Z (Z.of_nat (length episodes)).
Proof.
  destruct (play_mdp (fun _ : nat => (0%nat, 0%nat)) Fixtures.corridor_step
              (fun (g : unit) (s : nat) => (1%nat, g))
              (fun rs => RewardToGo.rtg (map inject_Z rs)) 10 4 0%nat tt)
    as [[[[mean [[ss acts] ws]] e'] []]| |] eqn:Hrun;
    [|vm_compute in Hrun; discriminate..].
  destruct (play_mdp_batch_aligned _ _ _ _ 10 4 0%nat tt mean ss acts ws e' tt Hrun)
    as (episodes & wss & Hcol & Hss & Has & _ & _ & _ & _ & Hbig & _ & Hmean & _).
  exists mean, ss, acts, ws, e', episodes.
  split; [done |]. split; [done |]. split; [done |]. split; [done |].
  assert (Hlen : length ss = 6%nat).
  { vm_compute in Hrun. by injection Hrun as _ <- _ _ _. }
  apply Hmean. rewrite Hlen. done.
Defined.

End PolicyGradient.


(** ** TD(lambda) notebook *)

Module TDLambda.

(** [LR = .8], [GAMMA = .99], [LAMBDA = .5]. *)
Definition LR : Q := 8 # 10.
Definition GAMMA : Q := 99 # 100.
Definition LAMBDA : Q := 5 # 10.

(** [v *= c] and [v += x] on vectors; the in-place sum takes a vector of
    the same length, or of length one. *)
Definition np_imul (v : list Q) (c : Q) : list Q := map (fun t => t * c) v.

Definition np_iadd (v x : list Q) : outcome (list Q) :=
  if decide (length x = length v) then Done (zip_with Qplus v x)
  else match x with
       | [b] => Done (map (fun t => t + b) v)
       | _ => Raise
       end.

Section WithWorld.
Context {E Gen : Type} `{Environment E} `{NumpyRandom Gen}.

(** [q_step(s, i)] for the value function, on the globals [V] and
    [trace]: a random action, one step, the decayed trace with one more
    on [s], and every value moved along its trace. [i] is not used. *)
Definition q_step (V trace : list Q) (e : E) (s : state) (g : Gen)
  : outcome (list Q * list Q * state * Q * bool * E * Gen) :=
  '(a, g1) ← np_random_choice nA g;
  let '(ss, r, d, e1) := env_step e a in
  let trace := np_imul trace (GAMMA * LAMBDA) in
  t ← index trace s;
  trace ← assign trace s (t + 1);
  vss ← index V ss;
  vs ← index V s;
  let delta := r + GAMMA * vss - vs in
  V1 ← np_iadd V (map (fun t => LR * delta * t) trace);
  Done (V1, trace, ss, r, d, e1, g1).

(** The [while True] loop of one episode. *)
Fixpoint td_episode (fuel : nat) (V trace : list Q) (s : state) (rAll : Q)
    (e : E) (g : Gen) : outcome (list Q * list Q * Q * E * Gen) :=
  match fuel with
  | O => OutOfFuel
  | S fuel' =>
      '(V1, trace1, s1, r, d, e1, g1) ← q_step V trace e s g;
      let rAll := rAll + r in
      if (d : bool) then Done (V1, trace1, rAll, e1, g1)
      else td_episode fuel' V1 trace1 s1 rAll e1 g1
  end.

(** [for i in range(NEPS)], with a fresh trace for every episode. *)
Fixpoint td_loop (fuel NEPS : nat) (V : list Q) (rList : list Q) (e : E) (g : Gen)
  : outcome (list Q * list Q * E * Gen) :=
  match NEPS with
  | O => Done (V, rList, e, g)
  | S n =>
      let '(s, e0) := env_reset e in
      let trace := replicate nS 0 in
      let rAll := 0 in
      '(V1, _, rAll, e1, g1) ← td_episode fuel V trace s rAll e0 g;
      td_loop fuel n V1 (rList ++ [rAll]) e1 g1
  end.

Definition td_train (fuel NEPS : nat) (e : E) (g : Gen)
  : outcome (list Q * list Q * E * Gen) :=
  td_loop fuel NEPS (replicate nS 0) [] e g.

(** *** One step *)

Lemma td_step_Done V trace e s g V' trace' ss r d e1 g1 :
  q_step V trace e s g = Done (V', trace', ss, r, d, e1, g1) ->
  exists a t vs vss,
    np_random_choice nA g = Done (a, g1) /\
    env_step e a = (ss, r, d, e1) /\
    trace !! s = Some t /\ V !! s = Some vs /\ V !! ss = Some vss /\
    trace' = <[s := t * (GAMMA * LAMBDA) + 1]> (np_imul trace (GAMMA * LAMBDA)) /\
    np_iadd V (map (fun t => LR * (r + GAMMA * vss - vs) * t) trace') = Done V'.
Proof.
  unfold q_step. intros Hrun. inv_bind Hrun. destruct v as [a g'].
  destruct (env_step e a) as [[[ss' r'] d'] e'] eqn:Hstep.
  inv_bind Hrun. inv_bind Hrun. inv_bind Hrun. inv_bind Hrun. inv_bind Hrun.
  injection Hrun as <- <- <- <- <- <- <-.
  apply index_Done in E1, E3, E4. apply assign_Done in E2 as [_ ->].
  unfold np_imul in E1. rewrite list_lookup_fmap in E1.
  apply fmap_Some in E1 as (t & Ht & ->). exists a, t, v2, v1. done.
Qed.



(** *** The eligibility trace stays bounded *)

(** Between 0 and [1 / (1 - GAMMA * LAMBDA)]. *)
Definition eligible (t : Q) : Prop := 0 <= t /\ t <= 1 / (1 - GAMMA * LAMBDA).

Lemma decay_value : GAMMA * LAMBDA == 495 # 1000.
Proof. reflexivity. Qed.

Lemma trace_bound_value : 1 / (1 - GAMMA * LAMBDA) == 1000 # 505.
Proof. reflexivity. Qed.

Lemma eligible_decay t : eligible t -> eligible (t * (GAMMA * LAMBDA)).
Proof.
  unfold eligible. rewrite trace_bound_value, decay_value.
  intros [Hlo Hhi]. split; Lqa.lra.
Qed.

Lemma eligible_visit t : eligible t -> eligible (t * (GAMMA * LAMBDA) + 1).
Proof.
  unfold eligible. rewrite trace_bound_value, decay_value.
  intros [Hlo Hhi]. split; Lqa.lra.
Qed.

Lemma q_step_eligible V trace e s g V' trace' ss r d e1 g1 :
  q_step V trace e s g = Done (V', trace', ss, r, d, e1, g1) ->
  Forall eligible trace ->
  Forall eligible trace' /\ length trace' = length trace /\ length V' = length V.
Proof.
  intros Hrun Hel.
  destruct (td_step_Done _ _ _ _ _ _ _ _ _ _ _ _ Hrun)
    as (a & t & vs & vss & _ & _ & Hts & _ & _ & -> & Hadd).
  split; [|split].
  - apply Forall_insert.
    + unfold np_imul. apply Forall_fmap. eapply Forall_impl; [exact Hel |].
      intros t0. apply eligible_decay.
    + apply eligible_visit. by eapply (Forall_lookup_1 _ _ _ _ Hel).
  - unfold np_imul. by rewrite length_insert, length_map.
  - unfold np_iadd in Hadd. destruct (decide _) as [Hlen|_].
    + injection Hadd as <-. rewrite length_zip_with, length_map. rewrite length_map in Hlen. lia.
    + destruct (map _ _) as [|b [|? ?]]; try discriminate.
      injection Hadd as <-. by rewrite length_map.
Qed.

(** Along an episode started with traces between 0 and
    [1 / (1 - GAMMA * LAMBDA)], as [np.zeros(env.nS)] is, every trace
    stays in these bounds, and [V] and [trace] keep their lengths. *)
Theorem td_trace_bounded (fuel : nat) (V trace : list Q) (s : state) (rAll : Q)
    (e : E) (g : Gen) (V' trace' : list Q) (rAll' : Q) (e' : E) (g' : Gen) :
  Forall eligible trace ->
  td_episode fuel V trace s rAll e g = Done (V', trace', rAll', e', g') ->
  Forall eligible trace' /\ length trace' = length trace /\ length V' = length V.
Proof.
  revert V trace s rAll e g.
  induction fuel as [|fuel IH]; intros V trace s rAll e g Hel Hrun; simpl in Hrun.
  - discriminate.
  - inv_bind Hrun. destruct v as [[[[[[V1 trace1] s1] r] d] e1] g1].
    destruct (q_step_eligible _ _ _ _ _ _ _ _ _ _ _ _ E0 Hel) as (Hel1 & Hl1 & Hl2).
    destruct d.
    + by injection Hrun as <- <- <- <- <-.
    + destruct (IH _ _ _ _ _ _ Hel1 Hrun) as (Hel' & Hl1' & Hl2').
      split; [done |]. split; congruence.
Qed.

Lemma zeros_eligible n : Forall eligible (replicate n 0).
Proof.
  apply Forall_replicate. unfold eligible. rewrite trace_bound_value.
  split; Lqa.lra.
Qed.

End WithWorld.

(** *** The corridor, one step and one episode *)


Lemma td_trace_bounded_witness :
  exists V' trace' rAll' e' g',
    td_episode (E := nat) 10 (replicate 4 0) (replicate 4 0) 0%nat 0 0%nat
      Fixtures.demo_tape
    = Done (V', trace', rAll', e', g') /\
    (Forall eligible trace' /\
     length trace' = length (replicate 4 0) /\ length V' = length (replicate 4 0)).
Proof.
  eexists _, _, _, _, _. split; [vm_compute; reflexivity |].
  eapply (td_trace_bounded (E := nat) (Gen := Fixtures.tape)
            10 _ _ 0%nat 0 0%nat Fixtures.demo_tape).
  - apply zeros_eligible.
  - vm_compute. reflexivity.
Defined.

End TDLambda.


(** ** More on the epsilon-soft Monte Carlo fit *)

Module EpsilonSoft.
Import MonteCarlo.

Section WithWorld.
Context {E Gen : Type} `{Environment E} `{NumpyRandom Gen}.

(** *** One update of the running averages *)

Lemma esoft_improve_Done eps t s a G g t' g' :
  esoft_improve eps t s a G g = Done (t', g') ->
  exists rw vs max_idx,
    get2 (rewards t) s a = Done rw /\
    set2 (rewards t) s a (rw + G) = Done (rewards t') /\
    get2 (visits t) s a = Done vs /\
    set2 (visits t) s a (vs + 1) = Done (visits t') /\
    set2 (Qtab t) s a ((rw + G) / (vs + 1)) = Done (Qtab t') /\
    esoft_max_idx (Qtab t') s g = Done (max_idx, g').
Proof.
  intros Hrun. unfold esoft_improve in Hrun.
  do 7 inv_bind Hrun. inv_bind Hrun. destruct v6 as [max_idx g1].
  do 4 inv_bind Hrun. injection Hrun as <- <-. simpl.
  rewrite (get2_set2_eq _ _ _ _ _ E1) in E4. injection E4 as <-.
  rewrite (get2_set2_eq _ _ _ _ _ E3) in E5. injection E5 as <-.
  exists v, v1, max_idx. done.
Qed.

(** When the visit count of [(s, a)] is not negative, an update of the
    pair [(s, a)] with return [G] divides by a count of at least one:
    it adds [G] to [rewards[s, a]] and one to [visits[s, a]], sets
    [Q[s, a]] to the quotient of the two, and leaves every other entry
    of the three tables as it was. *)
Theorem esoft_improve_average (eps : Q) (t : tables) (s a : nat) (G : Q) (g : Gen)
    (t' : tables) (g' : Gen) (vs : Q) :
  get2 (visits t) s a = Done vs -> 0 <= vs ->
  esoft_improve eps t s a G g = Done (t', g') ->
  exists rw,
    get2 (rewards t) s a = Done rw /\
    get2 (rewards t') s a = Done (rw + G) /\
    get2 (visits t') s a = Done (vs + 1) /\
    1 <= vs + 1 /\
    get2 (Qtab t') s a = Done ((rw + G) / (vs + 1)) /\
    (forall s' a', (s', a') <> (s, a) ->
       get2 (rewards t') s' a' = get2 (rewards t) s' a' /\
       get2 (visits t') s' a' = get2 (visits t) s' a' /\
       get2 (Qtab t') s' a' = get2 (Qtab t) s' a').
Proof.
  intros Hvs Hpos Hrun.
  destruct (esoft_improve_Done _ _ _ _ _ _ _ _ Hrun)
    as (rw & vs0 & max_idx & Hrw & Hrw' & Hvs0 & Hvs' & HQ' & _).
  rewrite Hvs in Hvs0. injection Hvs0 as <-.
  exists rw. split; [done |].
  split; [by eapply get2_set2_eq |]. split; [by eapply get2_set2_eq |].
  split; [Lqa.lra |]. split; [by eapply get2_set2_eq |].
  intros s' a' Hne. split; [|split]; by eapply get2_set2_ne.
Qed.

(** *** The averages along the training *)

(** [Q * visits = rewards] entry by entry, with counts that are not
    negative, on three tables of the shape of the problem. *)
Definition averaged (t : tables) : Prop :=
  shape (Qtab t) nS nA /\ shape (rewards t) nS nA /\ shape (visits t) nS nA /\
  forall s a q rw vs,
    get2 (Qtab t) s a = Done q -> get2 (rewards t) s a = Done rw ->
    get2 (visits t) s a = Done vs ->
    0 <= vs /\ q * vs == rw.

Lemma esoft_improve_averaged eps t s a G g t' g' :
  averaged t -> esoft_improve eps t s a G g = Done (t', g') -> averaged t'.
Proof.
  intros (HQ & HR & HV & Havg) Hrun.
  destruct (esoft_improve_Done _ _ _ _ _ _ _ _ Hrun)
    as (rw & vs & max_idx & Hrw & Hrw' & Hvs & Hvs' & HQ' & _).
  split; [|split; [|split]].
  - eapply shape_row_lengths; [by eapply set2_row_lengths | done].
  - eapply shape_row_lengths; [by eapply set2_row_lengths | done].
  - eapply shape_row_lengths; [by eapply set2_row_lengths | done].
  - intros s' a' q' rw' vs' Hq Hr Hv.
    destruct (decide ((s', a') = (s, a))) as [[= -> ->]|Hne].
    + rewrite (get2_set2_eq _ _ _ _ _ HQ') in Hq. injection Hq as <-.
      rewrite (get2_set2_eq _ _ _ _ _ Hrw') in Hr. injection Hr as <-.
      rewrite (get2_set2_eq _ _ _ _ _ Hvs') in Hv. injection Hv as <-.
      assert (Hq0 : exists q0, get2 (Qtab t) s a = Done q0).
      { apply set2_Done in HQ' as (row & Hrow & Ha & _).
        destruct (lookup_lt_is_Some_2 row a Ha) as [q0 Hq0].
        exists q0. apply get2_Done. eauto. }
      destruct Hq0 as [q0 Hq0].
      destruct (Havg s a q0 rw vs Hq0 Hrw Hvs) as [Hpos _].
      split; [Lqa.lra |]. field. Lqa.lra.
    + rewrite (get2_set2_ne _ _ _ _ _ _ _ HQ' Hne) in Hq.
      rewrite (get2_set2_ne _ _ _ _ _ _ _ Hrw' Hne) in Hr.
      rewrite (get2_set2_ne _ _ _ _ _ _ _ Hvs' Hne) in Hv.
      by apply (Havg s' a').
Qed.

Lemma esoft_visit_averaged eps episode acc i acc' :
  averaged acc.1.1 -> esoft_visit eps episode acc i = Done acc' -> averaged acc'.1.1.
Proof.
  destruct acc as [[t G] g]. simpl. intros Hs Hrun. unfold esoft_visit in Hrun.
  inv_bind Hrun. destruct v as [[s a] r].
  destruct (seen_before episode i s a).
  - by injection Hrun as <-.
  - inv_bind Hrun. destruct v as [t1 g1]. injection Hrun as <-. simpl.
    by eapply esoft_improve_averaged.
Qed.

Lemma esoft_episode_averaged fuel eps t e g t' e' g' :
  averaged t -> esoft_episode fuel eps t e g = Done (t', e', g') -> averaged t'.
Proof.
  intros Hs Hrun. unfold esoft_episode in Hrun.
  inv_bind Hrun. destruct v as [[episode e1] g1].
  inv_bind Hrun. destruct v as [[t1 G1] g2]. injection Hrun as <- <- <-.
  apply (for_each_invariant (fun acc => averaged acc.1.1)
           (esoft_visit eps episode) _ (esoft_visit_averaged eps episode)
           (t, 0, g1) (t1, G1, g2) Hs E1).
Qed.

Lemma esoft_loop_averaged fuel neps eps : forall t e g t' e' g',
  averaged t -> esoft_loop fuel neps eps t e g = Done (t', e', g') -> averaged t'.
Proof.
  induction neps as [|n IH]; intros t e g t' e' g' Hs Hrun; simpl in Hrun.
  - by injection Hrun as <- <- <-.
  - inv_bind Hrun. destruct v as [[t1 e1] g1].
    eapply IH; [|exact Hrun]. by eapply esoft_episode_averaged.
Qed.

Lemma get2_np_full n m x s a v : get2 (np_full n m x) s a = Done v -> v = x.
Proof.
  intros (row & Hrow & Hv)%get2_Done. unfold np_full in Hrow.
  apply lookup_replicate in Hrow as [-> _].
  by apply lookup_replicate in Hv as [-> _].
Qed.

Lemma esoft_init_averaged t : esoft_init = Done t -> averaged t.
Proof.
  unfold esoft_init. intros Hinit. inv_bind Hinit. injection Hinit as <-. simpl.
  repeat (split; [apply shape_np_full |]).
  intros s a q rw vs Hq Hr Hv. unfold np_zeros in *.
  apply get2_np_full in Hq, Hr, Hv. subst. split; [apply Qle_refl | ring].
Qed.

(** After any number of training episodes, for every state and action:
    the three tables have an entry, the visit count is not negative,
    [Q[s, a] * visits[s, a]] is [rewards[s, a]], and so [Q[s, a]] is
    the mean [rewards[s, a] / visits[s, a]] where the pair was visited
    and 0 where it was not. *)
Theorem esoft_running_average (fuel neps : nat) (eps : Q) (e : E) (g : Gen)
    (t0 t' : tables) (e' : E) (g' : Gen) :
  esoft_init = Done t0 ->
  esoft_loop fuel neps eps t0 e g = Done (t', e', g') ->
  forall s a, (s < nS)%nat -> (a < nA)%nat ->
  exists q rw vs,
    get2 (Qtab t') s a = Done q /\ get2 (rewards t') s a = Done rw /\
    get2 (visits t') s a = Done vs /\
    0 <= vs /\ q * vs == rw /\
    (0 < vs -> q == rw / vs) /\ (vs == 0 -> rw == 0).
Proof.
  intros Hinit Hrun s a Hs Ha.
  destruct (esoft_loop_averaged _ _ _ _ _ _ _ _ _ (esoft_init_averaged _ Hinit) Hrun)
    as (HQ & HR & HV & Havg).
  assert (Hentry : forall T, shape T nS nA -> exists x, get2 T s a = Done x).
  { intros T HT. destruct (shape_lookup _ _ _ _ HT Hs) as (row & Hrow & Hlen).
    destruct (lookup_lt_is_Some_2 row a) as [x Hx]; [lia |].
    exists x. apply get2_Done. eauto. }
  destruct (Hentry _ HQ) as [q Hq]. destruct (Hentry _ HR) as [rw Hrw].
  destruct (Hentry _ HV) as [vs Hvs].
  destruct (Havg s a q rw vs Hq Hrw Hvs) as [Hpos Hmul].
  exists q, rw, vs. repeat (split; [done |]). split.
  - intros Hlt. rewrite <- Hmul. field. Lqa.lra.
  - intros Hz. rewrite <- Hmul, Hz. ring.
Qed.

End WithWorld.

(** *** First visits *)

Section FirstVisit.
Context {E Gen : Type} `{Environment E} `{NumpyRandom Gen}.

(** [[(x[0], x[1]) for x in episode]]. *)
Definition pairs (episode : list transition) : list (state * action) :=
  map (fun x : transition => (x.1.1, x.1.2)) episode.

(** The return [G] that the backward pass has accumulated when it
    reaches step [i] after starting from [G0] behind step [k]:
    [((G0 + r_(k-1)) + ...) + r_i]. *)
Definition return_from (G0 : Q) (episode : list transition) (i k : nat) : Q :=
  accumulate G0 (reverse (map (fun x : transition => x.2) (drop i (take k episode)))).

Lemma esoft_visit_Done eps episode t G g i t1 G1 g1 :
  esoft_visit eps episode (t, G, g) i = Done (t1, G1, g1) ->
  exists s a r,
    episode !! i = Some (s, a, r) /\ G1 = G + r /\
    ((s, a) ∈ pairs (take i episode) /\ t1 = t /\ g1 = g \/
     ((s, a) ∉ pairs (take i episode)) /\
     esoft_improve eps t s a (G + r) g = Done (t1, g1)).
Proof.
  intros Hrun. unfold esoft_visit in Hrun.
  inv_bind Hrun. destruct v as [[s a] r]. apply index_Done in E0.
  exists s, a, r. split; [done |].
  unfold seen_before in Hrun. fold (pairs (take i episode)) in Hrun.
  destruct (bool_decide_reflect ((s, a) ∈ pairs (take i episode))) as [Hin|Hout].
  - injection Hrun as <- <- <-. split; [done |]. by left.
  - inv_bind Hrun. destruct v as [t2 g2]. injection Hrun as <- <- <-.
    split; [done |]. by right.
Qed.

Lemma for_each_downto {S} (body : S -> nat -> outcome S) k st :
  for_each body (reverse (seq 0 (Datatypes.S k))) st
  = (st' ← body st k; for_each body (reverse (seq 0 k)) st').
Proof. by rewrite seq_S, reverse_snoc. Qed.

Lemma take_snoc (episode : list transition) (k : nat) (x : transition) :
  episode !! k = Some x -> take (Datatypes.S k) episode = take k episode ++ [x].
Proof. apply take_S_r. Qed.

Lemma pairs_take_S episode k s a r :
  episode !! k = Some (s, a, r) ->
  pairs (take (Datatypes.S k) episode) = pairs (take k episode) ++ [(s, a)].
Proof.
  intros Hk. rewrite (take_snoc _ _ _ Hk). unfold pairs. by rewrite map_app.
Qed.

Lemma esoft_improve_frame eps t s a G g t' g' s' a' :
  esoft_improve eps t s a G g = Done (t', g') -> (s', a') <> (s, a) ->
  get2 (rewards t') s' a' = get2 (rewards t) s' a' /\
  get2 (visits t') s' a' = get2 (visits t) s' a' /\
  get2 (Qtab t') s' a' = get2 (Qtab t) s' a'.
Proof.
  intros Hrun Hne.
  destruct (esoft_improve_Done _ _ _ _ _ _ _ _ Hrun)
    as (rw & vs & max_idx & Hrw & Hrw' & Hvs & Hvs' & HQ' & _).
  split; [|split]; by eapply get2_set2_ne.
Qed.

(** The steps below [k] leave alone a pair that does not occur there. *)
Lemma esoft_pass_untouched eps episode k : forall t G g t1 G1 g1,
  for_each (esoft_visit eps episode) (reverse (seq 0 k)) (t, G, g) = Done (t1, G1, g1) ->
  forall s a, (s, a) ∉ pairs (take k episode) ->
    get2 (rewards t1) s a = get2 (rewards t) s a /\
    get2 (visits t1) s a = get2 (visits t) s a /\
    get2 (Qtab t1) s a = get2 (Qtab t) s a.
Proof.
  induction k as [|k IH]; intros t G g t1 G1 g1 Hrun s a Hout.
  - simpl in Hrun. by injection Hrun as <- <- <-.
  - rewrite for_each_downto in Hrun. inv_bind Hrun. destruct v as [[t2 G2] g2].
    apply esoft_visit_Done in E0 as (sk & ak & rk & Hk & -> & Hcase).
    rewrite (pairs_take_S _ _ _ _ _ Hk) in Hout.
    apply not_elem_of_app in Hout as [Hout Hne].
    apply not_elem_of_cons in Hne as [Hne _].
    destruct (IH _ _ _ _ _ _ Hrun s a Hout) as (Hr & Hv & Hq).
    destruct Hcase as [(_ & -> & ->)|[_ Himp]]; [done |].
    destruct (esoft_improve_frame _ _ _ _ _ _ _ _ s a Himp Hne) as (Hr' & Hv' & Hq').
    rewrite Hr, Hv, Hq. done.
Qed.

Lemma return_from_last G0 episode k s a r :
  episode !! k = Some (s, a, r) -> return_from G0 episode k (Datatypes.S k) = G0 + r.
Proof.
  intros Hk. unfold return_from. rewrite (take_snoc _ _ _ Hk).
  assert (Hlen : (k < length episode)%nat) by (eapply lookup_lt_Some; exact Hk).
  rewrite drop_app_length'; [done |].
  rewrite length_take. lia.
Qed.

Lemma return_from_step G0 episode i k s a r :
  (i <= k)%nat -> episode !! k = Some (s, a, r) ->
  return_from G0 episode i (Datatypes.S k) = return_from (G0 + r) episode i k.
Proof.
  intros Hik Hk. unfold return_from. rewrite (take_snoc _ _ _ Hk).
  assert (Hlen : (k < length episode)%nat) by (eapply lookup_lt_Some; exact Hk).
  rewrite drop_app_le by (rewrite length_take; lia).
  by rewrite map_app, reverse_app.
Qed.

(** The pass over the steps below [k] updates a pair at its first
    occurrence, with the return accumulated down to that step. *)
Lemma esoft_pass_first eps episode k : forall t G g t1 G1 g1,
  for_each (esoft_visit eps episode) (reverse (seq 0 k)) (t, G, g) = Done (t1, G1, g1) ->
  forall i s a r rw vs,
    (i < k)%nat -> episode !! i = Some (s, a, r) ->
    (s, a) ∉ pairs (take i episode) ->
    get2 (rewards t) s a = Done rw -> get2 (visits t) s a = Done vs ->
    get2 (rewards t1) s a = Done (rw + return_from G episode i k) /\
    get2 (visits t1) s a = Done (vs + 1) /\
    get2 (Qtab t1) s a = Done ((rw + return_from G episode i k) / (vs + 1)).
Proof.
  induction k as [|k IH]; intros t G g t1 G1 g1 Hrun i s a r rw vs Hik Hi Hfirst Hrw Hvs;
    [lia |].
  rewrite for_each_downto in Hrun. inv_bind Hrun. destruct v as [[t2 G2] g2].
  apply esoft_visit_Done in E0 as (sk & ak & rk & Hk & -> & Hcase).
  destruct (decide (i = k)) as [->|Hne].
  - rewrite Hk in Hi. injection Hi as -> -> ->.
    destruct Hcase as [(Hin & _)|[_ Himp]]; [done |].
    rewrite (return_from_last _ _ _ _ _ _ Hk).
    destruct (esoft_pass_untouched _ _ _ _ _ _ _ _ _ Hrun s a Hfirst) as (Hr & Hv & Hq).
    rewrite Hr, Hv, Hq.
    destruct (esoft_improve_Done _ _ _ _ _ _ _ _ Himp)
      as (rw0 & vs0 & max_idx & Hrw0 & Hrw' & Hvs0 & Hvs' & HQ' & _).
    rewrite Hrw in Hrw0. injection Hrw0 as <-.
    rewrite Hvs in Hvs0. injection Hvs0 as <-.
    split; [by eapply get2_set2_eq |]. split; by eapply get2_set2_eq.
  - assert (Hlt : (i < k)%nat) by lia.
    rewrite (return_from_step _ _ _ _ _ _ _ (Nat.lt_le_incl _ _ Hlt) Hk).
    assert (Hin : (s, a) ∈ pairs (take k episode)).
    { unfold pairs. apply list_elem_of_fmap. exists (s, a, r). split; [done |].
      apply list_elem_of_lookup. exists i. rewrite lookup_take_lt by done. done. }
    destruct Hcase as [(_ & -> & ->)|[Hout Himp]].
    + by apply (IH _ _ _ _ _ _ Hrun i s a r).
    + assert (Hdiff : (s, a) <> (sk, ak)) by (intros [= -> ->]; done).
      destruct (esoft_improve_frame _ _ _ _ _ _ _ _ s a Himp Hdiff) as (Hr' & Hv' & _).
      apply (IH _ _ _ _ _ _ Hrun i s a r); [done | done | done | |].
      * by rewrite Hr'.
      * by rewrite Hv'.
Qed.

(** One training episode is a first-visit update. With [episode] the
    trace that [run_game] returned: a pair [(s, a)] that does not occur
    in the episode keeps its entries of [rewards], [visits] and [Q];
    a pair that occurs, however often, has its visit count raised by
    exactly one, and its [rewards] entry raised by the rewards from its
    first occurrence to the end of the episode, added up from the last
    step backwards; its [Q] entry is the quotient of the two. *)
Theorem esoft_first_visit (fuel : nat) (eps : Q) (t : tables) (e : E) (g : Gen)
    (t' : tables) (e' : E) (g' : Gen) :
  esoft_episode fuel eps t e g = Done (t', e', g') ->
  exists episode g1,
    run_game fuel (policy t) e g = Done (episode, e', g1) /\
    (forall s a, (s, a) ∉ pairs episode ->
       get2 (rewards t') s a = get2 (rewards t) s a /\
       get2 (visits t') s a = get2 (visits t) s a /\
       get2 (Qtab t') s a = get2 (Qtab t) s a) /\
    (forall i s a r rw vs,
       episode !! i = Some (s, a, r) -> (s, a) ∉ pairs (take i episode) ->
       get2 (rewards t) s a = Done rw -> get2 (visits t) s a = Done vs ->
       let G := return_from 0 episode i (length episode) in
       get2 (rewards t') s a = Done (rw + G) /\
       get2 (visits t') s a = Done (vs + 1) /\
       get2 (Qtab t') s a = Done ((rw + G) / (vs + 1)) /\
       G == Qsum (map (fun x : transition => x.2) (drop i episode))).
Proof.
  intros Hrun. unfold esoft_episode in Hrun.
  inv_bind Hrun. destruct v as [[episode e1] g1].
  inv_bind Hrun. destruct v as [[t1 G1] g2]. injection Hrun as <- <- <-.
  exists episode, g1. split; [done |]. split.
  - intros s a Hout. apply (esoft_pass_untouched _ _ _ _ _ _ _ _ _ E1).
    by rewrite firstn_all.
  - intros i s a r rw vs Hi Hfirst Hrw Hvs G.
    destruct (esoft_pass_first _ _ _ _ _ _ _ _ _ E1 i s a r rw vs) as (Hr & Hv & Hq);
      [by eapply lookup_lt_Some | done | done | done | done |].
    repeat (split; [done |]).
    unfold G, return_from. rewrite firstn_all, accumulate_Qsum.
    rewrite Qplus_0_l. generalize (map (fun x : transition => x.2) (drop i episode)).
    intros l. induction l as [|x l IHl]; [reflexivity |].
    rewrite reverse_cons, PolicyGradient.Qsum_app, IHl. simpl. ring.
Qed.

End FirstVisit.

(** *** The policy stays a probability table, and training raises nothing *)

Section Playable.
Context {E Gen : Type} `{Environment E} `{NumpyRandom Gen}.

(** A row that [np.random.choice(range(nA), p = row)] accepts. *)
Definition distribution (row : list Q) : Prop :=
  length row = nA /\ Forall (fun p => 0 <= p) row /\ Qsum row == 1.

Definition playable (pol : table) : Prop :=
  length pol = nS /\ Forall distribution pol.

Lemma soft_row_distribution eps max_idx :
  0 <= eps -> eps <= 1 -> (0 < nA)%nat -> (max_idx < nA)%nat ->
  distribution (soft_row eps max_idx).
Proof.
  intros Hlo Hhi HA Hidx.
  assert (Hx : 0 <= eps / inject_Z (Z.of_nat nA)).
  { apply Qle_shift_div_l.
    - change 0 with (inject_Z 0). rewrite <- Zlt_Qlt. lia.
    - by rewrite Qmult_0_l. }
  split; [|split].
  - unfold soft_row. by rewrite length_insert, length_replicate.
  - unfold soft_row. apply Forall_insert; [by apply Forall_replicate |]. Lqa.lra.
  - by apply soft_row_sum.
Qed.

Lemma np_random_choice_p_accepts p g :
  (0 < nA)%nat -> distribution p ->
  np_random_choice_p nA p g = Done (rng_choice_p p g) /\
  ((rng_choice_p p g).1 < nA)%nat.
Proof.
  intros HA (Hlen & Hpos & Hsum). unfold np_random_choice_p.
  rewrite decide_True by done. rewrite decide_True by done.
  assert (H1 : forallb (Qle_bool 0) p = true).
  { apply forallb_forall. intros x Hx. apply Qle_bool_iff.
    rewrite Forall_forall in Hpos. apply Hpos. by apply list_elem_of_In. }
  rewrite H1. apply Qeq_bool_iff in Hsum. rewrite Hsum. simpl. split; [done |].
  rewrite <- Hlen. apply rng_choice_p_lt. lia.
Qed.

Lemma game_step_playable pol e g s :
  (0 < nA)%nat -> playable pol -> (s < nS)%nat ->
  exists a g1, (a < nA)%nat /\
    game_step pol e g s
    = Done ((s, a, (env_step e a).1.1.2), (env_step e a).1.1.1,
            (env_step e a).1.2, (env_step e a).2, g1).
Proof.
  intros HA [Hlen Hrows] Hs. destruct (lookup_lt_is_Some_2 pol s) as [p Hp]; [lia |].
  pose proof (Forall_lookup_1 _ _ _ _ Hrows Hp) as Hd.
  destruct (np_random_choice_p_accepts p g HA Hd) as [Hc Hlt].
  unfold game_step. apply index_Done in Hp. rewrite Hp. simpl. rewrite Hc. simpl.
  destruct (rng_choice_p p g) as [a g1]. simpl in *. exists a, g1. split; [done |].
  by destruct (env_step e a) as [[[ss r] d] e1].
Qed.

(** The tables of a training run: a policy that the sampler accepts and
    three tables of the shape of the problem. *)
Definition ready (t : tables) : Prop :=
  playable (policy t) /\ shape (Qtab t) nS nA /\
  shape (rewards t) nS nA /\ shape (visits t) nS nA.

Lemma playable_shape pol : playable pol -> shape pol nS nA.
Proof.
  intros [Hlen Hrows]. split; [done |].
  eapply Forall_impl; [exact Hrows |]. by intros row [Hrow _].
Qed.

Lemma esoft_improve_ready eps t s a G g t' g' :
  0 <= eps -> eps <= 1 ->
  ready t -> esoft_improve eps t s a G g = Done (t', g') -> ready t'.
Proof.
  intros Hlo Hhi (Hpol & HQ & HR & HV) Hrun.
  destruct (esoft_improve_policy _ _ _ _ _ _ _ _ (playable_shape _ Hpol) HQ Hrun)
    as (max_idx & _ & HA & Hidx & _ & HQ' & Hpol').
  destruct (esoft_improve_Done _ _ _ _ _ _ _ _ Hrun)
    as (rw & vs & _ & _ & Hrw' & _ & Hvs' & _ & _).
  split; [|split; [done |split]].
  - rewrite Hpol'. destruct Hpol as [Hlen Hrows]. split.
    + by rewrite length_insert.
    + apply Forall_insert; [done |]. by apply soft_row_distribution.
  - eapply shape_row_lengths; [by eapply set2_row_lengths | done].
  - eapply shape_row_lengths; [by eapply set2_row_lengths | done].
Qed.

Lemma esoft_visit_ready eps episode acc i acc' :
  0 <= eps -> eps <= 1 ->
  ready acc.1.1 -> esoft_visit eps episode acc i = Done acc' -> ready acc'.1.1.
Proof.
  destruct acc as [[t G] g]. destruct acc' as [[t1 G1] g1]. simpl.
  intros Hlo Hhi Hs Hrun.
  apply esoft_visit_Done in Hrun as (s & a & r & _ & _ & [(_ & -> & _)|[_ Himp]]);
    [done |].
  by eapply esoft_improve_ready.
Qed.

Lemma esoft_episode_ready fuel eps t e g t' e' g' :
  0 <= eps -> eps <= 1 ->
  ready t -> esoft_episode fuel eps t e g = Done (t', e', g') -> ready t'.
Proof.
  intros Hlo Hhi Hs Hrun. unfold esoft_episode in Hrun.
  inv_bind Hrun. destruct v as [[episode e1] g1].
  inv_bind Hrun. destruct v as [[t1 G1] g2]. injection Hrun as <- <- <-.
  apply (for_each_invariant (fun acc => ready acc.1.1)
           (esoft_visit eps episode) _
           (fun acc i acc' => esoft_visit_ready eps episode acc i acc' Hlo Hhi)
           (t, 0, g1) (t1, G1, g2) Hs E1).
Qed.

Lemma esoft_loop_ready fuel neps eps : forall t e g t' e' g',
  0 <= eps -> eps <= 1 ->
  ready t -> esoft_loop fuel neps eps t e g = Done (t', e', g') -> ready t'.
Proof.
  induction neps as [|n IH]; intros t e g t' e' g' Hlo Hhi Hs Hrun; simpl in Hrun.
  - by injection Hrun as <- <- <-.
  - inv_bind Hrun. destruct v as [[t1 e1] g1].
    eapply IH; [done | done | | exact Hrun]. by eapply esoft_episode_ready.
Qed.

Lemma esoft_init_ready t : esoft_init = Done t -> ready t.
Proof.
  intros Hinit. pose proof (esoft_init_normalized _ Hinit) as [[Hlen Hrows] Hsum].
  unfold esoft_init in Hinit. inv_bind Hinit. injection Hinit as <-. simpl in *.
  pose proof (nA_positive _ _ E0) as HA. apply py_div_Done in E0 as [Hne ->].
  split; [|repeat split; try apply length_replicate;
            apply Forall_replicate, length_replicate].
  split; [done |]. unfold np_full in *. apply Forall_replicate.
  split; [apply length_replicate |]. split.
  - apply Forall_replicate. apply Qle_shift_div_l.
    + change 0 with (inject_Z 0). rewrite <- Zlt_Qlt. lia.
    + by rewrite Qmult_0_l.
  - destruct nS as [|n] eqn:HS; [|by inversion Hsum].
    rewrite Qsum_replicate. by field.
Qed.

Lemma Qsum_bounds_entry row : forall i p,
  Forall (fun x => 0 <= x) row -> row !! i = Some p -> p <= Qsum row.
Proof.
  induction row as [|y row IH]; intros [|i] p Hpos Hi; simpl in Hi; try discriminate;
    inversion Hpos as [|? ? Hy Hrest]; subst.
  - injection Hi as ->. pose proof (PolicyGradient.Qsum_nonneg _ Hrest) as Hr.
    change (p <= p + Qsum row). Lqa.lra.
  - pose proof (IH i p Hrest Hi) as Hp. change (p <= y + Qsum row). Lqa.lra.
Qed.

(** With [0 <= eps <= 1], every row of the policy that
    [monte_carlo_e_soft] returns is a probability vector over the [nA]
    actions (entries not negative, sum one), and the sampler of
    [run_game] accepts it: from every state below [nS] one step of the
    game draws an action below [nA] and makes the step of the
    environment with it. *)
Theorem esoft_policy_playable (fuel neps : nat) (eps : Q) (e : E) (g : Gen)
    (pol : table) (e' : E) (g' : Gen) :
  0 <= eps -> eps <= 1 ->
  monte_carlo_e_soft fuel neps eps e g = Done (pol, e', g') ->
  length pol = nS /\
  (forall row, row ∈ pol ->
     length row = nA /\ Forall (fun p => 0 <= p /\ p <= 1) row /\ Qsum row == 1) /\
  (forall s e2 g2, (s < nS)%nat ->
     exists a g3, (a < nA)%nat /\
       game_step pol e2 g2 s
       = Done ((s, a, (env_step e2 a).1.1.2), (env_step e2 a).1.1.1,
               (env_step e2 a).1.2, (env_step e2 a).2, g3)).
Proof.
  intros Hlo Hhi Hrun. unfold monte_carlo_e_soft in Hrun.
  inv_bind Hrun. inv_bind Hrun. destruct v0 as [[t e1] g1]. injection Hrun as <- <- <-.
  pose proof (esoft_init_ready _ E0) as Hready0.
  assert (HA : (0 < nA)%nat).
  { unfold esoft_init in E0. inv_bind E0. by eapply nA_positive. }
  destruct (esoft_loop_ready _ _ _ _ _ _ _ _ _ Hlo Hhi Hready0 E1) as [Hpol _].
  split; [apply Hpol |]. split.
  - intros row Hrow. destruct Hpol as [_ Hrows].
    rewrite Forall_forall in Hrows. destruct (Hrows row Hrow) as (Hlen & Hpos & Hsum).
    split; [done |]. split; [|done].
    apply Forall_forall. intros p Hp. rewrite Forall_forall in Hpos.
    split; [by apply Hpos |].
    apply list_elem_of_lookup_1 in Hp as [i Hi].
    rewrite <- Hsum. apply (Qsum_bounds_entry row i p); [|done].
    by apply Forall_forall.
  - intros s e2 g2 Hs. by apply game_step_playable.
Qed.

End Playable.

Section TableAccess.
Context {E : Type} `{Environment E}.

Lemma get2_total T s a :
  shape T nS nA -> (s < nS)%nat -> (a < nA)%nat -> exists x, get2 T s a = Done x.
Proof.
  intros HT Hs Ha. destruct (shape_lookup _ _ _ _ HT Hs) as (row & Hrow & Hlen).
  destruct (lookup_lt_is_Some_2 row a) as [x Hx]; [lia |].
  exists x. apply get2_Done. eauto.
Qed.

Lemma set2_total T s a x :
  shape T nS nA -> (s < nS)%nat -> (a < nA)%nat ->
  exists T', set2 T s a x = Done T' /\ shape T' nS nA.
Proof.
  intros HT Hs Ha. destruct (shape_lookup _ _ _ _ HT Hs) as (row & Hrow & Hlen).
  assert (Hset : set2 T s a x = Done (<[s := <[a := x]> row]> T)).
  { apply set2_Done. exists row. split; [done |]. split; [lia | done]. }
  eexists. split; [exact Hset |].
  eapply shape_row_lengths; [by eapply set2_row_lengths | done].
Qed.

End TableAccess.

Section NeverRaises.
Context {E Gen : Type} `{Environment E} `{NumpyRandom Gen}.

(** The simulator keeps its states below [nS]: a property [Inv] of its
    hidden state that [reset] and [step] preserve. *)
Variable Inv : E -> Prop.
Hypothesis reset_in_range : forall e,
  Inv e -> ((env_reset e).1 < nS)%nat /\ Inv (env_reset e).2.
Hypothesis step_in_range : forall e a,
  Inv e -> (a < nA)%nat -> ((env_step e a).1.1.1 < nS)%nat /\ Inv (env_step e a).2.
Hypothesis some_action : (0 < nA)%nat.






Section OneEpisode.
Variable eps : Q.
Hypothesis eps_lo : 0 <= eps.
Hypothesis eps_hi : eps <= 1.





End OneEpisode.


End NeverRaises.

(** The tables before the first episode in the corridor. *)
Definition corridor_tables : tables :=
  {| policy := np_full 4 2 (1 # 2); Qtab := np_zeros 4 2;
     rewards := np_zeros 4 2; visits := np_zeros 4 2 |}.

Lemma esoft_improve_average_witness :
  exists t' g' rw,
    esoft_improve (E := nat) (1 # 100) corridor_tables 0 1 3 Fixtures.demo_tape
    = Done (t', g') /\
    get2 (rewards t') 0 1 = Done (rw + 3) /\
    get2 (visits t') 0 1 = Done (0 + 1) /\
    get2 (Qtab t') 0 1 = Done ((rw + 3) / (0 + 1)).
Proof.
  destruct (esoft_improve (E := nat) (1 # 100) corridor_tables 0 1 3 Fixtures.demo_tape)
    as [[t' g']| |] eqn:Hrun; [|vm_compute in Hrun; discriminate..].
  destruct (esoft_improve_average (E := nat) (Gen := Fixtures.tape) (1 # 100)
              corridor_tables 0 1 3 Fixtures.demo_tape t' g' 0)
    as (rw & _ & Hr & Hv & _ & Hq & _).
  - vm_compute. reflexivity.
  - vm_compute. discriminate.
  - exact Hrun.
  - by exists t', g', rw.
Defined.

Lemma esoft_running_average_witness :
  exists t0 t' e' g',
    esoft_init (E := nat) = Done t0 /\
    esoft_loop (E := nat) 10 1 (1 # 100) t0 0%nat Fixtures.demo_tape = Done (t', e', g') /\
    exists q rw vs,
      get2 (Qtab t') 0 1 = Done q /\ get2 (rewards t') 0 1 = Done rw /\
      get2 (visits t') 0 1 = Done vs /\ 0 <= vs /\ q * vs == rw.
Proof.
  exists corridor_tables.
  destruct (esoft_loop (E := nat) 10 1 (1 # 100) corridor_tables 0%nat Fixtures.demo_tape)
    as [[[t' e'] g']| |] eqn:Hrun; [|vm_compute in Hrun; discriminate..].
  assert (Hinit : esoft_init (E := nat) = Done corridor_tables)
    by (vm_compute; reflexivity).
  exists t', e', g'. split; [done |]. split; [done |].
  destruct (esoft_running_average (E := nat) (Gen := Fixtures.tape)
              10 1 (1 # 100) 0%nat Fixtures.demo_tape corridor_tables t' e' g'
              Hinit Hrun 0%nat 1%nat)
    as (q & rw & vs & Hq & Hr & Hv & Hpos & Hmul & _).
  - simpl. lia.
  - simpl. lia.
  - by exists q, rw, vs.
Defined.

Lemma esoft_first_visit_witness :
  exists t' e' g' episode g1,
    esoft_episode (E := nat) 10 (1 # 100) corridor_tables 0%nat Fixtures.demo_tape
    = Done (t', e', g') /\
    run_game 10 (policy corridor_tables) 0%nat Fixtures.demo_tape = Done (episode, e', g1) /\
    forall s a, (s, a) ∉ pairs episode ->
      get2 (visits t') s a = get2 (visits corridor_tables) s a.
Proof.
  destruct (esoft_episode (E := nat) 10 (1 # 100) corridor_tables 0%nat Fixtures.demo_tape)
    as [[[t' e'] g']| |] eqn:Hrun; [|vm_compute in Hrun; discriminate..].
  destruct (esoft_first_visit (E := nat) (Gen := Fixtures.tape) 10 (1 # 100)
              corridor_tables 0%nat Fixtures.demo_tape t' e' g' Hrun)
    as (episode & g1 & Hgame & Hout & _).
  exists t', e', g', episode, g1. split; [done |]. split; [done |].
  intros s a Hsa. by apply Hout.
Defined.


Lemma esoft_policy_playable_witness :
  exists pol e' g',
    monte_carlo_e_soft (E := nat) 10 1 (1 # 100) 0%nat Fixtures.demo_tape
    = Done (pol, e', g') /\
    forall row, row ∈ pol ->
      length row = 2%nat /\ Forall (fun p => 0 <= p /\ p <= 1) row /\ Qsum row == 1.
Proof.
  destruct (monte_carlo_e_soft (E := nat) 10 1 (1 # 100) 0%nat Fixtures.demo_tape)
    as [[[pol e'] g']| |] eqn:Hrun; [|vm_compute in Hrun; discriminate..].
  exists pol, e', g'. split; [done |].
  refine (proj1 (proj2 (esoft_policy_playable (E := nat) (Gen := Fixtures.tape)
                          10 1 (1 # 100) 0%nat Fixtures.demo_tape pol e' g' _ _ Hrun)));
    vm_compute; discriminate.
Defined.


(** With [eps] above one the greedy entry of a row goes negative and
    the next episode is refused by [np.random.choice]. *)
Example esoft_large_eps_raises :
  monte_carlo_e_soft (E := nat) 10 2 3 0%nat Fixtures.demo_tape = Raise.
Proof. vm_compute. reflexivity. Qed.

End EpsilonSoft.


(** ** The Q-learning training cell as a whole *)

Module QTraining.
Import QLearning.

Section Training.
Context {E Gen : Type} `{Environment E} `{NumpyRandom Gen}.

(** The simulator keeps its states below [nS] and its rewards between
    [- rmax] and [rmax], on the hidden states [Inv] that [reset] and
    [step] stay in. *)
Variable Inv : E -> Prop.
Variable rmax : Q.
Hypothesis reset_in_range : forall e,
  Inv e -> ((env_reset e).1 < nS)%nat /\ Inv (env_reset e).2.
Hypothesis step_in_range : forall e a,
  Inv e -> (a < nA)%nat -> ((env_step e a).1.1.1 < nS)%nat /\ Inv (env_step e a).2.
Hypothesis reward_in_range : forall e a,
  Inv e -> (a < nA)%nat -> - rmax <= (env_step e a).1.1.2 /\ (env_step e a).1.1.2 <= rmax.
Hypothesis some_action : (0 < nA)%nat.
Hypothesis rmax_nonneg : 0 <= rmax.











End Training.


End QTraining.


(** ** What the value-estimation loop records for every state *)

Module ValueEstimation.
Import MonteCarlo.

Section WithWorld.
Context {E Gen : Type} `{Environment E} `{NumpyRandom Gen}.

(** [T[rows, col] = x] leaves the rows that are not listed as they
    were. *)
Lemma assign_rows_other_row rows col x : forall T T' s,
  assign_rows T rows col x = Done T' -> s ∉ rows -> get2 T' s col = get2 T s col.
Proof.
  unfold assign_rows.
  induction rows as [|s0 rows IH]; intros T T' s Hrun Hs; simpl in Hrun.
  - by injection Hrun as <-.
  - apply not_elem_of_cons in Hs as [Hne Hs]. inv_bind Hrun.
    erewrite IH; [|exact Hrun | done].
    erewrite get2_set2_ne; [done | exact E0 | congruence].
Qed.

Lemma assign_rows_row_lengths rows col x : forall T T',
  assign_rows T rows col x = Done T' -> map length T' = map length T.
Proof.
  unfold assign_rows.
  induction rows as [|s0 rows IH]; intros T T' Hrun; simpl in Hrun.
  - by injection Hrun as <-.
  - inv_bind Hrun. rewrite (IH _ _ Hrun). by eapply set2_row_lengths.
Qed.

Lemma mc_loop_row_lengths fuel l : forall rw vs e g rw' vs' e' g',
  mc_loop fuel l rw vs e g = Done (rw', vs', e', g') ->
  map length rw' = map length rw /\ map length vs' = map length vs.
Proof.
  induction l as [|j l IH]; intros rw vs e g rw' vs' e' g' Hrun; simpl in Hrun.
  - by injection Hrun as <- <- <- <-.
  - inv_bind Hrun. destruct v as [[[tr R] e1] g1].
    inv_bind Hrun. inv_bind Hrun.
    destruct (IH _ _ _ _ _ _ _ _ Hrun) as [-> ->].
    split; by eapply assign_rows_row_lengths.
Qed.

Lemma get2_np_zeros n m s i :
  (s < n)%nat -> (i < m)%nat -> get2 (np_zeros n m) s i = Done 0.
Proof.
  intros Hs Hi. apply get2_Done. exists (replicate m 0).
  split; by apply lookup_replicate_2.
Qed.

(** When the value-estimation loop returns, column [i] of the two
    tables is a record of episode [i] alone: a state of the table that
    the episode visited, however often, has [visits[s, i] = 1] and
    [rewards[s, i] = R], the total of the episode; a state that it did
    not visit has 0 in both. *)
Theorem mc_column_records_episode (fuel neps : nat) (e : E) (g : Gen)
    (rewards visits : table) (e' : E) (g' : Gen) :
  mc_estimate fuel neps e g = Done (rewards, visits, e', g') ->
  forall i, (i < neps)%nat ->
  exists rw vs ei gi state_trace R e1 g1,
    mc_loop fuel (seq 0 i) (np_zeros nS neps) (np_zeros nS neps) e g
      = Done (rw, vs, ei, gi) /\
    episode fuel ei gi = Done (state_trace, R, e1, g1) /\
    Forall (fun s => (s < nS)%nat) state_trace /\
    forall s, (s < nS)%nat ->
      get2 visits s i = Done (if bool_decide (s ∈ state_trace) then 1 else 0) /\
      get2 rewards s i = Done (if bool_decide (s ∈ state_trace) then R else 0).
Proof.
  unfold mc_estimate. intros Hrun i Hi.
  replace (seq 0 neps) with (seq 0 i ++ i :: seq (S i) (neps - S i)) in Hrun.
  2:{ change (i :: seq (S i) (neps - S i)) with (seq (0 + i) (S (neps - S i))).
      rewrite <- seq_app. f_equal. lia. }
  rewrite mc_loop_app in Hrun. inv_bind Hrun. destruct v as [[[rw vs] ei] gi].
  simpl in Hrun. inv_bind Hrun. destruct v as [[[tr R] e1] g1].
  inv_bind Hrun. inv_bind Hrun.
  exists rw, vs, ei, gi, tr, R, e1, g1. repeat (split; [done |]).
  assert (Hbefore : i ∉ seq 0 i) by (intros Hin%elem_of_seq; lia).
  assert (Hafter : i ∉ seq (S i) (neps - S i)) by (intros Hin%elem_of_seq; lia).
  split.
  - apply Forall_forall. intros s Hs.
    pose proof (assign_rows_written _ _ _ _ _ s E2 Hs) as (row & Hrow & _)%get2_Done.
    apply lookup_lt_Some in Hrow.
    pose proof (f_equal length (assign_rows_row_lengths _ _ _ _ _ E2)) as Hl1.
    pose proof (f_equal length (proj1 (mc_loop_row_lengths _ _ _ _ _ _ _ _ _ _ E0))) as Hl2.
    rewrite !length_map in Hl1, Hl2. unfold np_zeros, np_full in Hl2.
    rewrite length_replicate in Hl2. lia.
  - intros s Hs.
    destruct (mc_loop_other_column _ _ _ _ _ _ _ _ _ _ _ Hrun Hafter s) as [-> ->].
    destruct (mc_loop_other_column _ _ _ _ _ _ _ _ _ _ _ E0 Hbefore s) as [Hrw Hvs].
    rewrite (get2_np_zeros _ _ _ _ Hs Hi) in Hrw, Hvs.
    destruct (decide (s ∈ tr)) as [Hin|Hout].
    + rewrite !bool_decide_eq_true_2 by done.
      split; eapply assign_rows_written; eauto.
    + rewrite !bool_decide_eq_false_2 by done. split.
      * by rewrite (assign_rows_other_row _ _ _ _ _ _ E3 Hout).
      * by rewrite (assign_rows_other_row _ _ _ _ _ _ E2 Hout).
Qed.

End WithWorld.

Lemma mc_column_records_episode_witness :
  exists rewards visits e' g' (state_trace : list state),
    mc_estimate (E := nat) 10 2 0%nat Fixtures.demo_tape = Done (rewards, visits, e', g') /\
    forall s : state, (s < 4)%nat ->
      get2 visits s 0 = Done (if bool_decide (s ∈ state_trace) then 1 else 0).
Proof.
  destruct (mc_estimate (E := nat) 10 2 0%nat Fixtures.demo_tape)
    as [[[[rewards visits] e'] g']| |] eqn:Hrun; [|vm_compute in Hrun; discriminate..].
  destruct (mc_column_records_episode (E := nat) (Gen := Fixtures.tape) 10 2 0%nat
              Fixtures.demo_tape rewards visits e' g' Hrun 0%nat)
    as (rw & vs & ei & gi & state_trace & R & e1 & g1 & _ & _ & _ & Hcol); [lia |].
  exists rewards, visits, e', g', state_trace. split; [done |].
  intros s Hs. by destruct (Hcol s Hs).
Defined.

End ValueEstimation.


(** ** The bookkeeping of a whole bandit run *)

(** [trace_a.count(a)]. *)
Definition pulls (trace : list nat) (a : nat) : nat := count_occ Nat.eq_dec trace a.

Lemma pulls_snoc trace a i :
  pulls (trace ++ [a]) i = (pulls trace i + (if decide (a = i) then 1 else 0))%nat.
Proof.
  unfold pulls. rewrite count_occ_app. simpl.
  destruct (Nat.eq_dec a i), (decide (a = i)); done.
Qed.

Lemma pulls_cons a trace i :
  pulls (a :: trace) i = ((if decide (a = i) then 1 else 0) + pulls trace i)%nat.
Proof.
  unfold pulls. simpl. destruct (Nat.eq_dec a i), (decide (a = i)); done.
Qed.

Module ThompsonRun.
Import Thompson.

Section WithGenerator.
Context {Gen : Type} `{NumpyRandom Gen}.

(** Every count of trials is the number of pulls of its arm, and every
    pull is one of the arms. *)
Definition tallied (b : thompson_state) : Prop :=
  Forall (fun a => (a < length mus)%nat) (trace_a b) /\
  forall i k, ks b !! i = Some k -> k == inject_Z (Z.of_nat (pulls (trace_a b) i)).

Lemma tallied_pulled b a k s r :
  tallied b -> (a < length mus)%nat -> ks b !! a = Some k -> tallied (pulled b a k s r).
Proof.
  intros [Hin Hks] Ha Hk. split.
  - unfold pulled. cbn [trace_a]. apply Forall_app. split; [done |].
    by apply Forall_singleton.
  - simpl. intros i k' Hi. rewrite pulls_snoc.
    destruct (decide (i = a)) as [->|Hne].
    + rewrite list_lookup_insert_eq in Hi by (by eapply lookup_lt_Some).
      injection Hi as <-. rewrite decide_True by done.
      rewrite Nat2Z.inj_add, inject_Z_plus, <- (Hks a k Hk). reflexivity.
    + rewrite list_lookup_insert_ne in Hi by done.
      rewrite decide_False by done. rewrite Nat.add_0_r. by apply Hks.
Qed.

Lemma thompson_loop_tallied N : forall b g,
  posterior b -> tallied b ->
  exists b' g',
    thompson_loop N b g = Done (b', g') /\ posterior b' /\ tallied b' /\
    length (trace_a b') = (length (trace_a b) + N)%nat /\
    alphas b' = alphas b /\ betas b' = betas b.
Proof.
  induction N as [|N IH]; intros b g Hb Ht; simpl.
  - exists b, g. split; [done |]. split; [done |]. split; [done |].
    split; [lia | done].
  - destruct (thompson_round_Done b g Hb) as (a & mu & k & s & _ & Hmu & Hk & Hs & ->).
    simpl. apply lookup_lt_Some in Hmu.
    destruct (IH (pulled b a k s
                    (Qlt_bool (rng_rand (rng_beta (beta_params b) g).2).1 mu))
                 (rng_rand (rng_beta (beta_params b) g).2).2)
      as (b' & g' & -> & Hb' & Ht' & Hlen & Hal & Hbe).
    + by apply posterior_pulled.
    + by apply tallied_pulled.
    + exists b', g'. split; [done |]. split; [done |]. split; [done |].
      split; [|done]. rewrite Hlen. simpl. rewrite length_app. simpl. lia.
Qed.

(** A run of [N] rounds from the initial counts, whatever is drawn,
    completes with [N] pulls recorded, each of arm 0 or arm 1; for
    each arm the count of trials [ks[a]] is the number of times the arm
    occurs in the trace, the count of successes [ss[a]] lies between 0
    and [ks[a]], and the priors are still [[1, 1]]. *)
Theorem thompson_run_tally (N : nat) (g : Gen) :
  exists b' g',
    thompson_loop N thompson_init g = Done (b', g') /\
    length (trace_a b') = N /\
    Forall (fun a => (a < 2)%nat) (trace_a b') /\
    alphas b' = [1; 1] /\ betas b' = [1; 1] /\
    forall a, (a < 2)%nat ->
      exists k s,
        ks b' !! a = Some k /\ ss b' !! a = Some s /\
        k == inject_Z (Z.of_nat (pulls (trace_a b') a)) /\
        0 <= s /\ s <= k.
Proof.
  destruct (thompson_loop_tallied N thompson_init g thompson_init_posterior)
    as (b' & g' & Hrun & Hpost & [Hin Hks] & Hlen & Hal & Hbe).
  { split; [constructor |]. intros [|[|i]] k Hk; simpl in Hk; try discriminate;
      injection Hk as <-; reflexivity. }
  exists b', g'. split; [done |]. split; [by rewrite Hlen |].
  split; [done |]. split; [done |]. split; [done |].
  intros a Ha. destruct Hpost as (_ & _ & Hlk & Hls & _ & _ & Hsk).
  destruct (lookup_lt_is_Some_2 (ks b') a) as [k Hk]; [rewrite Hlk; simpl; lia |].
  destruct (lookup_lt_is_Some_2 (ss b') a) as [s Hs]; [rewrite Hls; simpl; lia |].
  destruct (Forall2_lookup_lr _ _ _ _ _ _ Hsk Hs Hk) as [Hs0 Hsle].
  exists k, s. split; [done |]. split; [done |]. split; [by apply Hks | done].
Qed.

End WithGenerator.

End ThompsonRun.


Module UCBRun.
Import UCB.

Local Open Scope R_scope.

(** *** The exploration bonus *)

Lemma np_divide_scalar_positive c y :
  Forall (fun v => 0 < v) y -> np_divide_scalar c y = Done (map (fun b => c / b) y).
Proof.
  induction y as [|b y IH]; intros Hpos; simpl; [done |].
  apply Forall_cons in Hpos as [Hb Hpos].
  destruct (Req_dec_T b 0) as [->|_]; [lra |].
  by rewrite (IH Hpos).
Qed.

Lemma log_term_nonneg delta : 0 < delta -> delta <= 1 -> 0 <= 2 * ln (1 / delta).
Proof.
  intros Hpos Hle. destruct (Req_dec delta 1) as [->|Hne].
  - replace (1 / 1) with 1 by field. rewrite ln_1. lra.
  - assert (Hlt : 1 < 1 / delta).
    { apply Rmult_lt_reg_r with delta; [done |]. field_simplify; lra. }
    pose proof (ln_increasing 1 (1 / delta) Rlt_0_1 Hlt) as Hln.
    rewrite ln_1 in Hln. lra.
Qed.

(** For [0 < delta <= 1] and counts that are all positive,
    [expl_bonus] returns one bonus per arm, none negative; the square
    of the bonus of an arm is [2 ln (1 / delta)] over its count; and
    an arm with at least as many visits as another has at most its
    bonus. *)
Theorem expl_bonus_shrinks (visits : list R) (delta : R) :
  0 < delta -> delta <= 1 -> Forall (fun v => 0 < v) visits ->
  exists bonus,
    expl_bonus visits delta = Done bonus /\
    length bonus = length visits /\
    (forall i v, visits !! i = Some v ->
       exists b, bonus !! i = Some b /\ 0 <= b /\ b * b = 2 * ln (1 / delta) / v) /\
    (forall i j v w bi bj,
       visits !! i = Some v -> visits !! j = Some w ->
       bonus !! i = Some bi -> bonus !! j = Some bj ->
       v <= w -> bj <= bi).
Proof.
  intros Hpos Hle Hvis. pose proof (log_term_nonneg delta Hpos Hle) as Hc.
  unfold expl_bonus. rewrite (np_divide_scalar_positive _ _ Hvis). simpl.
  eexists. split; [done |]. split; [by rewrite !length_map |]. split.
  - intros i v Hi. exists (sqrt (2 * ln (1 / delta) / v)).
    rewrite !list_lookup_fmap, Hi. split; [done |].
    pose proof (Forall_lookup_1 _ _ _ _ Hvis Hi) as Hv. simpl in Hv.
    split; [apply sqrt_pos |]. apply sqrt_sqrt.
    apply Rmult_le_pos; [done |]. left. by apply Rinv_0_lt_compat.
  - intros i j v w bi bj Hi Hj Hbi Hbj Hvw.
    rewrite !list_lookup_fmap, Hi in Hbi. rewrite !list_lookup_fmap, Hj in Hbj.
    injection Hbi as <-. injection Hbj as <-.
    pose proof (Forall_lookup_1 _ _ _ _ Hvis Hi) as Hv. simpl in Hv.
    apply sqrt_le_1_alt. unfold Rdiv. apply Rmult_le_compat_l; [done |].
    apply Rinv_le_contravar; done.
Qed.

Lemma expl_bonus_shrinks_witness :
  exists bonus,
    expl_bonus [1; 2] delta_default = Done bonus /\ length bonus = 2%nat.
Proof.
  destruct (expl_bonus_shrinks [1; 2] delta_default) as (bonus & Hb & Hlen & _).
  - unfold delta_default. apply Rdiv_lt_0_compat; [lra | apply exp_pos].
  - unfold delta_default. apply Rmult_le_reg_r with (exp 4); [apply exp_pos |].
    field_simplify; [|pose proof (exp_pos 4); lra].
    pose proof (exp_ineq1 4). lra.
  - repeat constructor; lra.
  - by exists bonus.
Defined.

(** *** The counts of a run *)

Section WithGenerator.
Context {Gen : Type} (normal : Gen -> R -> R * Gen).

(** Every count is one more than the number of pulls of its arm, and
    every pull is one of the arms. *)
Definition tallied (b : ucb_state) : Prop :=
  Forall (fun a => (a < length mus)%nat) (trace_a b) /\
  forall i v, visits b !! i = Some v -> v = 1 + INR (pulls (trace_a b) i).

Lemma ucb_loop_tallied N : forall b g,
  counted b -> tallied b ->
  exists b' g', ucb_loop normal N b g = Done (b', g') /\ counted b' /\ tallied b' /\
                length (trace_a b') = (length (trace_a b) + N)%nat.
Proof.
  induction N as [|N IH]; intros b g Hb [Hin Hvs]; simpl.
  - exists b, g. split; [done |]. split; [done |]. split; [done | lia].
  - destruct (ucb_round_counted normal b g Hb)
      as (b1 & g1 & a & v & -> & Hb1 & Hv & Hvis & Htr).
    simpl. destruct (IH b1 g1 Hb1) as (b' & g' & -> & Hb' & Ht' & Hlen).
    + pose proof (lookup_lt_Some _ _ _ Hv) as Ha.
      destruct Hb as (Hlv & _). rewrite Hlv in Ha.
      split; rewrite Htr.
      * apply Forall_app. split; [done |]. by apply Forall_singleton.
      * intros i w Hi. rewrite pulls_snoc. rewrite Hvis in Hi.
        destruct (decide (i = a)) as [->|Hne].
        -- rewrite list_lookup_insert_eq in Hi by (by eapply lookup_lt_Some).
           injection Hi as <-. rewrite decide_True by done.
           rewrite plus_INR, (Hvs a v Hv). simpl. lra.
        -- rewrite list_lookup_insert_ne in Hi by done.
           rewrite decide_False by done. rewrite Nat.add_0_r. by apply Hvs.
    + exists b', g'. split; [done |]. split; [done |]. split; [done |].
      rewrite Hlen, Htr, length_app. simpl. lia.
Qed.

(** A run of [N] rounds, whatever rewards are drawn, completes with
    [N] pulls recorded, each of arm 0 or arm 1, and for each arm
    [visits[a]] is one more than the number of times the arm occurs in
    the trace: the two counts add up to [N + 2]. *)
Theorem ucb_run_tally (N : nat) (g : Gen) :
  exists b' g' v0 v1,
    ucb_run normal N g = Done (b', g') /\
    length (trace_a b') = N /\
    Forall (fun a => (a < 2)%nat) (trace_a b') /\
    visits b' = [v0; v1] /\
    v0 = 1 + INR (pulls (trace_a b') 0) /\
    v1 = 1 + INR (pulls (trace_a b') 1) /\
    v0 + v1 = INR N + 2.
Proof.
  destruct (ucb_loop_tallied N ucb_init g (ucb_init_counted))
    as (b' & g' & Hrun & (Hlv & _) & [Hin Hvs] & Hlen).
  { split; [constructor |]. intros [|[|i]] v Hv; simpl in Hv; try discriminate;
      injection Hv as <-; simpl; lra. }
  simpl in Hlen, Hlv.
  destruct (visits b') as [|v0 [|v1 [|? ?]]] eqn:Hvis; simpl in Hlv; try lia.
  exists b', g', v0, v1. split; [done |]. split; [done |]. split; [done |].
  split; [done |].
  pose proof (Hvs 0%nat v0 eq_refl) as H0. pose proof (Hvs 1%nat v1 eq_refl) as H1.
  split; [done |]. split; [done |].
  rewrite H0, H1, <- Hlen. clear -Hin.
  induction (trace_a b') as [|a tr IH]; [simpl; lra |].
  apply Forall_cons in Hin as [Ha Hin]. specialize (IH Hin).
  change (length (a :: tr)) with (S (length tr)). rewrite S_INR.
  rewrite !pulls_cons, !plus_INR.
  destruct a as [|[|a]]; [| |simpl in Ha; lia];
    repeat case_decide; try lia; rewrite ?INR_1, ?INR_0; lra.
Qed.

End WithGenerator.

End UCBRun.


(** ** The discounted returns of the REINFORCE and actor-critic notebooks *)

Module Returns.

Section WithDiscount.
(** [GAMMA] is a global of the notebooks ([.99] in the actor-critic
    one). *)
Variable GAMMA : Q.

(** One pass of [for r in rewards[::-1]]: [R = r + GAMMA * R] and
    [returns.insert(0, R)]. *)
Definition returns_body (acc : Q * list Q) (r : Q) : Q * list Q :=
  let R := r + GAMMA * acc.1 in (R, R :: acc.2).

(** The loop from [R = 0] and [returns = []]: the last [R] and the
    list [returns]. *)
Definition discounted_returns (rewards : list Q) : Q * list Q :=
  foldl returns_body (0, []) (reverse rewards).

(** [rs[0] + GAMMA * (rs[1] + GAMMA * (... + GAMMA * 0))]. *)
Definition discounted_sum (rs : list Q) : Q :=
  foldr (fun r acc => r + GAMMA * acc) 0 rs.

Lemma discounted_returns_cons r rs :
  discounted_returns (r :: rs)
  = (r + GAMMA * (discounted_returns rs).1,
     (r + GAMMA * (discounted_returns rs).1) :: (discounted_returns rs).2).
Proof. unfold discounted_returns. by rewrite reverse_cons, foldl_app. Qed.

Lemma discounted_returns_spec rs :
  (discounted_returns rs).1 = discounted_sum rs /\
  length (discounted_returns rs).2 = length rs /\
  forall t, (t < length rs)%nat ->
    (discounted_returns rs).2 !! t = Some (discounted_sum (drop t rs)).
Proof.
  induction rs as [|r rs (IHR & IHlen & IHG)]; [by split; [|split; [|intros t; simpl; lia]] |].
  rewrite discounted_returns_cons. cbn [fst snd]. rewrite IHR.
  split; [done |]. split; [simpl; by rewrite IHlen |].
  intros [|t] Ht; [done |]. simpl in *. apply IHG. lia.
Qed.

(** The loop of [finish_episode] returns one entry per reward, obeying
    the backward recurrence [returns[t] = r[t] + GAMMA * returns[t+1]]
    with 0 beyond the last step; [returns[t]] is the discounted sum of
    the rewards from step [t] on, and the [R] left by the loop (the
    single weight of the first version of [finish_episode]) is
    [returns[0]], or 0 when there was no reward. *)
Theorem discounted_returns_recurrence (rewards : list Q) :
  length (discounted_returns rewards).2 = length rewards /\
  (forall t r, rewards !! t = Some r ->
     (discounted_returns rewards).2 !! t
     = Some (r + GAMMA * default 0 ((discounted_returns rewards).2 !! S t))) /\
  (forall t, (t < length rewards)%nat ->
     (discounted_returns rewards).2 !! t = Some (discounted_sum (drop t rewards))) /\
  (discounted_returns rewards).1 = default 0 ((discounted_returns rewards).2 !! 0%nat).
Proof.
  destruct (discounted_returns_spec rewards) as (HR & Hlen & HG).
  split; [done |]. split; [|split; [done |]].
  - intros t r Ht. pose proof (lookup_lt_Some _ _ _ Ht) as Hlt.
    rewrite (HG t Hlt), (drop_S _ _ _ Ht). simpl. do 3 f_equal.
    destruct (decide (S t < length rewards)%nat) as [Hs|Hs].
    + by rewrite (HG _ Hs).
    + rewrite lookup_ge_None_2 by lia. by rewrite drop_ge by lia.
  - rewrite HR. destruct rewards as [|r rs]; [done |].
    rewrite (HG 0%nat) by (simpl; lia). done.
Qed.

End WithDiscount.

Lemma discounted_sum_one rs : discounted_sum 1 rs == Qsum rs.
Proof.
  induction rs as [|r rs IH]; [reflexivity |].
  change (r + 1 * discounted_sum 1 rs == r + Qsum rs). rewrite IH. ring.
Qed.

(** Without discount the returns of [finish_episode] are the weights
    of [rtg]: with [GAMMA = 1] the two lists have the same length and
    equal entries. *)
Theorem undiscounted_returns_are_rtg (rewards : list Q) :
  exists rtgs,
    RewardToGo.rtg rewards = Done rtgs /\
    Forall2 Qeq (discounted_returns 1 rewards).2 rtgs.
Proof.
  destruct (RewardToGo.rtg_filled rewards) as (G & HG & Hlen & Hfill).
  destruct (discounted_returns_spec 1 rewards) as (_ & Hlen' & Hret).
  exists G. split; [done |]. apply Forall2_same_length_lookup_2.
  - lia.
  - intros i x y Hx Hy. pose proof (lookup_lt_Some _ _ _ Hx) as Hi.
    rewrite Hlen' in Hi. rewrite (Hret i Hi) in Hx. injection Hx as <-.
    rewrite Hfill in Hy by lia. injection Hy as <-. apply discounted_sum_one.
Qed.

End Returns.


(** ** TD(lambda) control: [q_step_opt] *)

Module TDControl.
Import TDLambda.

(** [EPS = .05]; [LR], [GAMMA] and [LAMBDA] are those of the cell
    before. *)
Definition EPS : Q := 5 # 100.

(** [T *= c] on a matrix. *)
Definition np_imul2 (T : table) (c : Q) : table := map (fun row => np_imul row c) T.

(** [T += X] on matrices, row by row; [X] has the rows of [T] or a
    single row. *)
Fixpoint np_iadd_rows (T X : table) : outcome table :=
  match T, X with
  | [], [] => Done []
  | row :: T', x :: X' =>
      row' ← np_iadd row x;
      rest ← np_iadd_rows T' X';
      Done (row' :: rest)
  | _, _ => Raise
  end.

Definition np_iadd2 (T X : table) : outcome table :=
  if decide (length X = length T) then np_iadd_rows T X
  else match X with
       | [x] => np_iadd_rows T (replicate (length T) x)
       | _ => Raise
       end.

Section WithWorld.
Context {E Gen : Type} `{Environment E} `{NumpyRandom Gen}.

(** The noise level of episode [i], [EPS + 1 / (i + 1)]; [i + 1] is
    never zero. *)
Definition noise_level (i : nat) : Q := EPS + 1 / inject_Z (Z.of_nat (i + 1)).

(** [q_step_opt(s, i)], on the globals [Q] and [q_trace]. *)
Definition q_step_opt (Qt q_trace : table) (e : E) (s : state) (i : nat) (g : Gen)
  : outcome (table * table * state * Q * bool * E * Gen) :=
  '(a, g1) ← QLearning.q_action Qt (noise_level i) s g;
  let '(ss, r, d, e1) := env_step e a in
  let q_trace := np_imul2 q_trace (GAMMA * LAMBDA) in
  t ← get2 q_trace s a;
  q_trace ← set2 q_trace s a (t + 1);
  row_ss ← index Qt ss;
  m ← np_max row_ss;
  q ← get2 Qt s a;
  let delta := r + GAMMA * m - q in
  Q1 ← np_iadd2 Qt (map (fun row => map (fun t => LR * delta * t) row) q_trace);
  Done (Q1, q_trace, ss, r, d, e1, g1).

(** The [while True] loop of one episode. *)
Fixpoint control_episode (fuel : nat) (Qt q_trace : table) (s : state) (rAll : Q)
    (i : nat) (e : E) (g : Gen) : outcome (table * table * Q * E * Gen) :=
  match fuel with
  | O => OutOfFuel
  | S fuel' =>
      '(Q1, trace1, s1, r, d, e1, g1) ← q_step_opt Qt q_trace e s i g;
      let rAll := rAll + r in
      if (d : bool) then Done (Q1, trace1, rAll, e1, g1)
      else control_episode fuel' Q1 trace1 s1 rAll i e1 g1
  end.

(** [for i in range(NEPS)], with a fresh trace for every episode. *)
Fixpoint control_loop (fuel : nat) (episodes : list nat) (Qt : table) (rList : list Q)
    (e : E) (g : Gen) : outcome (table * list Q * E * Gen) :=
  match episodes with
  | [] => Done (Qt, rList, e, g)
  | i :: rest =>
      let '(s, e0) := env_reset e in
      let q_trace := np_zeros nS nA in
      let rAll := 0 in
      '(Q1, _, rAll, e1, g1) ← control_episode fuel Qt q_trace s rAll i e0 g;
      control_loop fuel rest Q1 (rList ++ [rAll]) e1 g1
  end.

Definition control_train (fuel NEPS : nat) (e : E) (g : Gen)
  : outcome (table * list Q * E * Gen) :=
  control_loop fuel (seq 0 NEPS) (np_zeros nS nA) [] e g.

(** *** Matrices *)

Lemma lookup_map {A B} (f : A -> B) (l : list A) (i : nat) :
  map f l !! i = f <$> (l !! i).
Proof. apply list_lookup_fmap. Qed.

Lemma get2_np_imul2 T c (x y : nat) :
  get2 (np_imul2 T c) x y = (t ← get2 T x y; Done (t * c)).
Proof.
  unfold get2, index, np_imul2, np_imul. rewrite lookup_map.
  destruct (T !! x) as [row|]; simpl; [|done].
  rewrite lookup_map. by destruct (row !! y).
Qed.

Lemma shape_np_imul2 T c n m : shape T n m -> shape (np_imul2 T c) n m.
Proof.
  intros [Hlen Hrows]. unfold np_imul2, np_imul. split; [by rewrite length_map |].
  apply Forall_fmap. eapply Forall_impl; [exact Hrows |].
  intros row Hrow. simpl. by rewrite length_map.
Qed.

Lemma np_iadd_rows_same T : forall X,
  map length X = map length T ->
  np_iadd_rows T X = Done (zip_with (zip_with Qplus) T X).
Proof.
  induction T as [|row T IH]; intros [|x X] Hlen; simpl in *; try discriminate; [done |].
  injection Hlen as Hx Hlen. unfold np_iadd. rewrite decide_True by done. simpl.
  by rewrite (IH X Hlen).
Qed.

Lemma shape_map_length T n m : shape T n m -> map length T = replicate n m.
Proof.
  intros [<- Hrows]. induction Hrows as [|row T Hrow _ IH]; [done |].
  simpl. by rewrite Hrow, IH.
Qed.

Lemma np_iadd2_same T X n m :
  shape T n m -> shape X n m -> np_iadd2 T X = Done (zip_with (zip_with Qplus) T X).
Proof.
  intros HT HX. unfold np_iadd2.
  rewrite decide_True by (destruct HT, HX; congruence).
  apply np_iadd_rows_same. by rewrite (shape_map_length _ _ _ HT), (shape_map_length _ _ _ HX).
Qed.

Lemma get2_zip_with (f : Q -> Q -> Q) T X (x y : nat) v w :
  get2 T x y = Done v -> get2 X x y = Done w ->
  get2 (zip_with (zip_with f) T X) x y = Done (f v w).
Proof.
  intros (row & Hrow & Hv)%get2_Done (xrow & Hxrow & Hw)%get2_Done.
  apply get2_Done. exists (zip_with f row xrow).
  split; rewrite lookup_zip_with.
  - by rewrite Hrow, Hxrow.
  - by rewrite Hv, Hw.
Qed.

Lemma get2_map (f : Q -> Q) T (x y : nat) v :
  get2 T x y = Done v -> get2 (map (fun row => map f row) T) x y = Done (f v).
Proof.
  intros (row & Hrow & Hv)%get2_Done. apply get2_Done. exists (map f row).
  by rewrite !lookup_map, Hrow, Hv.
Qed.

Lemma shape_zip_with (f : Q -> Q -> Q) T X n m :
  shape T n m -> shape X n m -> shape (zip_with (zip_with f) T X) n m.
Proof.
  intros [HT HTr] [HX HXr]. split; [rewrite length_zip_with; lia |].
  apply Forall_lookup_2. intros i row Hi.
  rewrite lookup_zip_with in Hi.
  destruct (T !! i) as [tr|] eqn:Ht; [|done]. destruct (X !! i) as [xr|] eqn:Hx; [|done].
  injection Hi as <-. rewrite length_zip_with.
  rewrite (Forall_lookup_1 _ _ _ _ HTr Ht), (Forall_lookup_1 _ _ _ _ HXr Hx). lia.
Qed.

Lemma shape_map (f : Q -> Q) T n m : shape T n m -> shape (map (fun row => map f row) T) n m.
Proof.
  intros [Hlen Hrows]. split; [by rewrite length_map |].
  apply Forall_fmap. eapply Forall_impl; [exact Hrows |].
  intros row Hrow. simpl. by rewrite length_map.
Qed.

(** *** One step *)

(** What a step that returns has computed. *)
Lemma q_step_opt_Done Qt q_trace e s i g Q1 trace1 ss r d e1 g1 :
  q_step_opt Qt q_trace e s i g = Done (Q1, trace1, ss, r, d, e1, g1) ->
  exists a t row_ss m q,
    QLearning.q_action Qt (noise_level i) s g = Done (a, g1) /\
    env_step e a = (ss, r, d, e1) /\
    get2 q_trace s a = Done t /\
    set2 (np_imul2 q_trace (GAMMA * LAMBDA)) s a (t * (GAMMA * LAMBDA) + 1) = Done trace1 /\
    Qt !! ss = Some row_ss /\ np_max row_ss = Done m /\
    get2 Qt s a = Done q /\
    np_iadd2 Qt (map (fun row => map (fun t => LR * (r + GAMMA * m - q) * t) row) trace1)
    = Done Q1.
Proof.
  unfold q_step_opt. intros Hrun. inv_bind Hrun. destruct v as [a g'].
  destruct (env_step e a) as [[[ss' r'] d'] e'] eqn:Hstep.
  do 6 inv_bind Hrun. injection Hrun as <- <- <- <- <- <- <-.
  rewrite get2_np_imul2 in E1. inv_bind E1. injection E1 as <-.
  apply index_Done in E3. eauto 15.
Qed.

Lemma q_step_opt_total Qt q_trace e s i g :
  shape Qt nS nA -> shape q_trace nS nA -> (0 < nA)%nat -> (s < nS)%nat ->
  QLearning.steps_in_range e ->
  exists Q1 trace1 ss r d e1 g1 a,
    q_step_opt Qt q_trace e s i g = Done (Q1, trace1, ss, r, d, e1, g1) /\
    QLearning.q_action Qt (noise_level i) s g = Done (a, g1) /\ (a < nA)%nat /\
    shape Q1 nS nA /\ shape trace1 nS nA.
Proof.
  intros HQ HT HA Hs Hrange.
  destruct (QLearning.q_action_total Qt (noise_level i) s g HQ HA Hs) as (a & Ha & Hlt).
  unfold q_step_opt. rewrite Ha. simpl.
  specialize (Hrange a Hlt).
  destruct (env_step e a) as [[[ss r] d] e1]. simpl in Hrange.
  pose proof (shape_np_imul2 _ (GAMMA * LAMBDA) _ _ HT) as HT1.
  destruct (EpsilonSoft.get2_total _ s a HT1 Hs Hlt) as [t Ht]. rewrite Ht. simpl.
  destruct (EpsilonSoft.set2_total _ s a (t + 1) HT1 Hs Hlt) as (T2 & HT2 & HT2s).
  rewrite HT2. simpl.
  destruct (shape_lookup _ _ _ _ HQ Hrange) as (row_ss & Hss & Hlss).
  apply index_Done in Hss. rewrite Hss. simpl.
  destruct (np_max_nonempty row_ss) as [m ->]; [lia |]. simpl.
  destruct (EpsilonSoft.get2_total _ s a HQ Hs Hlt) as [q Hq]. rewrite Hq. simpl.
  rewrite (np_iadd2_same Qt _ nS nA HQ) by (by apply shape_map). simpl.
  eexists _, T2, ss, r, d, e1, _, a. split; [done |]. split; [done |].
  split; [done |]. split; [|done].
  apply shape_zip_with; [done |]. by apply shape_map.
Qed.

(** On matrices [Q] and [q_trace] of shape [(nS, nA)] the step
    returns. With [a] the action chosen, the trace of every pair is
    decayed by [GAMMA * LAMBDA], that of [(s, a)] being one more; and
    every entry of [Q], not only [Q[s, a]], moves by [LR * delta]
    times its new trace, with
    [delta = r + GAMMA * max(Q[ss, :]) - Q[s, a]]. *)
Theorem td_control_step_update (Qt q_trace : table) (e : E) (s : state) (i : nat)
    (g : Gen) :
  shape Qt nS nA -> shape q_trace nS nA -> (0 < nA)%nat -> (s < nS)%nat ->
  QLearning.steps_in_range e ->
  exists Q1 trace1 ss r d e1 g1 a q row_ss m,
    q_step_opt Qt q_trace e s i g = Done (Q1, trace1, ss, r, d, e1, g1) /\
    QLearning.q_action Qt (noise_level i) s g = Done (a, g1) /\ (a < nA)%nat /\
    env_step e a = (ss, r, d, e1) /\
    get2 Qt s a = Done q /\ Qt !! ss = Some row_ss /\ np_max row_ss = Done m /\
    shape Q1 nS nA /\ shape trace1 nS nA /\
    (forall (x y : nat) t, get2 q_trace x y = Done t ->
       get2 trace1 x y = Done (if decide ((x, y) = (s, a))
                               then t * (GAMMA * LAMBDA) + 1
                               else t * (GAMMA * LAMBDA))) /\
    (forall (x y : nat) v t', get2 Qt x y = Done v -> get2 trace1 x y = Done t' ->
       get2 Q1 x y = Done (v + LR * (r + GAMMA * m - q) * t')).
Proof.
  intros HQ HT HA Hs Hrange.
  destruct (q_step_opt_total Qt q_trace e s i g HQ HT HA Hs Hrange)
    as (Q1 & trace1 & ss & r & d & e1 & g1 & a & Hrun & Hact & Ha & HQ1 & HT1).
  destruct (q_step_opt_Done _ _ _ _ _ _ _ _ _ _ _ _ _ Hrun)
    as (a0 & t & row_ss & m & q & Hact0 & Henv & Ht & Hset & Hss & Hm & Hq & Hadd).
  rewrite Hact in Hact0. injection Hact0 as <-.
  exists Q1, trace1, ss, r, d, e1, g1, a, q, row_ss, m.
  repeat (split; [done |]). split.
  - intros x y t0 Hx. destruct (decide ((x, y) = (s, a))) as [[= -> ->]|Hne].
    + rewrite (get2_set2_eq _ _ _ _ _ Hset). rewrite Ht in Hx. by injection Hx as ->.
    + rewrite (get2_set2_ne _ _ _ _ _ _ _ Hset Hne), get2_np_imul2, Hx. done.
  - intros x y v t' Hv Ht'.
    rewrite (np_iadd2_same Qt _ nS nA HQ) in Hadd by (by apply shape_map).
    injection Hadd as <-.
    apply (get2_zip_with Qplus); [done |].
    by apply (get2_map (fun t => LR * (r + GAMMA * m - q) * t)).
Qed.

(** *** The traces of an episode *)

Lemma q_step_opt_eligible Qt q_trace e s i g Q1 trace1 ss r d e1 g1 :
  q_step_opt Qt q_trace e s i g = Done (Q1, trace1, ss, r, d, e1, g1) ->
  Forall (Forall eligible) q_trace -> Forall (Forall eligible) trace1.
Proof.
  intros Hrun Hel.
  destruct (q_step_opt_Done _ _ _ _ _ _ _ _ _ _ _ _ _ Hrun)
    as (a & t & _ & _ & _ & _ & _ & Ht & Hset & _).
  apply get2_Done in Ht as (row & Hrow & Ht).
  pose proof (Forall_lookup_1 _ _ _ _ (Forall_lookup_1 _ _ _ _ Hel Hrow) Ht) as Helt.
  assert (Hdecayed : Forall (Forall eligible) (np_imul2 q_trace (GAMMA * LAMBDA))).
  { unfold np_imul2, np_imul. apply Forall_fmap. eapply Forall_impl; [exact Hel |].
    intros row0 Hrow0. simpl. apply Forall_fmap. eapply Forall_impl; [exact Hrow0 |].
    intros t0. apply eligible_decay. }
  apply set2_Done in Hset as (row1 & Hrow1 & _ & ->).
  apply Forall_insert; [done |]. apply Forall_insert.
  - exact (Forall_lookup_1 _ _ _ _ Hdecayed Hrow1).
  - by apply eligible_visit.
Qed.

(** Along an episode of the control loop started with traces between
    0 and [1 / (1 - GAMMA * LAMBDA)], as [np.zeros((env.nS, env.nA))]
    is, every trace stays in these bounds. *)
Theorem td_control_trace_bounded (fuel : nat) (Qt q_trace : table) (s : state)
    (rAll : Q) (i : nat) (e : E) (g : Gen)
    (Q1 trace1 : table) (rAll' : Q) (e' : E) (g' : Gen) :
  Forall (Forall eligible) q_trace ->
  control_episode fuel Qt q_trace s rAll i e g = Done (Q1, trace1, rAll', e', g') ->
  Forall (Forall eligible) trace1.
Proof.
  revert Qt q_trace s rAll e g.
  induction fuel as [|fuel IH]; intros Qt q_trace s rAll e g Hel Hrun; simpl in Hrun.
  - discriminate.
  - inv_bind Hrun. destruct v as [[[[[[Q2 trace2] s2] r] d] e2] g2].
    pose proof (q_step_opt_eligible _ _ _ _ _ _ _ _ _ _ _ _ _ E0 Hel) as Hel2.
    destruct d.
    + by injection Hrun as <- <- <- <- <-.
    + by eapply IH.
Qed.

End WithWorld.

(** *** The corridor, one step and one episode *)

Lemma td_control_step_update_witness :
  exists Q1 trace1 ss r d e1 g1,
    q_step_opt (E := nat) (np_zeros 4 2) (np_zeros 4 2) 0%nat 0%nat 0%nat
      Fixtures.demo_tape
    = Done (Q1, trace1, ss, r, d, e1, g1) /\
    shape Q1 4 2 /\ shape trace1 4 2.
Proof.
  destruct (td_control_step_update (E := nat) (Gen := Fixtures.tape)
              (np_zeros 4 2) (np_zeros 4 2) 0%nat 0%nat 0%nat Fixtures.demo_tape)
    as (Q1 & trace1 & ss & r & d & e1 & g1 & a & q & row_ss & m & Hrun
        & _ & _ & _ & _ & _ & _ & HQ & HT & _).
  - apply shape_np_full.
  - apply shape_np_full.
  - simpl. lia.
  - simpl. lia.
  - intros [|[|a]] Ha; simpl in *; lia.
  - exists Q1, trace1, ss, r, d, e1, g1. split; [exact Hrun|]. split; [exact HQ | exact HT].
Defined.

Lemma td_control_trace_bounded_witness :
  exists Q1 trace1 rAll' e' g',
    control_episode (E := nat) 3 (np_zeros 4 2) (np_zeros 4 2) 0%nat 0 0%nat 0%nat
      ([0; 1; 0; 1; 0; 1] : Fixtures.tape)
    = Done (Q1, trace1, rAll', e', g') /\
    Forall (Forall eligible) trace1.
Proof.
  destruct (control_episode (E := nat) 3 (np_zeros 4 2) (np_zeros 4 2) 0%nat 0 0%nat
              0%nat ([0; 1; 0; 1; 0; 1] : Fixtures.tape))
    as [[[[[Q1 trace1] rAll'] e'] g']| |] eqn:Hrun;
    [|vm_compute in Hrun; discriminate..].
  exists Q1, trace1, rAll', e', g'. split; [reflexivity |].
  refine (td_control_trace_bounded (E := nat) (Gen := Fixtures.tape) 3
            (np_zeros 4 2) (np_zeros 4 2) 0%nat 0 0%nat 0%nat
            ([0; 1; 0; 1; 0; 1] : Fixtures.tape)
            Q1 trace1 rAll' e' g' _ Hrun).
  unfold np_zeros, np_full. apply Forall_replicate, zeros_eligible.
Defined.

End TDControl.


(** ** Cross-entropy notebook: the greedy episode and the linear Q *)

Module CrossEntropy.

(** [[f(i) for i in idxs]]. *)
Fixpoint collect {A} (f : nat -> outcome A) (idxs : list nat) : outcome (list A) :=
  match idxs with
  | [] => Done []
  | i :: rest => x ← f i; xs ← collect f rest; Done (x :: xs)
  end.

(** [theta[:, a]] of a matrix with at least one row, and [np.dot] of
    two vectors. *)
Definition column (theta : table) (a : nat) : outcome (list Q) :=
  collect (fun j => row ← index theta j; index row a) (seq 0 (length theta)).

Definition np_dot (u v : list Q) : outcome Q :=
  if decide (length u = length v) then Done (Qsum (zip_with Qmult u v)) else Raise.

(** [q_apx(s, a, theta)]. *)
Definition q_apx (s : list Q) (a : nat) (theta : table) : outcome Q :=
  col ← column theta a;
  np_dot col s.

Section WithEnvironment.
Context {E : Type}.
(** [env.action_space.n], [env.reset()] and [env.step(a)], on
    observations that are vectors. *)
Variable n_actions : nat.
Variable env_reset : E -> list Q * E.
Variable env_step : E -> action -> list Q * Q * bool * E.

(** The [while True] loop of [episode(Q, env)]. *)
Fixpoint episode_loop (fuel : nat) (Qf : list Q -> nat -> outcome Q)
    (s : list Q) (R : Q) (e : E) : outcome (Q * E) :=
  match fuel with
  | O => OutOfFuel
  | S fuel' =>
      q_vec ← collect (Qf s) (seq 0 n_actions);
      a ← np_argmax q_vec;
      let '(s1, r, d, e1) := env_step e a in
      let R := R + r in
      if (d : bool) then Done (R, e1)
      else episode_loop fuel' Qf s1 R e1
  end.

Definition episode (fuel : nat) (Qf : list Q -> nat -> outcome Q) (e : E)
  : outcome (Q * E) :=
  let R := 0 in
  let '(s, e0) := env_reset e in
  episode_loop fuel Qf s R e0.

(** *** The episode is greedy *)

Lemma collect_Done {A} (f : nat -> outcome A) idxs xs :
  collect f idxs = Done xs ->
  length xs = length idxs /\
  forall k i, idxs !! k = Some i -> exists x, xs !! k = Some x /\ f i = Done x.
Proof.
  revert xs. induction idxs as [|i idxs IH]; intros xs Hrun; simpl in Hrun.
  - injection Hrun as <-. split; [done |]. intros k i Hk. done.
  - inv_bind Hrun. inv_bind Hrun. injection Hrun as <-.
    destruct (IH _ E1) as [Hlen Hall]. split; [simpl; by rewrite Hlen |].
    intros [|k] j Hk; simpl in Hk.
    + injection Hk as <-. by exists v.
    + by apply Hall.
Qed.

(** In state [s] the action [a] is the first one with the largest
    value [Q(s, a)] among the [n_actions] actions. *)
Definition greedy (Qf : list Q -> nat -> outcome Q) (s : list Q) (a : action) : Prop :=
  (a < n_actions)%nat /\
  exists v, Qf s a = Done v /\
    forall j, (j < n_actions)%nat ->
      exists w, Qf s j = Done w /\ w <= v /\ ((j < a)%nat -> w < v).

(** The steps of an episode of greedy actions, the last of which, and
    no other, signals [done]: the rewards received. *)
Inductive greedy_run (Qf : list Q -> nat -> outcome Q)
  : list Q -> E -> list Q -> E -> Prop :=
| greedy_done s e a s1 r e1 :
    greedy Qf s a -> env_step e a = (s1, r, true, e1) ->
    greedy_run Qf s e [r] e1
| greedy_more s e a s1 r e1 rs e2 :
    greedy Qf s a -> env_step e a = (s1, r, false, e1) ->
    greedy_run Qf s1 e1 rs e2 ->
    greedy_run Qf s e (r :: rs) e2.

Lemma greedy_choice Qf s q_vec a :
  collect (Qf s) (seq 0 n_actions) = Done q_vec -> np_argmax q_vec = Done a ->
  greedy Qf s a.
Proof.
  intros [Hlen Hall]%collect_Done (Ha & v & Hv & Hub & Hfirst)%np_argmax_Done.
  rewrite length_seq in Hlen. rewrite Hlen in Ha.
  assert (Hval : forall j w, (j < n_actions)%nat -> q_vec !! j = Some w -> Qf s j = Done w).
  { intros j w Hj Hw. destruct (Hall j j) as (x & Hx & Hf).
    - by rewrite lookup_seq_lt.
    - rewrite Hw in Hx. by injection Hx as <-. }
  split; [done |]. exists v. split; [by apply Hval |].
  intros j Hj. destruct (lookup_lt_is_Some_2 q_vec j) as [w Hw]; [lia |].
  exists w. split; [by apply Hval |]. split; [by eapply Hub |].
  intros Hja. by eapply Hfirst.
Qed.

Lemma episode_loop_greedy fuel Qf : forall s R e R' e',
  episode_loop fuel Qf s R e = Done (R', e') ->
  exists rs, greedy_run Qf s e rs e' /\ R' = MonteCarlo.accumulate R rs /\
             (0 < length rs <= fuel)%nat.
Proof.
  induction fuel as [|fuel IH]; intros s R e R' e' Hrun; simpl in Hrun; [discriminate |].
  inv_bind Hrun. inv_bind Hrun.
  pose proof (greedy_choice _ _ _ _ E0 E1) as Hg.
  destruct (env_step e v0) as [[[s1 r] d] e1] eqn:Hstep. destruct d.
  - injection Hrun as <- <-. exists [r]. split; [by eapply greedy_done |].
    split; [done | simpl; lia].
  - apply IH in Hrun as (rs & Hrun & -> & Hlen). exists (r :: rs).
    split; [by eapply greedy_more |]. split; [done | simpl; lia].
Qed.

(** When [episode(Q, env)] returns, every action taken was the first
    one with the largest value of [Q] in the state at hand, the last
    step and no earlier one signalled [done], and the result is the
    sum of the rewards of these steps. *)
Theorem cem_episode_greedy (fuel : nat) (Qf : list Q -> nat -> outcome Q) (e : E)
    (R : Q) (e' : E) :
  episode fuel Qf e = Done (R, e') ->
  exists rs,
    greedy_run Qf (env_reset e).1 (env_reset e).2 rs e' /\
    R = MonteCarlo.accumulate 0 rs /\ R == Qsum rs /\
    (0 < length rs <= fuel)%nat.
Proof.
  unfold episode. destruct (env_reset e) as [s e0]. intros Hrun.
  apply episode_loop_greedy in Hrun as (rs & Hrun & -> & Hlen).
  exists rs. split; [done |]. split; [done |]. split; [|done].
  rewrite MonteCarlo.accumulate_Qsum. ring.
Qed.

End WithEnvironment.

(** *** Two pushes on a cart *)

(** A cart that tips over at the second step; pushing right pays 1. *)
Definition cart_step (t : nat) (a : action) : list Q * Q * bool * nat :=
  ((if (a =? 1)%nat then [0; 1] else [1; 0]),
   (if (a =? 1)%nat then 1 else 0), (1 <=? t)%nat, S t).

Lemma cem_episode_greedy_witness :
  exists R e' rs,
    episode 2 (fun _ : nat => ([1; 0], 0%nat)) cart_step 5
      (fun s a => q_apx s a [[0; 1]; [1; 0]]) 0%nat = Done (R, e') /\
    R = MonteCarlo.accumulate 0 rs /\ (0 < length rs <= 5)%nat.
Proof.
  destruct (episode 2 (fun _ : nat => ([1; 0], 0%nat)) cart_step 5
              (fun s a => q_apx s a [[0; 1]; [1; 0]]) 0%nat)
    as [[R e']| |] eqn:Hrun; [|vm_compute in Hrun; discriminate..].
  destruct (cem_episode_greedy 2 (fun _ : nat => ([1; 0], 0%nat)) cart_step 5
              (fun s a => q_apx s a [[0; 1]; [1; 0]]) 0%nat R e' Hrun)
    as (rs & _ & HR & _ & Hlen).
  by exists R, e', rs.
Defined.

End CrossEntropy.
